(** * ANANSE: binding-model selection and regulatory-potential aggregation

    A shallow embedding of [ananse/peakpredictor.py] (class [PeakPredictor])
    and of [grns/interaction.py] (the enhancer-to-gene aggregation), with the
    properties of the specification stated and proved over it.

    Conventions of the embedding.
    - A Python [dict] is an association list in insertion order whose keys
      are pairwise distinct ([Py.dict]); [Py.set] updates in place or appends,
      as assignment to a dict key does.
    - Python floats are idealised: graph weights and feature values are
      rationals ([Q], so that the comparisons of the shortest-path search
      stay executable), the columns of the aggregation tables are reals
      ([R], because they go through [exp] and [log]).  A missing value
      (NaN, null) is [None].
    - A raised exception is a value of [Py.exn]; fallible methods return
      [Py.result].
    - Inputs that come from files or external tools (BAM coverage, bedtools
      intersections, the model directory) are arguments of the functions. *)

From Stdlib Require Import List String Ascii Bool Arith ZArith QArith Lia Lra.
From Stdlib Require Import Permutation Sorted DecimalString.
From Stdlib Require Import Reals Lra.
From Stdlib Require Lqa.
Import ListNotations.

(* ================================================================== *)
(** * Python values used by both modules *)
(* ================================================================== *)

Module Py.

Local Open Scope string_scope.
Local Open Scope list_scope.

(** Exceptions raised by the embedded code.  [FuelExhausted] is not a
    Python exception: it marks a loop of the model that used up its step
    bound, and the bound is proved sufficient where it is used. *)
Inductive exn : Type :=
| ValueError
| NotImplementedError
| KeyError
| NodeNotFound
| FuelExhausted.

Inductive result (A : Type) : Type :=
| Ok (a : A)
| Raise (e : exn).

Arguments Ok {A} a.
Arguments Raise {A} e.

Definition bind {A B : Type} (m : result A) (k : A -> result B) : result B :=
  match m with
  | Ok a => k a
  | Raise e => Raise e
  end.

(** ** Ordered dictionaries with string keys *)

Definition dict (V : Type) : Type := list (string * V).

Fixpoint get {V : Type} (d : dict V) (k : string) : option V :=
  match d with
  | [] => None
  | (k', v) :: d' => if String.eqb k' k then Some v else get d' k
  end.

Definition mem {V : Type} (d : dict V) (k : string) : bool :=
  match get d k with
  | Some _ => true
  | None => false
  end.

(** [d[k] = v]: the value is replaced where the key stands, a new key goes
    to the end. *)
Fixpoint set {V : Type} (d : dict V) (k : string) (v : V) : dict V :=
  match d with
  | [] => [(k, v)]
  | (k', v') :: d' =>
      if String.eqb k' k then (k', v) :: d' else (k', v') :: set d' k v
  end.

Definition keys {V : Type} (d : dict V) : list string := map fst d.

(** Membership of a string in a list ([x in l]). *)
Definition contains (l : list string) (x : string) : bool :=
  existsb (String.eqb x) l.

(** ** [range(a, b)] over the integers *)

Fixpoint range_from (a : Z) (n : nat) : list Z :=
  match n with
  | O => []
  | S n' => a :: range_from (a + 1) n'
  end.

Definition range (a b : Z) : list Z := range_from a (Z.to_nat (b - a)).

(** ** Strings *)

(** [str(n)] for an integer. *)
Definition str (n : Z) : string := NilZero.string_of_int (Z.to_int n).

(** [c.upper()] on the ASCII letters. *)
Definition upper_ascii (c : ascii) : ascii :=
  let n := nat_of_ascii c in
  if andb (97 <=? n)%nat (n <=? 122)%nat then ascii_of_nat (n - 32) else c.

Fixpoint upper (s : string) : string :=
  match s with
  | EmptyString => EmptyString
  | String c s' => String (upper_ascii c) (upper s')
  end.

(** [sep.join(l)]. *)
Definition join (sep : string) (l : list string) : string := String.concat sep l.

(** [sorted(l)] on strings: insertion into an ordered list, by code point. *)
Fixpoint insert_sorted (x : string) (l : list string) : list string :=
  match l with
  | [] => [x]
  | y :: l' => if String.leb x y then x :: l else y :: insert_sorted x l'
  end.

Definition sorted (l : list string) : list string :=
  fold_right insert_sorted [] l.

Definition underscore : ascii := "_"%char.
Definition newline : ascii := "010"%char.

(** [re.sub("_.*", "", s)]: a match starts at every underscore that is not
    already inside a match and runs to the end of the line ([.] does not
    match a line feed); [inside] tells whether the scan is inside a match. *)
Fixpoint sub_underscore_rest (inside : bool) (s : string) : string :=
  match s with
  | EmptyString => EmptyString
  | String c s' =>
      if inside then
        if Ascii.eqb c newline then String c (sub_underscore_rest false s')
        else sub_underscore_rest true s'
      else if Ascii.eqb c underscore then sub_underscore_rest true s'
      else String c (sub_underscore_rest false s')
  end.

(** [re.sub(".*_", "", s)]: on every line the greedy match runs from the
    start of the line to its last underscore; [acc] is the text of the
    current line read since its last underscore. *)
Fixpoint sub_rest_underscore (acc : string) (s : string) : string :=
  match s with
  | EmptyString => acc
  | String c s' =>
      if Ascii.eqb c underscore then sub_rest_underscore EmptyString s'
      else if Ascii.eqb c newline then
        (acc ++ String c (sub_rest_underscore EmptyString s'))%string
      else sub_rest_underscore (acc ++ String c EmptyString)%string s'
  end.

(** [s.replace(".pkl", "")]: [skip] counts the characters of a match still
    to be dropped. *)
Fixpoint replace_pkl (skip : nat) (s : string) : string :=
  match s with
  | EmptyString => EmptyString
  | String c s' =>
      match skip with
      | S k => replace_pkl k s'
      | O =>
          if String.prefix ".pkl" s then replace_pkl 3 s'
          else String c (replace_pkl 0 s')
      end
  end.

(** [del d[k]] for a key of the dictionary. *)
Fixpoint del {V : Type} (d : dict V) (k : string) : dict V :=
  match d with
  | [] => []
  | (k', v) :: d' => if String.eqb k' k then d' else (k', v) :: del d' k
  end.

(** [s[1:]]. *)
Definition tail (s : string) : string :=
  match s with
  | EmptyString => EmptyString
  | String _ s' => s'
  end.

Definition is_lower_ascii (c : ascii) : bool :=
  let n := nat_of_ascii c in andb (97 <=? n)%nat (n <=? 122)%nat.

Definition is_upper_ascii (c : ascii) : bool :=
  let n := nat_of_ascii c in andb (65 <=? n)%nat (n <=? 90)%nat.

Fixpoint any_char (p : ascii -> bool) (s : string) : bool :=
  match s with
  | EmptyString => false
  | String c s' => orb (p c) (any_char p s')
  end.

(** [s.islower()] on ASCII: some letter, and no capital letter. *)
Definition islower (s : string) : bool :=
  andb (any_char is_lower_ascii s) (negb (any_char is_upper_ascii s)).

End Py.

(* ================================================================== *)
(** * networkx: undirected weighted graphs and Dijkstra's search *)
(* ================================================================== *)

Module Nx.

Import Py.
Local Open Scope list_scope.
Local Open Scope Q_scope.

(** [nx.Graph]: the adjacency [G._adj], node -> neighbour -> edge weight. *)
Definition Graph : Type := dict (dict Q).

Definition empty : Graph := [].

(** [n in G]. *)
Definition has_node (G : Graph) (n : string) : bool := mem G n.

(** [G._adj[n]], empty for a node the graph does not have. *)
Definition neighbors (G : Graph) (n : string) : dict Q :=
  match get G n with
  | Some nb => nb
  | None => []
  end.

(** [G.add_edge(u, v, weight=w)]: both end points become nodes, and the
    weight is stored in both directions. *)
Definition add_edge (G : Graph) (u v : string) (w : Q) : Graph :=
  let G1 := if mem G u then G else set G u [] in
  let G2 := if mem G1 v then G1 else set G1 v [] in
  let G3 := set G2 u (set (neighbors G2 u) v w) in
  set G3 v (set (neighbors G3 v) u w).

(** [G[u][v]["weight"]], when the edge exists. *)
Definition edge_weight (G : Graph) (u v : string) : option Q :=
  get (neighbors G u) v.

Definition Qlt_bool (a b : Q) : bool := negb (Qle_bool b a).

(** An entry of the priority queue: [(distance, counter, node)]. *)
Definition entry : Type := (Q * nat * string)%type.

(** Tuple comparison [a < b]: by distance, then by counter (counters are
    pairwise distinct, so nodes are never compared). *)
Definition entry_lt (a b : entry) : bool :=
  let '(d1, c1, _) := a in
  let '(d2, c2, _) := b in
  if Qeq_bool d1 d2 then (c1 <? c2)%nat else Qlt_bool d1 d2.

(** [heappop]: the least entry and the remaining ones.  The queue is kept
    as the list of its entries; only its content matters to [heappop]. *)
Fixpoint heappop (h : list entry) : option (entry * list entry) :=
  match h with
  | [] => None
  | x :: h' =>
      match heappop h' with
      | None => Some (x, [])
      | Some (m, rest) =>
          if entry_lt x m then Some (x, h') else Some (m, x :: rest)
      end
  end.

(** The variables of [_dijkstra_multisource]. *)
Record state : Type := mkState {
  dist : dict Q;          (* final distances, in the order they are fixed *)
  seen : dict Q;          (* best distance pushed so far *)
  fringe : list entry;    (* the priority queue *)
  count : nat             (* next value of the counter [c] *)
}.

Definition push (st : state) (u : string) (d : Q) : state :=
  {| dist := dist st;
     seen := set (seen st) u d;
     fringe := (d, count st, u) :: fringe st;
     count := S (count st) |}.

(** One turn of [for u, e in G_succ[v].items()], with [d = dist[v]]. *)
Definition relax (cutoff d : Q) (st : state) (nb : string * Q) : result state :=
  let '(u, cost) := nb in
  let vu_dist := d + cost in
  if Qlt_bool cutoff vu_dist then Ok st
  else
    match get (dist st) u with
    | Some u_dist =>
        if Qlt_bool vu_dist u_dist then Raise ValueError else Ok st
    | None =>
        match get (seen st) u with
        | Some s => if Qlt_bool vu_dist s then Ok (push st u vu_dist) else Ok st
        | None => Ok (push st u vu_dist)
        end
    end.

Fixpoint relax_all (cutoff d : Q) (st : state) (nbs : list (string * Q))
  : result state :=
  match nbs with
  | [] => Ok st
  | nb :: nbs' =>
      match relax cutoff d st nb with
      | Ok st' => relax_all cutoff d st' nbs'
      | Raise e => Raise e
      end
  end.

(** [while fringe: ...], at most [fuel] turns. *)
Fixpoint dijkstra_loop (G : Graph) (cutoff : Q) (fuel : nat) (st : state)
  : result (dict Q) :=
  match fuel with
  | O => Raise FuelExhausted
  | S fuel' =>
      match heappop (fringe st) with
      | None => Ok (dist st)
      | Some ((d, _, v), rest) =>
          if mem (dist st) v then
            dijkstra_loop G cutoff fuel'
              {| dist := dist st; seen := seen st; fringe := rest;
                 count := count st |}
          else
            match relax_all cutoff d
                    {| dist := set (dist st) v d; seen := seen st;
                       fringe := rest; count := count st |}
                    (neighbors G v) with
            | Ok st' => dijkstra_loop G cutoff fuel' st'
            | Raise e => Raise e
            end
      end
  end.

(** Number of adjacency entries: every turn of the loop either drops a
    queue entry or fixes a node, so this many turns plus two suffice. *)
Definition degree_sum (G : Graph) : nat :=
  fold_right (fun kv n => (List.length (snd kv) + n)%nat) 0%nat G.

Definition initial (source : string) : state :=
  {| dist := []; seen := [(source, 0)]; fringe := [(0, 0%nat, source)];
     count := 1 |}.

(** [nx.single_source_dijkstra_path_length(G, source, cutoff)]: the
    dictionary of distances, in the order the nodes were reached. *)
Definition single_source_dijkstra_path_length
    (G : Graph) (source : string) (cutoff : Q) : result (dict Q) :=
  if has_node G source then
    dijkstra_loop G cutoff (S (S (degree_sum G))) (initial source)
  else Raise NodeNotFound.

End Nx.

(* ================================================================== *)
(** * ananse/peakpredictor.py: class PeakPredictor *)
(* ================================================================== *)

Module PeakPredictor.

Import Py.
Local Open Scope string_scope.
Local Open Scope list_scope.

(** ** Data *)

(** [self.region_type]. *)
Inductive RegionType : Type :=
| custom
| reference.

Definition is_reference (t : RegionType) : bool :=
  match t with
  | reference => true
  | custom => false
  end.

(** A trained model is the object unpickled from
    [<data_dir>/<model_type>/<file>]; it is known by that place. *)
Record Model : Type := mkModel {
  model_dir : string;     (* the model-type directory it was loaded from *)
  model_file : string     (* base name of the [.pkl] file *)
}.

(** A float cell; [None] is NaN. *)
Definition value : Type := option Q.

(** A [pd.Series] indexed by region, and a [pd.DataFrame] as its columns. *)
Definition Series : Type := dict value.
Definition DataFrame : Type := dict Series.

(** The instance attributes of a [PeakPredictor].  [data_dir] gives, for a
    model type, the base names that [glob(<data_dir>/<model_type>/*.pkl)]
    lists. *)
Record t : Type := mkPredictor {
  data_dir : string -> list string;
  f2m : dict (list string);
  motif_graph : Nx.Graph;
  regions : list string;
  region_type : RegionType;
  _motifs : DataFrame;
  _avg : DataFrame;
  _dist : DataFrame;
  atac_data : option DataFrame;
  histone_data : option DataFrame;
  _X_columns : list string;
  _model_type : string
}.

(** The class attribute [factor_models = {}] is one dictionary shared by
    all instances; methods that change it take and return it next to
    [self]. *)
Definition registry : Type := dict Model.

Definition with_atac (self : t) (d : DataFrame) : t :=
  mkPredictor (data_dir self) (f2m self) (motif_graph self) (regions self)
    (region_type self) (_motifs self) (_avg self) (_dist self)
    (Some d) (histone_data self) (_X_columns self) (_model_type self).


Definition with_model_type (self : t) (cols : list string) (mt : string) : t :=
  mkPredictor (data_dir self) (f2m self) (motif_graph self) (regions self)
    (region_type self) (_motifs self) (_avg self) (_dist self)
    (atac_data self) (histone_data self) cols mt.

(** ** [_jaccard_motif_graph] *)

(** [set(v)] for a list of motif names. *)
Definition to_set (l : list string) : list string := nodup string_dec l.

Definition intersection (a b : list string) : list string :=
  filter (contains b) a.

Definition union (a b : list string) : list string :=
  a ++ filter (fun x => negb (contains a x)) b.

(** [itertools.combinations(l, 2)]. *)
Fixpoint combinations (l : list string) : list (string * string) :=
  match l with
  | [] => []
  | x :: l' => map (pair x) l' ++ combinations l'
  end.

(** Lines 177-190: motif lists become sets, and with an alternative motif
    file the factors of the reference database are merged in. *)
Definition merge_orthologs (complete_f2m : dict (list string))
    (reference_orthologs : dict (list string)) : dict (list string) :=
  fold_left
    (fun c kv =>
       match get c (fst kv) with
       | Some s => set c (fst kv) (union s (to_set (snd kv)))
       | None => set c (fst kv) (to_set (snd kv))
       end)
    reference_orthologs complete_f2m.

Definition complete_f2m (loaded : dict (list string))
    (reference_orthologs : option (dict (list string))) : dict (list string) :=
  let c := map (fun kv => (fst kv, to_set (snd kv))) loaded in
  match reference_orthologs with
  | Some r => merge_orthologs c r
  | None => c
  end.

(** [1 - i / u] for two motif sets, when [i and u]. *)
Definition jaccard_weight (s1 s2 : list string) : option Q :=
  let i := List.length (intersection s1 s2) in
  let u := List.length (union s1 s2) in
  if andb (0 <? i)%nat (0 <? u)%nat then
    Some (1 - inject_Z (Z.of_nat i) / inject_Z (Z.of_nat u))%Q
  else None.

(** The body of [for tf1, tf2 in combinations]. *)
Definition add_pair (c : dict (list string)) (G : Nx.Graph)
    (p : string * string) : result Nx.Graph :=
  match get c (fst p), get c (snd p) with
  | Some s1, Some s2 =>
      match jaccard_weight s1 s2 with
      | Some w => Ok (Nx.add_edge G (fst p) (snd p) w)
      | None => Ok G
      end
  | _, _ => Raise KeyError
  end.

Fixpoint add_pairs (c : dict (list string)) (G : Nx.Graph)
    (ps : list (string * string)) : result Nx.Graph :=
  match ps with
  | [] => Ok G
  | p :: ps' =>
      match add_pair c G p with
      | Ok G' => add_pairs c G' ps'
      | Raise e => Raise e
      end
  end.

(** Lines 192-200.  [order] is the order in which the Python set
    [set(itertools.combinations(complete_f2m.keys(), 2))] yields its pairs:
    some arrangement of the combinations. *)
Definition _jaccard_motif_graph (c : dict (list string))
    (order : list (string * string)) : result Nx.Graph :=
  add_pairs c Nx.empty order.

(** ** [_set_model_type], [load_atac], [load_histone] *)

Definition model_columns (self : t) : list string :=
  sorted
    (["motif"]
     ++ match atac_data self with
        | Some _ =>
            "ATAC" :: (if is_reference (region_type self)
                       then ["ATAC.relative"] else [])
        | None => []
        end
     ++ match histone_data self with
        | Some _ => ["H3K27ac"]
        | None => []
        end
     ++ (if is_reference (region_type self) then ["average"; "dist"] else [])).

(** [for fname in glob(...): self.factor_models[factor] = joblib.load(fname)]. *)
Definition load_models (dir : string) (files : list string) (fm : registry)
  : registry :=
  fold_left
    (fun fm fname => set fm (replace_pkl 0 fname) (mkModel dir fname))
    files fm.

Definition _set_model_type (self : t) (fm : registry) : t * registry :=
  let cols := model_columns self in
  let mt := join "_" cols in
  (with_model_type self cols mt, load_models mt (data_dir self mt) fm).

(** [load_atac(bams, update_models)]; [data] is what [_load_bams] returns
    for the BAM files. *)
Definition load_atac (self : t) (fm : registry) (data : DataFrame)
    (update_models : bool) : t * registry :=
  let self' := with_atac self data in
  if update_models then _set_model_type self' fm else (self', fm).


(** ** [_load_model] *)

(** [for tf in tfs: if tf in self.factor_models: ... break]. *)
Fixpoint first_with_model (fm : registry) (tfs : dict Q)
  : option (string * Q * Model) :=
  match tfs with
  | [] => None
  | (tf, d) :: tfs' =>
      match get fm tf with
      | Some m => Some (tf, d, m)
      | None => first_with_model fm tfs'
      end
  end.

(** [self.factor_models["general"]]. *)
Definition general_model (fm : registry) (factor : string)
  : result (Model * string) :=
  match get fm "general" with
  | Some m => Ok (m, factor)
  | None => Raise KeyError
  end.

Definition _load_model (self : t) (fm : registry) (factor : string)
    (jaccard_cutoff : Q) : result (Model * string) :=
  match get fm factor with
  | Some m => Ok (m, factor)
  | None =>
      if Nx.has_node (motif_graph self) factor then
        match Nx.single_source_dijkstra_path_length
                (motif_graph self) factor (1 - jaccard_cutoff)%Q with
        | Ok tfs =>
            match first_with_model fm tfs with
            | Some (_, _, m) => Ok (m, factor)
            | None => general_model fm factor
            end
        | Raise e => Raise e
        end
      else general_model fm factor
  end.

(** ** [_load_data] and [predict_proba] *)

(** The cell of a series at an index label; NaN where the label is absent
    (what reindexing and a left join on the index leave there). *)
Definition cell (s : Series) (r : string) : value :=
  match get s r with
  | Some v => v
  | None => None
  end.

(** [tmp.join(other)]: the columns of [other] are added; pandas refuses
    overlapping column names. *)
Definition join_frame (tmp other : DataFrame) : result DataFrame :=
  if existsb (contains (keys tmp)) (keys other) then Raise ValueError
  else Ok (tmp ++ other).

Definition optional (d : option DataFrame) : list DataFrame :=
  match d with
  | Some f => [f]
  | None => []
  end.

Definition is_some (v : value) : bool :=
  match v with
  | Some _ => true
  | None => false
  end.

(** A table in row order: index label and the cells by column name. *)
Definition table : Type := list (string * dict value).

Definition materialize (index : list string) (tmp : DataFrame) : table :=
  map (fun r => (r, map (fun col => (fst col, cell (snd col) r)) tmp)) index.

(** [tmp.dropna()]. *)
Definition dropna (tb : table) : table :=
  filter (fun row => forallb is_some (map snd (snd row))) tb.

(** [tmp[cols]]: [KeyError] when a column is absent. *)
Definition select (cols names : list string) (tb : table)
  : result (list (string * list value)) :=
  if forallb (contains names) cols then
    Ok (map (fun row => (fst row, map (cell (snd row)) cols)) tb)
  else Raise KeyError.

Definition _load_data (self : t) (factor : string)
  : result (list (string * list value)) :=
  match get (_motifs self) factor with
  | None => Raise KeyError
  | Some motif =>
      bind
        (fold_left
           (fun acc other => bind acc (fun tmp => join_frame tmp other))
           (optional (atac_data self) ++ optional (histone_data self)
            ++ (if is_reference (region_type self)
                then [_avg self; _dist self] else []))
           (Ok [("motif", motif)]))
        (fun tmp =>
           select (_X_columns self) (keys tmp)
             (dropna (materialize (regions self) tmp)))
  end.

(** [pd.DataFrame(data, index=index)]: the lengths must agree. *)
Definition new_frame (data : list Q) (index : list string)
  : result (list (string * Q)) :=
  if Nat.eqb (List.length data) (List.length index) then
    Ok (combine index data)
  else Raise ValueError.

Section Predict.

(** The classifier: the probability of the second class that a trained
    model gives to one feature row. *)
Variable proba : Model -> list value -> Q.

Definition predict_proba (self : t) (fm : registry)
    (factor : option string) (motifs : option (list string))
    (jaccard_cutoff : Q) : result (list (string * Q)) :=
  match factor, motifs with
  | None, None => Raise ValueError
  | _, Some _ => Raise NotImplementedError
  | Some f, None =>
      if negb (mem (f2m self) f) then Raise ValueError
      else
        bind (_load_model self fm f jaccard_cutoff) (fun mf =>
        bind (_load_data self (snd mf)) (fun x =>
          new_frame (map (proba (fst mf)) (map snd x)) (regions self)))
  end.

End Predict.

(** ** [_load_factor2motifs] and [factors] *)

(** [self.species], when it is known. *)
Inductive Species : Type :=
| human
| mouse.

Definition is_human (species : option Species) : bool :=
  match species with
  | Some human => true
  | _ => false
  end.

Definition BLACKLIST_TFS : list string := ["NO ORTHOLOGS FOUND"].

(** [f2m.setdefault(factor, []).append(name)]. *)
Definition append_motif (f2m : dict (list string)) (factor name : string)
  : dict (list string) :=
  set f2m factor
      match get f2m factor with
      | Some names => names ++ [name]
      | None => [name]
      end.

(** The body of [for factor in get_motif_factors(motif, indirect)]. *)
Definition add_factor (species : option Species) (valid_factors : list string)
    (allowed : option (list string)) (name : string)
    (f2m : dict (list string)) (factor : string) : dict (list string) :=
  if match allowed with
     | Some fs => negb (contains fs factor)
     | None => false
     end
  then f2m
  else
    let factor := if is_human species then upper factor else factor in
    if andb (is_human species) (negb (contains valid_factors factor)) then f2m
    else append_motif f2m factor name.

(** [_load_factor2motifs].  [motifs] gives for every motif name of the
    motif file the factors that [get_motif_factors] lists for it;
    [valid_factors] is what [_load_human_factors] returns (read for human
    only); [allowed] is the argument [factors]. *)
Definition _load_factor2motifs (species : option Species)
    (valid_factors : list string) (motifs : dict (list string))
    (allowed : option (list string)) : result (dict (list string)) :=
  let f2m :=
    fold_left
      (fun acc nm =>
         fold_left (add_factor species valid_factors allowed (fst nm))
                   (snd nm) acc)
      motifs [] in
  let f2m :=
    fold_left (fun acc tf => if mem acc tf then del acc tf else acc)
              BLACKLIST_TFS f2m in
  if Nat.eqb (List.length f2m) 0 then Raise ValueError else Ok f2m.

(** [factors()]. *)
Definition factors (species : option Species) (valid_factors : list string)
    (f2m : dict (list string)) : list string :=
  match species with
  | Some human => filter (contains valid_factors) (keys f2m)
  | Some mouse => filter (fun f => islower (tail f)) (keys f2m)
  | None => keys f2m
  end.

(** ** The loop of [predict_peaks] over the factors *)

(** How the loop ends: [sys.exit(1)], an exception that nothing catches,
    or the store with one series per key and the index written last. *)
Inductive run : Type :=
| SystemExit1
| Uncaught (e : exn)
| Stored (series : dict (list Q)) (index : list string).

Section PredictPeaks.

Variable proba : Model -> list value -> Q.

(** Lines 855-875 of [predict_peaks]:
    [for factor in p.factors(): try: ... except ValueError: ...], then the
    test of [proba is None] and the writing of [_index].  [fs] is what is
    left of [p.factors()], [stored] the series put under the factors so
    far ([hdf.put] replaces what a key holds) and [last] the variable
    [proba]. *)
Fixpoint predict_factors (self : t) (fm : registry) (jaccard_cutoff : Q)
    (fs : list string) (stored : dict (list Q))
    (last : option (list (string * Q))) : run :=
  match fs with
  | [] =>
      match last with
      | None => SystemExit1
      | Some tb => Stored stored (map fst tb)
      end
  | f :: fs' =>
      match predict_proba proba self fm (Some f) None jaccard_cutoff with
      | Ok tb =>
          predict_factors self fm jaccard_cutoff fs'
            (set stored f (map snd tb)) (Some tb)
      | Raise ValueError =>
          predict_factors self fm jaccard_cutoff fs' stored last
      | Raise e => Uncaught e
      end
  end.

End PredictPeaks.

End PeakPredictor.

(* ================================================================== *)
(** * grns/interaction.py: enhancer-to-gene aggregation *)
(* ================================================================== *)

Module Interaction.

Import Py.
Local Open Scope string_scope.
Local Open Scope list_scope.
Local Open Scope Z_scope.

(** ** Overlaps of gene windows with peaks *)

(** One line of [b.intersect(peaks, wo=True)]: a gene window (the gene's
    first upstream base, extended by [up] and [down]) and a peak in it. *)
Record Overlap : Type := mkOverlap {
  chrom : string;        (* f[0] *)
  start : Z;             (* f.start *)
  name : string;         (* f[3] *)
  strand : string;       (* f[5] *)
  peak_start : Z;        (* int(f[13]) *)
  peak_end : Z           (* int(f[14]) *)
}.

(** A row of the table [p]: columns [gene], [loc], [dist]. *)
Record GeneRow : Type := mkGeneRow {
  gene : string;
  loc : string;
  dist : Z
}.

(** A row of the table [prom]; of its columns only [gene] and [loc] are
    read later. *)
Record PromRow : Type := mkPromRow {
  prom_gene : string;
  prom_loc : string
}.

(** [chrom + ":" + str(peak_start) + "-" + str(peak_end)]. *)
Definition make_loc (c : string) (ps pe : Z) : string :=
  c ++ ":" ++ str ps ++ "-" ++ str pe.

(** [int((peak_start + peak_end) / 2)]: [int] truncates toward zero. *)
Definition midpoint (ps pe : Z) : Z := Z.quot (ps + pe) 2.

(** [tss = f.start + up] on the plus strand, [f.start + down] otherwise. *)
Definition tss_of (up down : Z) (f : Overlap) : Z :=
  if String.eqb (strand f) "+" then start f + up else start f + down.

Definition gene_row (up down : Z) (f : Overlap) : GeneRow :=
  {| gene := name f;
     loc := make_loc (chrom f) (peak_start f) (peak_end f);
     dist := Z.abs (tss_of up down f
                    - midpoint (peak_start f) (peak_end f)) |}.

(** [sort_values("dist")], by insertion. *)
Fixpoint insert_by_dist (r : GeneRow) (l : list GeneRow) : list GeneRow :=
  match l with
  | [] => [r]
  | x :: l' =>
      if dist r <=? dist x then r :: l else x :: insert_by_dist r l'
  end.

Definition sort_by_dist (l : list GeneRow) : list GeneRow :=
  fold_right insert_by_dist [] l.

Definition same_pair (a b : GeneRow) : bool :=
  andb (String.eqb (loc a) (loc b)) (String.eqb (gene a) (gene b)).

(** [drop_duplicates(["loc", "gene"], keep="first")]; [seen] holds the rows
    already kept. *)
Fixpoint drop_duplicates_from (seen : list GeneRow) (l : list GeneRow)
  : list GeneRow :=
  match l with
  | [] => []
  | r :: l' =>
      if existsb (same_pair r) seen then drop_duplicates_from seen l'
      else r :: drop_duplicates_from (r :: seen) l'
  end.

Definition drop_duplicates (l : list GeneRow) : list GeneRow :=
  drop_duplicates_from [] l.

(** [get_gene_dataframe]; [overlaps] is what bedtools returns for the
    windows of size [up] and [down]. *)
Definition get_gene_dataframe (overlaps : list Overlap) (up down : Z)
  : list GeneRow :=
  drop_duplicates (sort_by_dist (map (gene_row up down) overlaps)).

(** [get_promoter_dataframe]. *)
Definition get_promoter_dataframe (overlaps : list Overlap) : list PromRow :=
  map (fun f => {| prom_gene := name f;
                   prom_loc := make_loc (chrom f) (peak_start f) (peak_end f) |})
      overlaps.

(** Lines 233-236: the pairs used for the long-range aggregation. *)
Definition long_range_pairs (overlaps : list Overlap) (window_up window_down : Z)
  : list GeneRow :=
  map (fun r => {| gene := upper (gene r); loc := loc r; dist := dist r |})
      (filter (fun r => dist r <? 99999)
              (get_gene_dataframe overlaps window_up window_down)).

(** Lines 229-230. *)
Definition promoter_pairs (overlaps : list Overlap) : list PromRow :=
  map (fun r => {| prom_gene := upper (prom_gene r); prom_loc := prom_loc r |})
      (get_promoter_dataframe overlaps).

(** ** The distance weight table (lines 258-264) *)

(** [2.0*math.exp(-u*math.fabs(z)/1e5)/(1.0+math.exp(-u*math.fabs(z)/1e5))]. *)
Definition decay (u : R) (z : Z) : R :=
  (2 * exp (- u * Rabs (IZR z) / 100000)
   / (1 + exp (- u * Rabs (IZR z) / 100000)))%R.

(** [u = -math.log(1.0/3.0)*1e5/alpha]. *)
Definition decay_rate (alpha : R) : R := (- ln (1 / 3) * 100000 / alpha)%R.

(** [pd.DataFrame({"weight": ws, "dist": ds})]; the two columns built below
    always have the same length. *)
Definition weight_frame (ws : list R) (ds : list Z) : list (R * Z) :=
  combine ws ds.

(** [pd.concat([weight1, weight2, weight3])].  The table is written to
    [weight.csv] and read back, which leaves its rows as they are. *)
Definition weight_table (alpha : R) (padding keep1 remove : Z)
  : list (R * Z) :=
  let u := decay_rate alpha in
  weight_frame (map (fun _ => 0%R) (range 1 (remove + 1)))
               (range 1 (remove + 1))
  ++ weight_frame (map (fun _ => 1%R) (range (remove + 1) (keep1 + 1)))
                  (range (remove + 1) (keep1 + 1))
  ++ weight_frame (map (decay u) (range 1 (padding - keep1 + 1)))
                  (range (keep1 + 1) (padding + 1)).

(** The [weight] cells that a left merge on [dist] joins to a row at
    distance [d]: none (a null weight), or one per matching table row. *)
Definition weights_at (tb : list (R * Z)) (d : Z) : list R :=
  map fst (filter (fun w => Z.eqb (snd w) d) tb).

(** ** [aggregate_binding] *)

(** A row of the binding table: columns [factor], [enhancer], [binding]. *)
Record Binding : Type := mkBinding {
  b_factor : string;
  b_enhancer : string;
  b_binding : R
}.

(** A row of [ddf.merge(p, left_on="enhancer", right_on="loc")]. *)
Record Pair : Type := mkPair {
  p_factor : string;
  p_gene : string;
  p_binding : R;
  p_dist : Z
}.

Definition merge_pairs (ddf : list Binding) (p : list GeneRow) : list Pair :=
  flat_map
    (fun b =>
       map (fun r => mkPair (b_factor b) (gene r) (b_binding b) (dist r))
           (filter (fun r => String.eqb (b_enhancer b) (loc r)) p))
    ddf.

(** [ddf.merge(prom, left_on="enhancer", right_on="loc")], with the
    columns [factor], [gene], [binding]. *)
Definition merge_promoters (ddf : list Binding) (prom : list PromRow)
  : list (string * string * R) :=
  flat_map
    (fun b =>
       map (fun r => (b_factor b, prom_gene r, b_binding b))
           (filter (fun r => String.eqb (b_enhancer b) (prom_loc r)) prom))
    ddf.

(** [f_table.merge(weight, how="left", on="dist")]. *)
Definition merge_weight (rows : list Pair) (tb : list (R * Z))
  : list (Pair * option R) :=
  flat_map
    (fun r =>
       match weights_at tb (p_dist r) with
       | [] => [(r, None)]
       | ws => map (fun w => (r, Some w)) ws
       end)
    rows.

Definition Rsum (l : list R) : R := fold_right Rplus 0%R l.

(** [Series.mean()]. *)
Definition mean (l : list R) : R := (Rsum l / INR (List.length l))%R.

(** [max] of a group, null on no value. *)
Definition Rmax_list (l : list R) : option R :=
  match l with
  | [] => None
  | x :: l' => Some (fold_left Rmax l' x)
  end.

(** The values of a column that are not null. *)
Definition present (l : list (option R)) : list R :=
  flat_map (fun v => match v with Some x => [x] | None => [] end) l.

(** The group key [["factor", "gene"]]. *)
Definition key : Type := (string * string)%type.

Definition key_eqb (a b : key) : bool :=
  andb (String.eqb (fst a) (fst b)) (String.eqb (snd a) (snd b)).

(** The groups of a [groupby]: every key once. *)
Fixpoint group_keys (ks : list key) : list key :=
  match ks with
  | [] => []
  | k :: ks' =>
      if existsb (key_eqb k) ks' then group_keys ks' else k :: group_keys ks'
  end.

(** [factor + "_" + gene]. *)
Definition source_target_of (k : key) : string := fst k ++ "_" ++ snd k.

(** [left.merge(right, on="source_target", how="outer")]: every pairing of
    rows with the same key, and the rows of either side without partner. *)
Definition merge_outer {A B : Type} (l : list (string * A))
    (r : list (string * B)) : list (string * (option A * option B)) :=
  flat_map
    (fun x =>
       match filter (fun y => String.eqb (fst x) (fst y)) r with
       | [] => [(fst x, (Some (snd x), None))]
       | ys => map (fun y => (fst x, (Some (snd x), Some (snd y)))) ys
       end)
    l
  ++ map (fun y => (fst y, (None, Some (snd y))))
         (filter (fun y => negb (existsb (fun x => String.eqb (fst x) (fst y)) l))
                 r).

Definition pair_key (r : Pair) : key := (p_factor r, p_gene r).

Definition weighted_key (r : Pair * option R) : key := pair_key (fst r).

Definition prom_key (r : string * string * R) : key := (fst (fst r), snd (fst r)).

(** The rows of one group. *)
Definition group {X : Type} (kf : X -> key) (k : key) (rows : list X) : list X :=
  filter (fun r => key_eqb (kf r) k) rows.

(** [ln(binding / mean)], and the same times 50000 over the distance. *)
Definition logodds (m : R) (r : Pair) : R := ln (p_binding r / m).

Definition weighted_logodds (m : R) (r : Pair) : R :=
  (50000 * logodds m r / IZR (p_dist r))%R.

(** [binding * weight], null where the weight is. *)
Definition dist_weight (r : Pair * option R) : option R :=
  option_map (Rmult (p_binding (fst r))) (snd r).

(** The columns of [f_table_sum] and of [f_table_max]. *)
Record Sums : Type := mkSums {
  s_weighted_logodds : R;
  s_logodds : R;
  s_binding : R;
  s_dist_weight : R
}.

Record Maxs : Type := mkMaxs {
  m_binding : option R;
  m_dist_weight : option R
}.

(** [groupby(["factor", "gene"])[["binding"]].count()], keyed by
    [source_target]. *)
Definition sum_enh (rows : list Pair) : list (string * Z) :=
  map (fun k => (source_target_of k,
                 Z.of_nat (List.length (group pair_key k rows))))
      (group_keys (map pair_key rows)).

Definition f_table_sum (m : R) (rows : list (Pair * option R))
  : list (string * Sums) :=
  map (fun k =>
         let g := group weighted_key k rows in
         (source_target_of k,
          mkSums (Rsum (map (fun r => weighted_logodds m (fst r)) g))
                 (Rsum (map (fun r => logodds m (fst r)) g))
                 (Rsum (map (fun r => p_binding (fst r)) g))
                 (Rsum (present (map dist_weight g)))))
      (group_keys (map weighted_key rows)).

Definition f_table_max (rows : list (Pair * option R))
  : list (string * Maxs) :=
  map (fun k =>
         let g := group weighted_key k rows in
         (source_target_of k,
          mkMaxs (Rmax_list (map (fun r => p_binding (fst r)) g))
                 (Rmax_list (present (map dist_weight g)))))
      (group_keys (map weighted_key rows)).

Definition prom_table (rows : list (string * string * R))
  : list (string * option R) :=
  map (fun k => (source_target_of k,
                 Rmax_list (map snd (group prom_key k rows))))
      (group_keys (map prom_key rows)).

(** A row of the feature table. *)
Record Feature : Type := mkFeature {
  source_target : string;
  factor : string;
  target : string;                      (* column [gene] *)
  sum_weighted_logodds : option R;
  sum_dist_weight : option R;
  sum_logodds : option R;
  sum_binding : option R;
  enhancers : option Z;
  max_binding_in_promoter : R;
  max_binding : option R;
  max_sum_dist_weight : option R;
  log_sum_binding : option R;
  log_enhancers : option R
}.

Definition joined : Type :=
  (string
   * (option (option (option Sums * option Maxs) * option Z)
      * option (option R)))%type.

Definition sums_of (j : joined) : option Sums :=
  match fst (snd j) with
  | Some (Some (s, _), _) => s
  | _ => None
  end.

Definition maxs_of (j : joined) : option Maxs :=
  match fst (snd j) with
  | Some (Some (_, m), _) => m
  | _ => None
  end.

Definition enhancers_of (j : joined) : option Z :=
  match fst (snd j) with
  | Some (_, e) => e
  | None => None
  end.

Definition promoter_of (j : joined) : option R :=
  match snd (snd j) with
  | Some v => v
  | None => None
  end.

(** Lines 303-309: the columns kept, the two logarithms, [factor] and
    [gene] cut out of [source_target], and [fillna(0)]. *)
Definition feature_of (j : joined) : Feature :=
  {| source_target := fst j;
     factor := sub_underscore_rest false (fst j);
     target := sub_rest_underscore EmptyString (fst j);
     sum_weighted_logodds := option_map s_weighted_logodds (sums_of j);
     sum_dist_weight := option_map s_dist_weight (sums_of j);
     sum_logodds := option_map s_logodds (sums_of j);
     sum_binding := option_map s_binding (sums_of j);
     enhancers := enhancers_of j;
     max_binding_in_promoter :=
       match promoter_of j with Some v => v | None => 0%R end;
     max_binding :=
       match maxs_of j with Some m => m_binding m | None => None end;
     max_sum_dist_weight :=
       match maxs_of j with Some m => m_dist_weight m | None => None end;
     log_sum_binding :=
       option_map (fun s => ln (s_binding s + / 100000)%R) (sums_of j);
     log_enhancers :=
       option_map (fun e => ln (IZR e + 1)%R) (enhancers_of j) |}.

(** The rows [f_table] of the long-range aggregation after line 246. *)
Definition contributing (ddf : list Binding) (gene_overlaps : list Overlap)
    (window_up window_down : Z) : list Pair :=
  merge_pairs ddf (long_range_pairs gene_overlaps window_up window_down).

(** The table that [aggregate_binding] writes at line 313, for a call
    that gets so far (lines 240-309); the two lists of overlaps are what
    bedtools returns for the promoter windows and for the long-range
    windows. *)
Definition feature_table (ddf : list Binding)
    (prom_overlaps gene_overlaps : list Overlap)
    (window_up window_down : Z) (alpha : R) (padding keep1 remove : Z)
  : list Feature :=
  let prom := promoter_pairs prom_overlaps in
  let f_table := contributing ddf gene_overlaps window_up window_down in
  let enh := sum_enh f_table in
  let m := mean (map p_binding f_table) in
  let weighted :=
    merge_weight f_table (weight_table alpha padding keep1 remove) in
  let proms := prom_table (merge_promoters ddf prom) in
  map feature_of
    (merge_outer
       (merge_outer (merge_outer (f_table_sum m weighted) (f_table_max weighted))
                    enh)
       proms).

(** ** Calls that fail *)

(** Why a call ends without a result. *)
Inductive error : Type :=
| ZeroDivisionError     (* [1e5/alpha] for [alpha] zero *)
| OverflowError         (* [math.exp] of a number whose exponential is
                           above the largest float *)
| IndexError            (* an index outside of a numpy array *)
| EmptyPairTable.       (* no pair is left after the filter of line 234:
                           the gene column, assigned an empty list at
                           line 236, is no column of strings, and the key
                           of line 292 cannot be formed from it *)

Inductive outcome (A : Type) : Type :=
| Returns (a : A)
| Fails (e : error).

Arguments Returns {A} a.
Arguments Fails {A} e.

(** The largest float, [(2 - 2^-52) 2^1023]. *)
Definition max_float : R := ((2 - / 2 ^ 52) * 2 ^ 1023)%R.

(** [math.exp(x)] raises [OverflowError]. *)
Definition exp_overflows (x : R) : bool :=
  if Rlt_dec max_float (exp x) then true else false.

(** The argument of [math.exp] in the weight curve. *)
Definition decay_arg (u : R) (z : Z) : R := (- u * Rabs (IZR z) / 100000)%R.

(** Lines 258-261 for the distances [zs]: [u], and whether the list of
    curve values can be built. *)
Definition weights_fail (alpha : R) (zs : list Z) : option error :=
  if Req_dec_T alpha 0 then Some ZeroDivisionError
  else if existsb (fun z => exp_overflows (decay_arg (decay_rate alpha) z)) zs
  then Some OverflowError
  else None.

(** [aggregate_binding]. *)
Definition aggregate_binding (ddf : list Binding)
    (prom_overlaps gene_overlaps : list Overlap)
    (window_up window_down : Z) (alpha : R) (padding keep1 remove : Z)
  : outcome (list Feature) :=
  match weights_fail alpha (range 1 (padding - keep1 + 1)) with
  | Some e => Fails e
  | None =>
      match long_range_pairs gene_overlaps window_up window_down with
      | [] => Fails EmptyPairTable
      | _ :: _ =>
          Returns (feature_table ddf prom_overlaps gene_overlaps
                     window_up window_down alpha padding keep1 remove)
      end
  end.

(** ** [distance_weight] (lines 204-221) *)

(** [a[i]] for a one-dimensional numpy array and an integer: a negative
    index counts from the end; outside both ranges numpy raises
    [IndexError], which is [None] here. *)
Definition np_index {A : Type} (a : list A) (i : Z) : option A :=
  let n := Z.of_nat (List.length a) in
  if andb (0 <=? i) (i <? n) then nth_error a (Z.to_nat i)
  else if andb (- n <=? i) (i <? 0) then nth_error a (Z.to_nat (n + i))
  else None.

(** [distance_weight] for one binding value and one distance. *)
Definition distance_weight (binding : R) (distance : Z) (alpha : R)
    (padding : Z) : outcome R :=
  match weights_fail alpha (range 1 (padding + 1)) with
  | Some e => Fails e
  | None =>
      let u := decay_rate alpha in
      let weight := map (decay u) (range 1 (padding + 1)) in
      match np_index weight distance with
      | Some w => Returns (binding * w)%R
      | None => Fails IndexError
      end
  end.

End Interaction.

(* ================================================================== *)
(** * Vocabulary of the specification *)
(* ================================================================== *)

Module Spec.

Import Py.
Local Open Scope list_scope.

(** [c] occurs in [s]. *)
Fixpoint occurs (c : ascii) (s : string) : bool :=
  match s with
  | EmptyString => false
  | String x s' => orb (Ascii.eqb x c) (occurs c s')
  end.

(** The part of [s] before the first [c] (all of [s] without one). *)
Fixpoint before_first (c : ascii) (s : string) : string :=
  match s with
  | EmptyString => EmptyString
  | String x s' =>
      if Ascii.eqb x c then EmptyString else String x (before_first c s')
  end.

(** The part of [s] after the last [c] (all of [s] without one). *)
Fixpoint after_last (c : ascii) (s : string) : string :=
  match s with
  | EmptyString => EmptyString
  | String x s' =>
      if occurs c s' then after_last c s'
      else if Ascii.eqb x c then s' else s
  end.

(** A walk in the graph from [s] to a node, with its total weight (up to
    equality of rationals). *)
Inductive walk (G : Nx.Graph) (s : string) : string -> Q -> Prop :=
| walk_here : forall w, (w == 0)%Q -> walk G s s w
| walk_edge : forall v u c w w',
    walk G s v w -> In (u, c) (Nx.neighbors G v) -> (w' == w + c)%Q ->
    walk G s u w'.

(** [d] is the weight of a shortest weighted path from [s] to [v]. *)
Definition shortest (G : Nx.Graph) (s v : string) (d : Q) : Prop :=
  walk G s v d /\ forall w, walk G s v w -> (d <= w)%Q.

(** All edge weights are non-negative. *)
Definition nonnegative (G : Nx.Graph) : Prop :=
  forall v u c, In (u, c) (Nx.neighbors G v) -> (0 <= c)%Q.

(** A dictionary of distances lists its nodes by increasing distance. *)
Definition by_distance (a b : string * Q) : Prop := (snd a <= snd b)%Q.

End Spec.

(* ================================================================== *)
(** * Notions used in the proofs *)
(* ================================================================== *)

Module Facts.

Import Py.
Local Open Scope list_scope.

(** ** Dictionaries of the graph and of the motif sets *)

(** Dictionaries of a graph keep distinct keys. *)
Definition well_keyed (G : Nx.Graph) : Prop :=
  NoDup (keys G) /\ forall a, NoDup (keys (Nx.neighbors G a)).

(** The values of the factor-to-motif dictionary are sets. *)
Definition set_valued (c : dict (list string)) : Prop :=
  NoDup (keys c) /\ forall k s, get c k = Some s -> NoDup s.

(** The pair [p] joins [a] and [b], in either direction. *)
Definition pair_matches (a b : string) (p : string * string) : bool :=
  orb (andb (String.eqb a (fst p)) (String.eqb b (snd p)))
      (andb (String.eqb a (snd p)) (String.eqb b (fst p))).

(** The weight the loop computes for a pair of factors. *)
Definition pair_weight (c : dict (list string)) (a b : string) : option Q :=
  match get c a, get c b with
  | Some s1, Some s2 => PeakPredictor.jaccard_weight s1 s2
  | _, _ => None
  end.

(** ** Tables *)

(** Rows of the enhancer-gene table in the order of their distance. *)
Definition by_dist (a b : Interaction.GeneRow) : Prop :=
  (Interaction.dist a <= Interaction.dist b)%Z.

(** The row [x] has key [k]. *)
Definition key_is {V : Type} (k : string) (x : string * V) : bool :=
  String.eqb (fst x) k.

(** A table with one row per group, keyed by [source_target]. *)
Definition keyed {V : Type} (val : Interaction.key -> V)
    (ks : list Interaction.key) : list (string * V) :=
  map (fun k => (Interaction.source_target_of k, val k))
      (Interaction.group_keys ks).

(** ** The search for shortest paths *)

(** The distance of an entry. *)
Definition entry_dist (e : Nx.entry) : Q := fst (fst e).

(** Adjacency entries of the nodes not fixed yet: what the queue can still
    receive. *)
Definition undone (L : Nx.Graph) (D : dict Q) : nat :=
  fold_right
    (fun kv n => if mem D (fst kv) then n else (List.length (snd kv) + n)%nat)
    0%nat L.

Section Search.

Import Nx Spec.
Local Open Scope Q_scope.

Variable G : Graph.
Variable s : string.
Variable cutoff : Q.

(** The state of the search between two turns of the inner loop over the
    neighbours of [cur], fixed at distance [dcur]; [pending] are the
    neighbours still to be looked at. *)
Record invariant (st : state) (pending : list (string * Q)) (cur : string)
    (dcur : Q) : Prop := mkInvariant {
  inv_dist : forall v d, In (v, d) (dist st) ->
      shortest G s v d /\ (d <= cutoff \/ v = s);
  inv_nodup : NoDup (keys (dist st));
  inv_sorted : StronglySorted by_distance (dist st);
  inv_below : forall v d, In (v, d) (dist st) -> d <= dcur;
  inv_fringe : forall e, In e (fringe st) ->
      walk G s (snd e) (entry_dist e)
      /\ (entry_dist e <= cutoff \/ (snd e = s /\ entry_dist e == 0))
      /\ dcur <= entry_dist e;
  inv_seen : forall u su, get (seen st) u = Some su ->
      mem (dist st) u = true
      \/ exists e, In e (fringe st) /\ snd e = u /\ entry_dist e <= su;
  inv_edges : forall v d u c,
      In (v, d) (dist st) -> In (u, c) (neighbors G v) -> d + c <= cutoff ->
      (v = cur /\ In (u, c) pending)
      \/ mem (dist st) u = true
      \/ exists e, In e (fringe st) /\ snd e = u /\ entry_dist e <= d + c;
  inv_source :
      mem (dist st) s = true
      \/ exists e, In e (fringe st) /\ snd e = s /\ entry_dist e == 0
}.

(** The bound on the turns of the loop still to come. *)
Definition potential (st : state) : nat :=
  (List.length (fringe st) + undone G (dist st))%nat.

(** What the search returns. *)
Definition final (res : dict Q) : Prop :=
  (forall v d, In (v, d) res -> shortest G s v d /\ (d <= cutoff \/ v = s))
  /\ NoDup (keys res)
  /\ StronglySorted by_distance res
  /\ (forall v w, walk G s v w -> w <= cutoff -> mem res v = true)
  /\ mem res s = true.

End Search.

Arguments inv_dist {G s cutoff st pending cur dcur}.
Arguments inv_nodup {G s cutoff st pending cur dcur}.
Arguments inv_sorted {G s cutoff st pending cur dcur}.
Arguments inv_below {G s cutoff st pending cur dcur}.
Arguments inv_fringe {G s cutoff st pending cur dcur}.
Arguments inv_seen {G s cutoff st pending cur dcur}.
Arguments inv_edges {G s cutoff st pending cur dcur}.
Arguments inv_source {G s cutoff st pending cur dcur}.

(** ** The model registry, the joined frame and the motif file *)

(** The file [file] is registered under the key [k]. *)
Definition names_factor (k file : string) : bool :=
  String.eqb (replace_pkl 0 file) k.

(** The frames that [_load_data] joins to the motif column, in order. *)
Definition joined_frames (self : PeakPredictor.t)
  : list PeakPredictor.DataFrame :=
  PeakPredictor.optional (PeakPredictor.atac_data self)
  ++ PeakPredictor.optional (PeakPredictor.histone_data self)
  ++ (if PeakPredictor.is_reference (PeakPredictor.region_type self)
      then [PeakPredictor._avg self; PeakPredictor._dist self] else []).

(** The region [r] has a value in every column of [tmp]. *)
Definition complete (tmp : PeakPredictor.DataFrame) (r : string) : bool :=
  forallb (fun col => PeakPredictor.is_some (PeakPredictor.cell (snd col) r))
          tmp.

(** The key under which a factor of the motif file is filed. *)
Definition factor_key (species : option PeakPredictor.Species)
    (factor : string) : string :=
  if PeakPredictor.is_human species then upper factor else factor.

(** The factor, as the motif file writes it, passes the two filters. *)
Definition admitted (species : option PeakPredictor.Species)
    (valid_factors : list string) (allowed : option (list string))
    (factor : string) : bool :=
  andb (match allowed with
        | Some fs => contains fs factor
        | None => true
        end)
       (orb (negb (PeakPredictor.is_human species))
            (contains valid_factors (factor_key species factor))).

(** The dictionary lists the motif [name] under the key [k]. *)
Definition linked (f2m : dict (list string)) (k name : string) : Prop :=
  exists names, get f2m k = Some names /\ In name names.

(** No key of the dictionary has an empty list. *)
Definition filled (f2m : dict (list string)) : Prop :=
  forall k names, get f2m k = Some names -> names <> [].

End Facts.

(* ================================================================== *)
(** * Sample inputs *)
(* ================================================================== *)

Module Examples.

Import Py.
Local Open Scope string_scope.
Local Open Scope list_scope.

(** A model directory with two model types: factor [B] has a model only
    for the type without histone data. *)
Definition model_store (model_type : string) : list string :=
  if String.eqb model_type "ATAC_motif" then
    ["general.pkl"; "A.pkl"; "B.pkl"]
  else if String.eqb model_type "ATAC_H3K27ac_motif" then
    ["general.pkl"; "A.pkl"]
  else [].

Definition series (a b : option Q) : PeakPredictor.Series :=
  [("chr1:100-300", a); ("chr1:500-700", b)].

(** A predictor on two custom regions right after [_load_regions], with no
    signal loaded yet. *)
Definition fresh : PeakPredictor.t :=
  PeakPredictor.mkPredictor model_store
    [("A", ["m1"]); ("B", ["m2"])] Nx.empty
    ["chr1:100-300"; "chr1:500-700"] PeakPredictor.custom
    [("A", series (Some 0.5) (Some 0.25)); ("B", series (Some 1) None)]%Q
    [] [] None None [] "".

Definition atac : PeakPredictor.DataFrame :=
  [("ATAC", series (Some 1) (Some 0.5))]%Q.


(** The end of [__init__] with ATAC data only. *)
Definition after_init : PeakPredictor.t * PeakPredictor.registry :=
  let r := PeakPredictor.load_atac fresh [] atac false in
  PeakPredictor._set_model_type (fst r) (snd r).


(** A classifier that gives every row the probability one half. *)
Definition coin (m : PeakPredictor.Model) (row : list PeakPredictor.value) : Q :=
  (1 # 2)%Q.

(** Factors [A] and [B] share one motif of three, [C] shares none. *)
Definition motif_sets : dict (list string) :=
  [("A", ["m1"; "m2"]); ("B", ["m2"; "m3"]); ("C", ["m4"])].

(** One factor bound at two distal enhancers of gene [tal1] and at one
    enhancer in its promoter; the gene window starts at 10000 and the
    windows reach 50000 bases either way. *)
Definition binding : list Interaction.Binding :=
  [Interaction.mkBinding "GATA1" "chr1:70000-70200" (1 / 2)%R;
   Interaction.mkBinding "GATA1" "chr1:80000-80200" (1 / 4)%R;
   Interaction.mkBinding "GATA1" "chr1:59900-60100" (3 / 4)%R].

Definition overlaps : list Interaction.Overlap :=
  [Interaction.mkOverlap "chr1" 10000 "tal1" "+" 70000 70200;
   Interaction.mkOverlap "chr1" 10000 "tal1" "+" 80000 80200;
   Interaction.mkOverlap "chr1" 10000 "tal1" "+" 59900 60100]%Z.

Definition promoters : list Interaction.Overlap :=
  [Interaction.mkOverlap "chr1" 58000 "tal1" "+" 59900 60100]%Z.



(** Factor [X] shares four of five motifs with factor [Y], which has a
    model; [X] has none. *)
Definition related_sets : dict (list string) :=
  [("X", ["m1"; "m2"; "m3"; "m4"]);
   ("Y", ["m1"; "m2"; "m3"; "m4"; "m5"]);
   ("W", ["m9"])].

Definition related_graph : Py.result Nx.Graph :=
  PeakPredictor._jaccard_motif_graph
    (PeakPredictor.complete_f2m related_sets None)
    (PeakPredictor.combinations (keys related_sets)).

Definition related (G : Nx.Graph) : PeakPredictor.t :=
  PeakPredictor.mkPredictor model_store related_sets G
    ["chr1:100-300"; "chr1:500-700"] PeakPredictor.custom
    [] [] [] (Some atac) None ["ATAC"; "motif"] "ATAC_motif".

Definition related_models : PeakPredictor.registry :=
  [("general", PeakPredictor.mkModel "ATAC_motif" "general.pkl");
   ("Y", PeakPredictor.mkModel "ATAC_motif" "Y.pkl")].

(** A motif file of three motifs, with the factors listed for each, and
    the table of human factors. *)
Definition motif_factors : dict (list string) :=
  [("GM.5.0.GATA.0001", ["Gata1"; "GATA2"]);
   ("GM.5.0.Sox.0001", ["Sox2"; "NO ORTHOLOGS FOUND"]);
   ("GM.5.0.Mixed.0001", ["gata1"; "Zzz1"])].

Definition human_factors : list string :=
  ["GATA1"; "GATA2"; "SOX2"; "NO ORTHOLOGS FOUND"].

(** One enhancer in the windows of two annotation rows of gene [tal1],
    whose starts are 2000 bases apart, and in the window of gene [lyl1]
    on the minus strand. *)
Definition two_starts : list Interaction.Overlap :=
  [Interaction.mkOverlap "chr1" 10000 "tal1" "+" 70000 70200;
   Interaction.mkOverlap "chr1" 12000 "tal1" "+" 70000 70200;
   Interaction.mkOverlap "chr1" 11000 "lyl1" "-" 70000 70200]%Z.

End Examples.

(* ================================================================== *)
(** * Properties *)
(* ================================================================== *)

Import Py Facts.

(** Linear arithmetic over the rationals ([lra] is the one of the reals). *)
Ltac qlra := Lqa.lra.

(** Case analysis on the tests of the conditionals of the goal, with the
    integer comparisons turned into their propositions. *)
Ltac zcases :=
  repeat match goal with
         | |- context [if ?c then _ else _] =>
             let E := fresh "E" in destruct c eqn:E
         end;
  repeat match goal with
         | E : andb _ _ = true |- _ =>
             apply andb_true_iff in E; destruct E
         | E : andb _ _ = false |- _ =>
             apply andb_false_iff in E; destruct E
         | E : Z.leb _ _ = true |- _ => apply Z.leb_le in E
         | E : Z.leb _ _ = false |- _ => apply Z.leb_gt in E
         | E : Z.ltb _ _ = true |- _ => apply Z.ltb_lt in E
         | E : Z.ltb _ _ = false |- _ => apply Z.ltb_ge in E
         | E : Z.eqb _ _ = true |- _ => apply Z.eqb_eq in E
         | E : Z.eqb _ _ = false |- _ => apply Z.eqb_neq in E
         end;
  cbn [map fst snd app]; try lia.

(** ** Dictionaries *)

Section DictFacts.

Context {V : Type}.
Implicit Types (d : dict V) (k : string) (v : V).

Lemma get_set_same d k v : get (set d k v) k = Some v.
Proof.
  induction d as [|[k' v'] d IH]; simpl.
  - now rewrite String.eqb_refl.
  - destruct (String.eqb k' k) eqn:E; simpl; rewrite E; auto.
Qed.

Lemma get_set_other d k k' v : k <> k' -> get (set d k v) k' = get d k'.
Proof.
  intros Hne. induction d as [|[k0 v0] d IH]; simpl.
  - destruct (String.eqb k k') eqn:E; auto.
    apply String.eqb_eq in E. contradiction.
  - destruct (String.eqb k0 k) eqn:E; simpl.
    + apply String.eqb_eq in E. subst k0.
      destruct (String.eqb k k') eqn:E'; auto.
      apply String.eqb_eq in E'. contradiction.
    + now rewrite IH.
Qed.

Lemma get_set d k k' v :
  get (set d k v) k' = if String.eqb k k' then Some v else get d k'.
Proof.
  destruct (String.eqb k k') eqn:E.
  - apply String.eqb_eq in E. subst. apply get_set_same.
  - apply String.eqb_neq in E. now apply get_set_other.
Qed.

Lemma get_some_in d k v : get d k = Some v -> In (k, v) d.
Proof.
  induction d as [|[k' v'] d IH]; simpl; [discriminate|].
  destruct (String.eqb k' k) eqn:E.
  - apply String.eqb_eq in E. intros [= <-]. subst. now left.
  - auto.
Qed.

Lemma get_none_not_in d k : get d k = None <-> ~ In k (keys d).
Proof.
  induction d as [|[k' v'] d IH]; simpl.
  - tauto.
  - destruct (String.eqb k' k) eqn:E.
    + apply String.eqb_eq in E. split; [discriminate|]. intros H. exfalso. auto.
    + apply String.eqb_neq in E. rewrite IH. tauto.
Qed.

Lemma mem_true_iff d k : mem d k = true <-> In k (keys d).
Proof.
  unfold mem. destruct (get d k) eqn:E.
  - split; auto. intros _. apply get_some_in in E.
    apply (in_map fst) in E. exact E.
  - apply get_none_not_in in E. split; [discriminate | contradiction].
Qed.

Lemma mem_false_iff d k : mem d k = false <-> get d k = None.
Proof. unfold mem. destruct (get d k); split; congruence. Qed.

Lemma in_get_nodup d k v : NoDup (keys d) -> In (k, v) d -> get d k = Some v.
Proof.
  induction d as [|[k' v'] d IH]; simpl; [tauto|].
  intros Hnd [H|H].
  - injection H as -> ->. now rewrite String.eqb_refl.
  - inversion Hnd as [|? ? Hni Hnd']; subst.
    destruct (String.eqb k' k) eqn:E; [|auto].
    apply String.eqb_eq in E. subst. exfalso. apply Hni.
    apply (in_map fst) in H. exact H.
Qed.

Lemma keys_set d k v :
  keys (set d k v) = if mem d k then keys d else keys d ++ [k].
Proof.
  unfold mem. induction d as [|[k' v'] d IH]; simpl; auto.
  destruct (String.eqb k' k) eqn:E; simpl.
  - reflexivity.
  - rewrite IH. now destruct (get d k).
Qed.

Lemma set_not_mem d k v : get d k = None -> set d k v = d ++ [(k, v)].
Proof.
  induction d as [|[k' v'] d IH]; simpl; auto.
  destruct (String.eqb k' k); [discriminate|].
  intros H. now rewrite IH.
Qed.

Lemma nodup_keys_set d k v : NoDup (keys d) -> NoDup (keys (set d k v)).
Proof.
  intros Hnd. rewrite keys_set. destruct (mem d k) eqn:E; auto.
  apply mem_false_iff, get_none_not_in in E.
  apply NoDup_app; auto.
  - constructor; [simpl; tauto | constructor].
  - intros x Hx [<-|[]]. contradiction.
Qed.

End DictFacts.

(** ** Input validation of [predict_proba] *)

(** C8: [predict_proba] raises [ValueError] when it is given neither a
    factor nor motifs, [NotImplementedError] whenever motifs are given, and
    [ValueError] when the factor is not a key of the factor-to-motif
    mapping; in none of these cases does it return a table. *)
Theorem predict_proba_validation :
  forall (proba : PeakPredictor.Model -> list PeakPredictor.value -> Q)
         (self : PeakPredictor.t) (fm : PeakPredictor.registry) (jc : Q),
    PeakPredictor.predict_proba proba self fm None None jc = Raise ValueError
    /\ (forall factor motifs,
          PeakPredictor.predict_proba proba self fm factor (Some motifs) jc
          = Raise NotImplementedError)
    /\ (forall f,
          mem (PeakPredictor.f2m self) f = false ->
          PeakPredictor.predict_proba proba self fm (Some f) None jc
          = Raise ValueError).
Proof.
  intros proba self fm jc. split; [reflexivity|]. split.
  - intros [f|] motifs; reflexivity.
  - intros f Hf. unfold PeakPredictor.predict_proba. now rewrite Hf.
Qed.

(** ** The enhancer-gene table of [get_gene_dataframe] *)

Section GeneDataframe.

Import Interaction.
Local Open Scope Z_scope.

Lemma same_pair_iff a b :
  same_pair a b = true <-> loc a = loc b /\ gene a = gene b.
Proof.
  unfold same_pair. rewrite andb_true_iff, !String.eqb_eq. tauto.
Qed.

Lemma insert_by_dist_perm r l : Permutation (r :: l) (insert_by_dist r l).
Proof.
  induction l as [|x l IH]; simpl; auto.
  destruct (dist r <=? dist x); auto.
  rewrite perm_swap. now constructor.
Qed.

Lemma sort_by_dist_perm l : Permutation l (sort_by_dist l).
Proof.
  induction l as [|x l IH]; simpl; auto.
  rewrite <- insert_by_dist_perm. now constructor.
Qed.

Lemma insert_by_dist_sorted r l :
  StronglySorted by_dist l -> StronglySorted by_dist (insert_by_dist r l).
Proof.
  induction 1 as [|x l Hs IH Hall]; simpl.
  - repeat constructor.
  - destruct (dist r <=? dist x) eqn:E.
    + apply Z.leb_le in E. constructor; [now constructor|].
      constructor; [exact E|].
      rewrite Forall_forall in *. intros y Hy. specialize (Hall y Hy).
      unfold by_dist in *. lia.
    + apply Z.leb_gt in E. constructor; [exact IH|].
      rewrite Forall_forall in *. intros y Hy.
      apply (Permutation_in _ (Permutation_sym (insert_by_dist_perm r l))) in Hy.
      destruct Hy as [<-|Hy]; [unfold by_dist; lia | auto].
Qed.

Lemma sort_by_dist_sorted l : StronglySorted by_dist (sort_by_dist l).
Proof.
  induction l as [|x l IH]; simpl; [constructor|].
  now apply insert_by_dist_sorted.
Qed.

Lemma drop_duplicates_from_in seen l r :
  In r (drop_duplicates_from seen l) ->
  In r l /\ forall s, In s seen -> same_pair r s = false.
Proof.
  revert seen. induction l as [|x l IH]; simpl; intros seen; [tauto|].
  destruct (existsb (same_pair x) seen) eqn:E.
  - intros H. apply IH in H. tauto.
  - intros [Hx|H].
    + subst x. split; [now left|]. intros s Hs.
      destruct (same_pair r s) eqn:E'; auto.
      assert (existsb (same_pair r) seen = true)
        by (apply existsb_exists; eauto).
      congruence.
    + apply IH in H. destruct H as [H1 H2]. split; [now right|].
      intros s Hs. apply H2. now right.
Qed.

Lemma drop_duplicates_from_nodup seen l :
  NoDup (map (fun r => (loc r, gene r)) (drop_duplicates_from seen l)).
Proof.
  revert seen. induction l as [|x l IH]; simpl; intros seen; [constructor|].
  destruct (existsb (same_pair x) seen); [apply IH|].
  simpl. constructor; [|apply IH].
  intros Hin. apply in_map_iff in Hin. destruct Hin as [r [Heq Hr]].
  apply drop_duplicates_from_in in Hr. destruct Hr as [_ Hr].
  specialize (Hr x (or_introl eq_refl)).
  assert (same_pair r x = true)
    by (apply same_pair_iff; injection Heq; auto).
  congruence.
Qed.

Lemma drop_duplicates_from_covers seen l r' :
  In r' l ->
  (exists s, In s seen /\ same_pair r' s = true)
  \/ (exists r, In r (drop_duplicates_from seen l) /\ same_pair r r' = true).
Proof.
  revert seen. induction l as [|x l IH]; simpl; intros seen; [tauto|].
  intros [->|H].
  - destruct (existsb (same_pair r') seen) eqn:E.
    + left. apply existsb_exists in E. exact E.
    + right. exists r'. split; [now left|]. apply same_pair_iff. auto.
  - destruct (existsb (same_pair x) seen) eqn:E.
    + apply IH; auto.
    + destruct (IH (x :: seen) H) as [[s [[<-|Hs] Hp]]|[r [Hr Hp]]].
      * right. exists x. split; [now left|].
        apply same_pair_iff in Hp. apply same_pair_iff. intuition congruence.
      * left. eauto.
      * right. exists r. split; [now right | exact Hp].
Qed.

Lemma drop_duplicates_from_least seen l r r' :
  StronglySorted by_dist l ->
  In r (drop_duplicates_from seen l) -> In r' l -> same_pair r r' = true ->
  dist r <= dist r'.
Proof.
  intros Hs. revert seen. induction Hs as [|x l Hs IH Hall]; simpl;
    intros seen; [tauto|].
  rewrite Forall_forall in Hall.
  destruct (existsb (same_pair x) seen) eqn:E.
  - intros Hr [<-|Hr'] Hp; [|eapply IH; eauto].
    exfalso. apply existsb_exists in E. destruct E as [s [Hs' Hxs]].
    apply drop_duplicates_from_in in Hr. destruct Hr as [_ Hr].
    specialize (Hr s Hs').
    assert (same_pair r s = true).
    { apply same_pair_iff in Hp, Hxs. apply same_pair_iff.
      intuition congruence. }
    congruence.
  - intros [<-|Hr] [<-|Hr'] Hp.
    + lia.
    + apply (Hall _ Hr').
    + exfalso. apply drop_duplicates_from_in in Hr. destruct Hr as [_ Hr].
      specialize (Hr x (or_introl eq_refl)). congruence.
    + eapply IH; eauto.
Qed.

End GeneDataframe.

Lemma gene_rows_from_overlaps overlaps up down r :
  In r (Interaction.get_gene_dataframe overlaps up down) ->
  exists f, In f overlaps /\ r = Interaction.gene_row up down f.
Proof.
  intros Hr. unfold Interaction.get_gene_dataframe,
    Interaction.drop_duplicates in Hr.
  apply drop_duplicates_from_in in Hr. destruct Hr as [Hr _].
  apply (Permutation_in _ (Permutation_sym (sort_by_dist_perm _))) in Hr.
  apply in_map_iff in Hr. destruct Hr as [f [<- Hf]]. eauto.
Qed.

(** The table of [get_gene_dataframe] against the rows computed for the
    overlaps. *)
Lemma gene_dataframe_rows (overlaps : list Interaction.Overlap) (up down : Z) :
  let raw := map (Interaction.gene_row up down) overlaps in
  let p := Interaction.get_gene_dataframe overlaps up down in
  NoDup (map (fun r => (Interaction.loc r, Interaction.gene r)) p)
  /\ (forall r, In r p -> In r raw)
  /\ (forall r', In r' raw ->
        exists r, In r p /\ Interaction.loc r = Interaction.loc r'
                  /\ Interaction.gene r = Interaction.gene r')
  /\ (forall r r', In r p -> In r' raw ->
        Interaction.loc r = Interaction.loc r' ->
        Interaction.gene r = Interaction.gene r' ->
        (Interaction.dist r <= Interaction.dist r')%Z).
Proof.
  intros raw p. unfold p, Interaction.get_gene_dataframe,
    Interaction.drop_duplicates. fold raw.
  pose proof (sort_by_dist_perm raw) as Hperm.
  split; [apply drop_duplicates_from_nodup|]. split; [|split].
  - intros r Hr. apply drop_duplicates_from_in in Hr.
    apply (Permutation_in _ (Permutation_sym Hperm)). tauto.
  - intros r' Hr'. apply (Permutation_in _ Hperm) in Hr'.
    destruct (drop_duplicates_from_covers [] _ _ Hr')
      as [[s [[] _]]|[r [Hr Hp]]].
    exists r. apply same_pair_iff in Hp. tauto.
  - intros r r' Hr Hr' Hl Hg.
    eapply drop_duplicates_from_least; eauto.
    + apply sort_by_dist_sorted.
    + apply (Permutation_in _ Hperm). exact Hr'.
    + apply same_pair_iff. auto.
Qed.

(** C10: in the table that [get_gene_dataframe] returns every pair of an
    enhancer location and a gene stands at most once.  Each of its rows
    is one of the overlaps: its gene is the name of the annotation row,
    its location is [chrom:start-end] of the peak, and its distance is
    the distance between the transcription start site (the start of the
    gene window plus [up] on the plus strand, plus [down] otherwise) and
    the midpoint of the peak, rounded toward zero.  Every overlap is
    represented by the row of its location and gene, and that row has the
    least of the distances of all the overlaps of the pair. *)
Theorem gene_dataframe_keeps_nearest :
  forall (overlaps : list Interaction.Overlap) (up down : Z),
    let tss f :=
      (if String.eqb (Interaction.strand f) "+"
       then Interaction.start f + up else Interaction.start f + down)%Z in
    let midpoint f :=
      Z.quot (Interaction.peak_start f + Interaction.peak_end f) 2 in
    let distance f := Z.abs (tss f - midpoint f) in
    let place f :=
      (Interaction.chrom f ++ ":" ++ str (Interaction.peak_start f)
       ++ "-" ++ str (Interaction.peak_end f))%string in
    let p := Interaction.get_gene_dataframe overlaps up down in
    NoDup (map (fun r => (Interaction.loc r, Interaction.gene r)) p)
    /\ (forall r, In r p ->
          exists f, In f overlaps
            /\ Interaction.gene r = Interaction.name f
            /\ Interaction.loc r = place f
            /\ Interaction.dist r = distance f)
    /\ (forall f, In f overlaps ->
          exists r, In r p
            /\ Interaction.gene r = Interaction.name f
            /\ Interaction.loc r = place f
            /\ (Interaction.dist r <= distance f)%Z
            /\ forall f', In f' overlaps ->
                 Interaction.name f' = Interaction.name f ->
                 place f' = place f ->
                 (Interaction.dist r <= distance f')%Z).
Proof.
  intros overlaps up down tss midpoint distance place p.
  destruct (gene_dataframe_rows overlaps up down)
    as [Hnd [Hsub [Hcov Hleast]]]. fold p in Hnd, Hsub, Hcov, Hleast.
  split; [exact Hnd|]. split.
  - intros r Hr. apply Hsub, in_map_iff in Hr. destruct Hr as [f [<- Hf]].
    exists f. repeat split; auto.
  - intros f Hf.
    assert (Hraw : In (Interaction.gene_row up down f)
                     (map (Interaction.gene_row up down) overlaps))
      by now apply in_map.
    destruct (Hcov _ Hraw) as [r [Hr [Hl Hg]]].
    exists r. split; [exact Hr|]. split; [exact Hg|]. split; [exact Hl|].
    split.
    + exact (Hleast r _ Hr Hraw Hl Hg).
    + intros f' Hf' Hname Hplace.
      apply (Hleast r (Interaction.gene_row up down f') Hr).
      * now apply in_map.
      * rewrite Hl. symmetry. exact Hplace.
      * rewrite Hg. symmetry. exact Hname.
Qed.

(** ** The hard distance bound of the long-range aggregation *)

Lemma in_merge_pairs ddf p x :
  In x (Interaction.merge_pairs ddf p) ->
  exists b r, In b ddf /\ In r p
              /\ Interaction.b_enhancer b = Interaction.loc r
              /\ x = Interaction.mkPair (Interaction.b_factor b)
                       (Interaction.gene r) (Interaction.b_binding b)
                       (Interaction.dist r).
Proof.
  unfold Interaction.merge_pairs. rewrite in_flat_map.
  intros [b [Hb Hx]]. apply in_map_iff in Hx. destruct Hx as [r [<- Hr]].
  apply filter_In in Hr. destruct Hr as [Hr He].
  apply String.eqb_eq in He. exists b, r. auto.
Qed.

(** C7: whatever the window sizes, a row of the long-range pair table has
    a distance (between the transcription start site and the midpoint of
    the enhancer) below 99999, a pair of the enhancer-gene table is kept
    exactly when its distance is below 99999, and every row that enters
    the long-range sums, maxima and counts has a distance below 99999. *)
Theorem long_range_distance_below_99999 :
  forall (ddf : list Interaction.Binding)
         (overlaps : list Interaction.Overlap) (window_up window_down : Z),
    let p := Interaction.get_gene_dataframe overlaps window_up window_down in
    let kept := Interaction.long_range_pairs overlaps window_up window_down in
    (forall x, In x kept ->
       (Interaction.dist x < 99999)%Z
       /\ exists f, In f overlaps
           /\ Interaction.dist x
              = Z.abs (Interaction.tss_of window_up window_down f
                       - Interaction.midpoint (Interaction.peak_start f)
                                              (Interaction.peak_end f)))
    /\ (forall r, In r p ->
          ((Interaction.dist r < 99999)%Z <->
           In (Interaction.mkGeneRow (upper (Interaction.gene r))
                 (Interaction.loc r) (Interaction.dist r)) kept))
    /\ (forall x,
          In x (Interaction.contributing ddf overlaps window_up window_down) ->
          (Interaction.p_dist x < 99999)%Z).
Proof.
  intros ddf overlaps wu wd p kept.
  assert (Hkept : forall x, In x kept ->
            exists r, In r p /\ (Interaction.dist r < 99999)%Z
              /\ x = Interaction.mkGeneRow (upper (Interaction.gene r))
                        (Interaction.loc r) (Interaction.dist r)).
  { intros x Hx. unfold kept, Interaction.long_range_pairs in Hx.
    apply in_map_iff in Hx. destruct Hx as [r [<- Hr]].
    apply filter_In in Hr. destruct Hr as [Hr Hd].
    apply Z.ltb_lt in Hd. exists r. auto. }
  split; [|split].
  - intros x Hx. destruct (Hkept x Hx) as [r [Hr [Hd ->]]]. simpl.
    split; [exact Hd|].
    destruct (gene_rows_from_overlaps overlaps wu wd r Hr)
      as [f [Hf ->]].
    exists f. auto.
  - intros r Hr. split.
    + intros Hd. unfold kept, Interaction.long_range_pairs.
      apply in_map_iff. exists r. split; [reflexivity|].
      apply filter_In. split; [exact Hr|]. now apply Z.ltb_lt.
    + intros Hx. destruct (Hkept _ Hx) as [r0 [_ [Hd Heq]]].
      injection Heq as _ _ Hdd. lia.
  - intros x Hx. unfold Interaction.contributing in Hx.
    apply in_merge_pairs in Hx. destruct Hx as [b [r [_ [Hr [_ ->]]]]].
    simpl. apply Hkept in Hr. destruct Hr as [r0 [_ [Hd ->]]]. exact Hd.
Qed.

(** ** Cutting [factor] and [gene] out of [source_target] *)

Section SourceTarget.

Import Spec.
Local Open Scope string_scope.

Lemma occurs_append c a b : occurs c (a ++ b) = orb (occurs c a) (occurs c b).
Proof.
  induction a as [|x a IH]; simpl; auto. rewrite IH. now rewrite orb_assoc.
Qed.

Lemma append_nil_r a : a ++ "" = a.
Proof. induction a; simpl; congruence. Qed.

Lemma append_assoc a b c : (a ++ b) ++ c = a ++ (b ++ c).
Proof. induction a; simpl; congruence. Qed.

Lemma underscore_not_newline : Ascii.eqb underscore newline = false.
Proof. reflexivity. Qed.

(** Inside a match everything up to the end of the line is dropped. *)
Lemma sub_underscore_rest_inside s :
  occurs newline s = false -> sub_underscore_rest true s = "".
Proof.
  induction s as [|x s IH]; simpl; auto.
  intros H. apply orb_false_iff in H. destruct H as [Hx Hs].
  rewrite Hx. auto.
Qed.

Lemma sub_underscore_rest_before_first s :
  occurs newline s = false ->
  sub_underscore_rest false s = before_first underscore s.
Proof.
  induction s as [|x s IH]; simpl; auto.
  intros H. apply orb_false_iff in H. destruct H as [Hx Hs].
  destruct (Ascii.eqb x underscore).
  - now apply sub_underscore_rest_inside.
  - now rewrite IH.
Qed.

Lemma sub_rest_underscore_after_last acc s :
  occurs newline s = false ->
  sub_rest_underscore acc s
  = if occurs underscore s then after_last underscore s else acc ++ s.
Proof.
  revert acc. induction s as [|x s IH]; simpl; intros acc H.
  - now rewrite append_nil_r.
  - apply orb_false_iff in H. destruct H as [Hx Hs].
    destruct (Ascii.eqb x underscore) eqn:E; simpl.
    + rewrite (IH "" Hs). now destruct (occurs underscore s).
    + rewrite Hx, (IH _ Hs). destruct (occurs underscore s); auto.
      now rewrite append_assoc.
Qed.

Lemma sub_rest_underscore_spec s :
  occurs newline s = false ->
  sub_rest_underscore "" s = after_last underscore s.
Proof.
  intros H. rewrite (sub_rest_underscore_after_last "" s H).
  destruct (occurs underscore s) eqn:E; auto. simpl.
  clear H. induction s as [|x s IH]; simpl in *; auto.
  apply orb_false_iff in E. destruct E as [Ex Es].
  now rewrite Es, Ex.
Qed.

(** Neither substitution leaves an underscore behind. *)
Lemma sub_underscore_rest_clean b s :
  occurs underscore (sub_underscore_rest b s) = false.
Proof.
  revert b. induction s as [|x s IH]; simpl; intros b; auto.
  destruct b.
  - destruct (Ascii.eqb x newline) eqn:E; auto. simpl. rewrite IH.
    apply Ascii.eqb_eq in E. subst x. reflexivity.
  - destruct (Ascii.eqb x underscore) eqn:E; auto. simpl. now rewrite E, IH.
Qed.

Lemma sub_rest_underscore_clean acc s :
  occurs underscore acc = false ->
  occurs underscore (sub_rest_underscore acc s) = false.
Proof.
  revert acc. induction s as [|x s IH]; simpl; intros acc H; auto.
  destruct (Ascii.eqb x underscore) eqn:E; [now apply IH|].
  destruct (Ascii.eqb x newline) eqn:E'.
  - rewrite occurs_append. simpl. rewrite H, E. simpl. now apply IH.
  - apply IH. rewrite occurs_append. simpl. now rewrite H, E.
Qed.

Lemma before_first_append f g :
  occurs underscore f = false ->
  before_first underscore (f ++ String underscore g) = f.
Proof.
  induction f as [|x f IH]; simpl; intros H.
  - reflexivity.
  - apply orb_false_iff in H. destruct H as [Hx Hf]. rewrite Hx.
    now rewrite IH.
Qed.

Lemma after_last_append f g :
  occurs underscore g = false ->
  after_last underscore (f ++ String underscore g) = g.
Proof.
  intros Hg. induction f as [|x f IH]; simpl.
  - now rewrite Hg.
  - rewrite occurs_append. simpl. rewrite orb_true_r. exact IH.
Qed.

Lemma source_target_of_eq f g :
  Interaction.source_target_of (f, g) = f ++ String underscore g.
Proof. reflexivity. Qed.

End SourceTarget.

(** ** Calls of [aggregate_binding] that return *)

(** A call that returns a table has got past the weights, with an [alpha]
    that is not zero, and past the key of line 292, with a pair table
    that is not empty; the table is the one of lines 240-309. *)
Lemma aggregate_binding_inv ddf po go wu wd alpha padding keep1 remove table :
  Interaction.aggregate_binding ddf po go wu wd alpha padding keep1 remove
  = Interaction.Returns table ->
  table = Interaction.feature_table ddf po go wu wd alpha padding keep1 remove
  /\ alpha <> 0%R
  /\ Interaction.long_range_pairs go wu wd <> [].
Proof.
  unfold Interaction.aggregate_binding, Interaction.weights_fail.
  destruct (Req_dec_T alpha 0) as [E|E]; [discriminate|].
  destruct (existsb _ _); [discriminate|].
  destruct (Interaction.long_range_pairs go wu wd); [discriminate|].
  intros [= <-]. split; [reflexivity|]. split; [exact E | discriminate].
Qed.

(** C9: in every row of the feature table [factor] is the part of
    [source_target] before its first underscore and [gene] the part after
    its last underscore (keys hold no line feed); hence for a row keyed by
    [factor + "_" + gene] with names free of underscores both names come
    back unchanged, and a name that holds an underscore does not. *)
Theorem factor_and_gene_cut_from_source_target :
  forall (ddf : list Interaction.Binding)
         (prom_overlaps gene_overlaps : list Interaction.Overlap)
         (window_up window_down : Z) (alpha : R) (padding keep1 remove : Z)
         (table : list Interaction.Feature) (row : Interaction.Feature),
    Interaction.aggregate_binding ddf prom_overlaps gene_overlaps
      window_up window_down alpha padding keep1 remove
    = Interaction.Returns table ->
    In row table ->
    (Spec.occurs newline (Interaction.source_target row) = false ->
       Interaction.factor row
       = Spec.before_first underscore (Interaction.source_target row)
       /\ Interaction.target row
          = Spec.after_last underscore (Interaction.source_target row))
    /\ (forall f g,
          Interaction.source_target row = Interaction.source_target_of (f, g) ->
          Spec.occurs newline f = false -> Spec.occurs newline g = false ->
          Spec.occurs underscore f = false ->
          Spec.occurs underscore g = false ->
          Interaction.factor row = f /\ Interaction.target row = g)
    /\ (forall f g,
          Interaction.source_target row = Interaction.source_target_of (f, g) ->
          (Spec.occurs underscore f = true -> Interaction.factor row <> f)
          /\ (Spec.occurs underscore g = true -> Interaction.target row <> g)).
Proof.
  intros ddf po go wu wd alpha padding keep1 remove table row Htable Hrow.
  apply aggregate_binding_inv in Htable. destruct Htable as [-> _].
  unfold Interaction.feature_table in Hrow.
  apply in_map_iff in Hrow. destruct Hrow as [j [<- _]]. simpl.
  assert (Hcut : Spec.occurs newline (fst j) = false ->
            sub_underscore_rest false (fst j)
            = Spec.before_first underscore (fst j)
            /\ sub_rest_underscore EmptyString (fst j)
               = Spec.after_last underscore (fst j)).
  { intros H. split.
    - now apply sub_underscore_rest_before_first.
    - now apply sub_rest_underscore_spec. }
  split; [exact Hcut|]. split.
  - intros f g Hst Hnf Hng Hf Hg.
    assert (Hn : Spec.occurs newline (fst j) = false).
    { rewrite Hst, source_target_of_eq, occurs_append. simpl.
      now rewrite Hnf, Hng. }
    destruct (Hcut Hn) as [-> ->]. rewrite Hst, source_target_of_eq.
    split; [now apply before_first_append | now apply after_last_append].
  - intros f g Hst. split; intros Hu Heq.
    + pose proof (sub_underscore_rest_clean false (fst j)) as Hc.
      rewrite Heq in Hc. congruence.
    + pose proof (sub_rest_underscore_clean EmptyString (fst j) eq_refl) as Hc.
      rewrite Heq in Hc. congruence.
Qed.

(** ** The distance weight table *)

Section WeightTable.

Import Interaction.
Local Open Scope Z_scope.

Lemma combine_map_range_from (g : Z -> R) n a b :
  combine (map g (range_from a n)) (range_from b n)
  = map (fun z => (g z, z + (b - a))) (range_from a n).
Proof.
  revert a b. induction n as [|n IH]; simpl; intros a b; auto.
  rewrite IH. f_equal.
  - f_equal. lia.
  - apply map_ext. intros z. f_equal. lia.
Qed.

Lemma weights_at_app t1 t2 d :
  weights_at (t1 ++ t2) d = weights_at t1 d ++ weights_at t2 d.
Proof. unfold weights_at. now rewrite filter_app, map_app. Qed.

Lemma weights_at_shifted (g : Z -> R) off n a d :
  weights_at (map (fun z => (g z, z + off)) (range_from a n)) d
  = if andb (a + off <=? d) (d <? a + off + Z.of_nat n)
    then [g (d - off)] else [].
Proof.
  revert a. induction n as [|n IH]; intros a.
  - simpl. zcases; reflexivity.
  - cbn [range_from map]. unfold weights_at in *. cbn [filter snd].
    destruct (Z.eqb_spec (a + off) d) as [E|E].
    + cbn [map fst]. rewrite IH. zcases. do 2 f_equal. lia.
    + rewrite IH. zcases; reflexivity.
Qed.

Lemma weight_frame_const (c : R) a b :
  weight_frame (map (fun _ => c) (range a b)) (range a b)
  = map (fun z => (c, z + 0)) (range a b).
Proof.
  unfold weight_frame, range.
  rewrite (combine_map_range_from (fun _ => c)).
  apply map_ext. intros z. f_equal. lia.
Qed.

Lemma weight_frame_decay u padding keep1 :
  weight_frame (map (decay u) (range 1 (padding - keep1 + 1)))
               (range (keep1 + 1) (padding + 1))
  = map (fun z => (decay u z, z + keep1)) (range 1 (padding - keep1 + 1)).
Proof.
  unfold weight_frame, range.
  replace (Z.to_nat (padding + 1 - (keep1 + 1)))
    with (Z.to_nat (padding - keep1 + 1 - 1)) by (f_equal; lia).
  rewrite combine_map_range_from.
  apply map_ext. intros z. f_equal. lia.
Qed.

(** The weight joined to a distance, piece by piece. *)
Lemma weights_at_weight_table alpha padding keep1 remove d :
  0 <= remove <= keep1 -> keep1 <= padding -> 1 <= d <= padding ->
  weights_at (weight_table alpha padding keep1 remove) d
  = [if d <=? remove then 0%R
     else if d <=? keep1 then 1%R
     else decay (decay_rate alpha) (d - keep1)].
Proof.
  intros Hr Hk Hd. unfold weight_table.
  rewrite !weight_frame_const, weight_frame_decay, !weights_at_app.
  unfold range. rewrite !weights_at_shifted.
  rewrite !Z2Nat.id by lia.
  zcases; reflexivity.
Qed.

Local Open Scope R_scope.

Lemma decay_rate_pos alpha : 0 < alpha -> 0 < decay_rate alpha.
Proof.
  intros Ha. unfold decay_rate.
  assert (Hln : ln (1 / 3) < 0).
  { rewrite <- ln_1. apply ln_increasing; lra. }
  apply Rdiv_lt_0_compat; [|exact Ha]. nra.
Qed.

(** The curve falls strictly with the distance when [u] is positive. *)
Lemma decay_decreasing u (z1 z2 : Z) :
  0 < u -> (0 <= z1 < z2)%Z -> decay u z2 < decay u z1.
Proof.
  intros Hu Hz. unfold decay.
  rewrite !Rabs_pos_eq by (apply IZR_le; lia).
  assert (Hlt : IZR z1 < IZR z2) by (apply IZR_lt; lia).
  set (x1 := exp (- u * IZR z1 / 100000)).
  set (x2 := exp (- u * IZR z2 / 100000)).
  assert (H1 : 0 < x1) by apply exp_pos.
  assert (H2 : 0 < x2) by apply exp_pos.
  assert (H21 : x2 < x1).
  { apply exp_increasing. apply Rmult_lt_compat_r; [lra|]. nra. }
  apply Rmult_lt_reg_r with ((1 + x1) * (1 + x2)); [nra|].
  replace (2 * x2 / (1 + x2) * ((1 + x1) * (1 + x2)))
    with (2 * x2 * (1 + x1)) by (field; lra).
  replace (2 * x1 / (1 + x1) * ((1 + x1) * (1 + x2)))
    with (2 * x1 * (1 + x2)) by (field; lra).
  nra.
Qed.

End WeightTable.

Section Returning.

Import Interaction.
Local Open Scope R_scope.

Lemma max_float_above_one : 1 < max_float.
Proof.
  unfold max_float.
  assert (H52 : 1 <= 2 ^ 52) by (apply pow_R1_Rle; lra).
  assert (H1023 : 1 <= 2 ^ 1023) by (apply pow_R1_Rle; lra).
  assert (Hinv : / 2 ^ 52 <= 1).
  { rewrite <- Rinv_1. apply Rinv_le_contravar; lra. }
  assert (Hpos : 0 < / 2 ^ 52) by (apply Rinv_0_lt_compat; lra).
  assert (Hhalf : / 2 ^ 52 <= / 2).
  { apply Rinv_le_contravar; [lra|].
    change (2 ^ 52) with (2 * 2 ^ 51).
    assert (1 <= 2 ^ 51) by (apply pow_R1_Rle; lra). lra. }
  nra.
Qed.

(** A rate that is not negative keeps [math.exp] at or below 1. *)
Lemma no_overflow u z : 0 <= u -> exp_overflows (decay_arg u z) = false.
Proof.
  intros Hu. unfold exp_overflows.
  destruct (Rlt_dec max_float (exp (decay_arg u z))) as [H|H]; [|reflexivity].
  exfalso. pose proof max_float_above_one as Hm.
  assert (Hle : exp (decay_arg u z) <= 1).
  { rewrite <- exp_0. unfold decay_arg.
    pose proof (Rabs_pos (IZR z)) as Hz.
    assert (Hneg : - u * Rabs (IZR z) / 100000 <= 0) by nra.
    destruct Hneg as [Hneg|Hneg].
    - left. now apply exp_increasing.
    - rewrite Hneg. lra. }
  lra.
Qed.

Lemma weights_fail_positive alpha zs : 0 < alpha -> weights_fail alpha zs = None.
Proof.
  intros Ha. unfold weights_fail.
  destruct (Req_dec_T alpha 0) as [E|E]; [lra|].
  pose proof (decay_rate_pos alpha Ha) as Hu.
  assert (H : existsb (fun z => exp_overflows (decay_arg (decay_rate alpha) z))
                zs = false).
  { induction zs as [|z zs IH]; [reflexivity|]. cbn [existsb].
    rewrite no_overflow by lra. exact IH. }
  now rewrite H.
Qed.

(** For a positive [alpha] the call returns the table exactly when a pair
    is left after the filter. *)
Lemma aggregate_binding_returns ddf po go wu wd alpha padding keep1 remove :
  0 < alpha -> long_range_pairs go wu wd <> [] ->
  aggregate_binding ddf po go wu wd alpha padding keep1 remove
  = Returns (feature_table ddf po go wu wd alpha padding keep1 remove).
Proof.
  intros Ha Hne. unfold aggregate_binding.
  rewrite weights_fail_positive by exact Ha.
  destruct (long_range_pairs go wu wd); [contradiction | reflexivity].
Qed.

End Returning.

(** C2, as the code has it: for [0 <= remove <= keep1 <= padding] and a
    positive [alpha], a distance [d] in [1, padding] is joined to exactly
    one weight, which is 0 on [1, remove], 1 on (remove, keep1], and on
    (keep1, padding] the curve [2e^(-uz/1e5) / (1 + e^(-uz/1e5))] taken at
    [z = d - keep1], the distance beyond [keep1], with
    [u = -ln(1/3) 1e5 / alpha]; on (keep1, padding] the weight falls
    strictly as the distance grows. *)
Theorem distance_weight_pieces :
  forall (alpha : R) (padding keep1 remove d : Z),
    (0 < alpha)%R -> (0 <= remove <= keep1)%Z -> (keep1 <= padding)%Z ->
    (1 <= d <= padding)%Z ->
    let tb := Interaction.weight_table alpha padding keep1 remove in
    let u := Interaction.decay_rate alpha in
    ((d <= remove)%Z -> Interaction.weights_at tb d = [0%R])
    /\ ((remove < d <= keep1)%Z -> Interaction.weights_at tb d = [1%R])
    /\ ((keep1 < d)%Z ->
        Interaction.weights_at tb d = [Interaction.decay u (d - keep1)]
        /\ forall d', (d < d' <= padding)%Z ->
             exists w', Interaction.weights_at tb d' = [w']
                        /\ (w' < Interaction.decay u (d - keep1))%R).
Proof.
  intros alpha padding keep1 remove d Ha Hr Hk Hd tb u.
  pose proof (weights_at_weight_table alpha padding keep1 remove d Hr Hk Hd)
    as Hw. fold tb in Hw.
  split; [|split].
  - intros H. rewrite Hw. zcases; reflexivity.
  - intros H. rewrite Hw. zcases; reflexivity.
  - intros H. split.
    + rewrite Hw. zcases; reflexivity.
    + intros d' Hd'. exists (Interaction.decay u (d' - keep1)). split.
      * unfold tb. rewrite weights_at_weight_table by lia.
        zcases; reflexivity.
      * apply decay_decreasing; [now apply decay_rate_pos | lia].
Qed.

(** C2 read literally fails: with the default parameters the weight joined
    to distance 5001 is the curve at 1, not at 5001. *)
Lemma distance_weight_is_shifted :
  Interaction.weights_at (Interaction.weight_table 10000 100000 5000 2000) 5001
  = [Interaction.decay (Interaction.decay_rate 10000) 1]
  /\ Interaction.decay (Interaction.decay_rate 10000) 1
     <> Interaction.decay (Interaction.decay_rate 10000) 5001.
Proof.
  split.
  - rewrite weights_at_weight_table by lia. reflexivity.
  - apply Rgt_not_eq. unfold Rgt. apply decay_decreasing; [|lia].
    apply decay_rate_pos. lra.
Qed.

Lemma distance_weight_pieces_witness :
  let tb := Interaction.weight_table 10000 100000 5000 2000 in
  let u := Interaction.decay_rate 10000 in
  ((80000 <= 2000)%Z -> Interaction.weights_at tb 80000 = [0%R])
  /\ ((2000 < 80000 <= 5000)%Z -> Interaction.weights_at tb 80000 = [1%R])
  /\ ((5000 < 80000)%Z ->
      Interaction.weights_at tb 80000 = [Interaction.decay u (80000 - 5000)]
      /\ forall d', (80000 < d' <= 100000)%Z ->
           exists w', Interaction.weights_at tb d' = [w']
                      /\ (w' < Interaction.decay u (80000 - 5000))%R).
Proof.
  apply (distance_weight_pieces 10000 100000 5000 2000 80000); [lra|lia..].
Defined.

(** ** The model type and the model registry *)

Section ModelRegistry.

Import PeakPredictor.

Lemma load_models_snoc dir files file fm :
  load_models dir (files ++ [file]) fm
  = set (load_models dir files fm) (replace_pkl 0 file) (mkModel dir file).
Proof. unfold load_models. now rewrite fold_left_app. Qed.




End ModelRegistry.




(** ** Graphs *)

Section GraphFacts.

Import Nx.

Lemma neighbors_set G k nb a :
  neighbors (set G k nb) a = if String.eqb k a then nb else neighbors G a.
Proof. unfold neighbors. rewrite get_set. now destruct (String.eqb k a). Qed.

Lemma neighbors_ensure G u a :
  neighbors (if mem G u then G else set G u []) a = neighbors G a.
Proof.
  destruct (mem G u) eqn:E; auto. rewrite neighbors_set.
  destruct (String.eqb_spec u a) as [<-|]; auto.
  unfold neighbors. apply mem_false_iff in E. now rewrite E.
Qed.

(** Both directions of the new edge carry its weight, other pairs keep
    theirs. *)
Lemma edge_weight_add_edge G u v w a b :
  edge_weight (add_edge G u v w) a b
  = if orb (andb (String.eqb a u) (String.eqb b v))
           (andb (String.eqb a v) (String.eqb b u))
    then Some w else edge_weight G a b.
Proof.
  unfold edge_weight, add_edge.
  rewrite !neighbors_set, !neighbors_ensure.
  destruct (String.eqb_spec a u) as [Hau|Hau],
           (String.eqb_spec a v) as [Hav|Hav],
           (String.eqb_spec b u) as [Hbu|Hbu],
           (String.eqb_spec b v) as [Hbv|Hbv];
    subst; cbn [andb orb];
    repeat match goal with
           | |- context [String.eqb ?x ?x] => rewrite (String.eqb_refl x)
           | H : ?x <> ?y |- context [String.eqb ?x ?y] =>
               rewrite (proj2 (String.eqb_neq x y) H)
           | H : ?x <> ?y |- context [String.eqb ?y ?x] =>
               rewrite (proj2 (String.eqb_neq y x) (not_eq_sym H))
           | |- context [get (set _ ?k _) ?k] => rewrite get_set_same
           | |- context [get (set _ ?k _) ?k'] =>
               rewrite get_set_other by congruence
           end;
    try reflexivity; try congruence.
Qed.

Lemma well_keyed_empty : well_keyed empty.
Proof. split; [constructor | intros a; constructor]. Qed.

Lemma well_keyed_set G k nb :
  well_keyed G -> NoDup (keys nb) -> well_keyed (set G k nb).
Proof.
  intros [H1 H2] Hnb. split; [now apply nodup_keys_set|].
  intros a. rewrite neighbors_set. destruct (String.eqb k a); auto.
Qed.

Lemma well_keyed_add_edge G u v w :
  well_keyed G -> well_keyed (add_edge G u v w).
Proof.
  intros H. unfold add_edge.
  assert (H1 : well_keyed (if mem G u then G else set G u [])).
  { destruct (mem G u); auto. apply well_keyed_set; auto. constructor. }
  set (G1 := if mem G u then G else set G u []) in *.
  assert (H2 : well_keyed (if mem G1 v then G1 else set G1 v [])).
  { destruct (mem G1 v); auto. apply well_keyed_set; auto. constructor. }
  set (G2 := if mem G1 v then G1 else set G1 v []) in *.
  assert (H3 : well_keyed (set G2 u (set (neighbors G2 u) v w))).
  { apply well_keyed_set; auto. apply nodup_keys_set, H2. }
  apply well_keyed_set; auto. apply nodup_keys_set, H3.
Qed.

End GraphFacts.

(** ** The motif similarity graph *)

Section JaccardGraph.

Import PeakPredictor.

Lemma contains_iff l x : contains l x = true <-> In x l.
Proof.
  unfold contains. rewrite existsb_exists. split.
  - intros [y [Hy E]]. apply String.eqb_eq in E. now subst.
  - intros H. exists x. split; auto. apply String.eqb_refl.
Qed.

Lemma in_intersection a b x : In x (intersection a b) <-> In x a /\ In x b.
Proof. unfold intersection. rewrite filter_In, contains_iff. tauto. Qed.

Lemma in_union a b x : In x (union a b) <-> In x a \/ In x b.
Proof.
  unfold union. rewrite in_app_iff, filter_In, negb_true_iff.
  destruct (contains a x) eqn:E.
  - apply contains_iff in E. intuition congruence.
  - tauto.
Qed.

Lemma nodup_intersection a b : NoDup a -> NoDup (intersection a b).
Proof. apply NoDup_filter. Qed.

Lemma nodup_union a b : NoDup a -> NoDup b -> NoDup (union a b).
Proof.
  intros Ha Hb. unfold union. apply NoDup_app; auto.
  - now apply NoDup_filter.
  - intros x Hx Hx'. apply filter_In in Hx'. destruct Hx' as [_ Hc].
    apply negb_true_iff in Hc.
    apply contains_iff in Hx. congruence.
Qed.

Lemma length_intersection_sym a b :
  NoDup a -> NoDup b ->
  List.length (intersection a b) = List.length (intersection b a).
Proof.
  intros Ha Hb. apply Permutation_length, NoDup_Permutation;
    auto using nodup_intersection.
  intros x. rewrite !in_intersection. tauto.
Qed.

Lemma length_union_sym a b :
  NoDup a -> NoDup b -> List.length (union a b) = List.length (union b a).
Proof.
  intros Ha Hb. apply Permutation_length, NoDup_Permutation;
    auto using nodup_union.
  intros x. rewrite !in_union. tauto.
Qed.

Lemma jaccard_weight_sym a b :
  NoDup a -> NoDup b -> jaccard_weight a b = jaccard_weight b a.
Proof.
  intros Ha Hb. unfold jaccard_weight.
  now rewrite (length_intersection_sym a b), (length_union_sym a b).
Qed.

(** A non-empty intersection makes the union non-empty. *)
Lemma jaccard_weight_shared a b :
  (0 < List.length (intersection a b))%nat ->
  jaccard_weight a b
  = Some (1 - inject_Z (Z.of_nat (List.length (intersection a b)))
              / inject_Z (Z.of_nat (List.length (union a b))))%Q.
Proof.
  intros Hi. unfold jaccard_weight.
  assert (Hu : (0 < List.length (union a b))%nat).
  { destruct (intersection a b) as [|x l] eqn:E; [simpl in Hi; lia|].
    assert (Hx : In x (union a b)).
    { apply in_union. left.
      assert (In x (intersection a b)) by (rewrite E; now left).
      now apply in_intersection in H. }
    destruct (union a b); [contradiction | simpl; lia]. }
  apply Nat.ltb_lt in Hi, Hu. now rewrite Hi, Hu.
Qed.

Lemma jaccard_weight_disjoint a b :
  List.length (intersection a b) = 0%nat -> jaccard_weight a b = None.
Proof. intros Hi. unfold jaccard_weight. now rewrite Hi. Qed.

Lemma set_valued_set c k s : set_valued c -> NoDup s -> set_valued (set c k s).
Proof.
  intros [H1 H2] Hs. split; [now apply nodup_keys_set|].
  intros k' s'. rewrite get_set. destruct (String.eqb k k'); eauto.
  now intros [= <-].
Qed.

Lemma set_valued_merge r c : set_valued c -> set_valued (merge_orthologs c r).
Proof.
  unfold merge_orthologs. revert c. induction r as [|[k v] r IH]; auto.
  intros c Hc. simpl. apply IH. destruct (get c k) eqn:E.
  - apply set_valued_set; auto. apply nodup_union.
    + destruct Hc as [_ Hc]. eauto.
    + apply NoDup_nodup.
  - apply set_valued_set; auto. apply NoDup_nodup.
Qed.

Lemma set_valued_complete loaded r :
  NoDup (keys loaded) -> set_valued (complete_f2m loaded r).
Proof.
  intros H. unfold complete_f2m.
  assert (H0 : set_valued (map (fun kv => (fst kv, to_set (snd kv))) loaded)).
  { split.
    - unfold keys. rewrite map_map. exact H.
    - intros k s Hg. apply get_some_in, in_map_iff in Hg.
      destruct Hg as [kv [[= _ <-] _]]. apply NoDup_nodup. }
  destruct r; auto. now apply set_valued_merge.
Qed.

End JaccardGraph.

Section JaccardEdges.

Import PeakPredictor.

Lemma in_combinations l a b :
  In (a, b) (combinations l) -> In a l /\ In b l /\ (NoDup l -> a <> b).
Proof.
  induction l as [|x l IH]; simpl; [tauto|].
  rewrite in_app_iff, in_map_iff. intros [[y [[= <- <-] Hy]]|H].
  - repeat split; auto. intros Hnd ->. inversion Hnd; auto.
  - destruct (IH H) as [Ha [Hb Hne]]. repeat split; auto.
    intros Hnd. inversion Hnd; auto.
Qed.

Lemma combinations_complete l a b :
  In a l -> In b l -> a <> b ->
  In (a, b) (combinations l) \/ In (b, a) (combinations l).
Proof.
  induction l as [|x l IH]; simpl; [tauto|].
  intros [->|Ha] [->|Hb] Hne; try congruence.
  - left. apply in_or_app. left. now apply in_map.
  - right. apply in_or_app. left. now apply in_map.
  - destruct (IH Ha Hb Hne); [left|right]; apply in_or_app; now right.
Qed.

Lemma pair_matches_iff a b p :
  pair_matches a b p = true <-> p = (a, b) \/ p = (b, a).
Proof.
  unfold pair_matches. destruct p as [x y]. simpl.
  rewrite orb_true_iff, !andb_true_iff, !String.eqb_eq.
  split.
  - intros [[-> ->]|[-> ->]]; auto.
  - intros [[= -> ->]|[= -> ->]]; auto.
Qed.

Lemma exists_match_iff a b ps :
  existsb (pair_matches a b) ps = true <-> In (a, b) ps \/ In (b, a) ps.
Proof.
  rewrite existsb_exists. split.
  - intros [p [Hp Hm]]. apply pair_matches_iff in Hm.
    destruct Hm as [->| ->]; auto.
  - intros [H|H]; eexists; (split; [exact H|]); apply pair_matches_iff; auto.
Qed.

Lemma pair_weight_sym c a b :
  set_valued c -> pair_weight c a b = pair_weight c b a.
Proof.
  intros [_ Hc]. unfold pair_weight.
  destruct (get c a) eqn:Ea, (get c b) eqn:Eb; auto.
  apply jaccard_weight_sym; eauto.
Qed.

Lemma add_pairs_ok c ps :
  (forall p, In p ps -> In (fst p) (keys c) /\ In (snd p) (keys c)) ->
  forall G, exists G', add_pairs c G ps = Ok G'.
Proof.
  induction ps as [|p ps IH]; intros Hk G; simpl; [eauto|].
  destruct (Hk p (or_introl eq_refl)) as [H1 H2].
  unfold add_pair.
  destruct (get c (fst p)) eqn:E1;
    [|apply get_none_not_in in E1; contradiction].
  destruct (get c (snd p)) eqn:E2;
    [|apply get_none_not_in in E2; contradiction].
  destruct (jaccard_weight l l0); apply IH; intros p' Hp'; apply Hk; now right.
Qed.

Lemma add_pairs_well_keyed c ps :
  forall G G', well_keyed G -> add_pairs c G ps = Ok G' -> well_keyed G'.
Proof.
  induction ps as [|p ps IH]; intros G G' HG; simpl.
  - now intros [= <-].
  - unfold add_pair.
    destruct (get c (fst p)); [|discriminate].
    destruct (get c (snd p)); [|discriminate].
    destruct (jaccard_weight l l0); apply IH; auto.
    now apply well_keyed_add_edge.
Qed.

(** After the loop a pair of factors has the weight computed for it if
    some enumerated pair joins them, and its former weight otherwise. *)
Lemma add_pairs_edge_weight c ps a b :
  set_valued c ->
  forall G G', add_pairs c G ps = Ok G' ->
  Nx.edge_weight G' a b
  = if existsb (pair_matches a b) ps then
      match pair_weight c a b with
      | Some w => Some w
      | None => Nx.edge_weight G a b
      end
    else Nx.edge_weight G a b.
Proof.
  intros Hc. induction ps as [|p ps IH]; intros G G'; simpl.
  - now intros [= <-].
  - unfold add_pair.
    destruct (get c (fst p)) as [s1|] eqn:E1; [|discriminate].
    destruct (get c (snd p)) as [s2|] eqn:E2; [|discriminate].
    assert (Hw : pair_matches a b p = true ->
                 pair_weight c a b = jaccard_weight s1 s2).
    { intros Hm. apply pair_matches_iff in Hm.
      destruct Hm as [->| ->]; simpl in *.
      - unfold pair_weight. now rewrite E1, E2.
      - rewrite pair_weight_sym by auto. unfold pair_weight.
        now rewrite E1, E2. }
    destruct (jaccard_weight s1 s2) as [w|] eqn:Ew; intros HG;
      rewrite (IH _ _ HG).
    + rewrite edge_weight_add_edge. fold (pair_matches a b p).
      destruct (pair_matches a b p) eqn:Em; cbn [orb].
      * rewrite (Hw eq_refl). now destruct (existsb (pair_matches a b) ps).
      * reflexivity.
    + destruct (pair_matches a b p) eqn:Em; cbn [orb]; auto.
      rewrite (Hw eq_refl). now destruct (existsb (pair_matches a b) ps).
Qed.

(** The graph in closed form, for any enumeration of the combinations. *)
Lemma jaccard_graph_edge_weight c order G a b :
  set_valued c -> Permutation order (combinations (keys c)) ->
  _jaccard_motif_graph c order = Ok G ->
  Nx.edge_weight G a b
  = if andb (negb (String.eqb a b)) (andb (mem c a) (mem c b))
    then pair_weight c a b else None.
Proof.
  intros Hc Hperm HG. unfold _jaccard_motif_graph in HG.
  rewrite (add_pairs_edge_weight c order a b Hc _ _ HG).
  assert (Hnone : Nx.edge_weight Nx.empty a b = None) by reflexivity.
  rewrite Hnone.
  assert (Hex : existsb (pair_matches a b) order = true
                <-> a <> b /\ In a (keys c) /\ In b (keys c)).
  { rewrite exists_match_iff. split.
    - intros [H|H]; apply (Permutation_in _ Hperm), in_combinations in H;
        destruct H as [H1 [H2 H3]]; repeat split; auto.
      + apply H3, Hc.
      + apply not_eq_sym, H3, Hc.
    - intros [Hne [Ha Hb]].
      destruct (combinations_complete _ a b Ha Hb Hne) as [H|H];
        [left|right];
        apply (Permutation_in _ (Permutation_sym Hperm)); exact H. }
  destruct (existsb (pair_matches a b) order) eqn:E.
  - destruct (proj1 Hex eq_refl) as [Hne [Ha Hb]].
    apply mem_true_iff in Ha, Hb. rewrite Ha, Hb.
    apply String.eqb_neq in Hne. rewrite Hne. cbn.
    now destruct (pair_weight c a b).
  - destruct (String.eqb_spec a b) as [->|Hne]; cbn; auto.
    destruct (mem c a) eqn:Ea, (mem c b) eqn:Eb; cbn; auto.
    apply mem_true_iff in Ea, Eb.
    assert (false = true) by (apply Hex; auto).
    discriminate.
Qed.

End JaccardEdges.

(** C5: for factor-to-motif sets with distinct factor names and any order
    in which the pairs are enumerated, the graph is built without error;
    two distinct factors that share a motif are joined by the weight
    [1 - |intersection| / |union|] of their motif sets, two that share none
    are not joined, no factor is joined to itself and nothing but factors
    is joined; the weight is stored once per direction and is the same in
    both; and two enumeration orders give the same edges and weights. *)
Theorem jaccard_graph_edges :
  forall (loaded : dict (list string))
         (reference_orthologs : option (dict (list string)))
         (order : list (string * string)),
    let c := PeakPredictor.complete_f2m loaded reference_orthologs in
    NoDup (keys loaded) ->
    Permutation order (PeakPredictor.combinations (keys c)) ->
    exists G,
      PeakPredictor._jaccard_motif_graph c order = Ok G
      /\ (forall a b s1 s2,
            a <> b -> get c a = Some s1 -> get c b = Some s2 ->
            let i := List.length (PeakPredictor.intersection s1 s2) in
            let u := List.length (PeakPredictor.union s1 s2) in
            ((0 < i)%nat ->
               Nx.edge_weight G a b
               = Some (1 - inject_Z (Z.of_nat i) / inject_Z (Z.of_nat u))%Q)
            /\ (i = 0%nat -> Nx.edge_weight G a b = None))
      /\ (forall a, Nx.edge_weight G a a = None)
      /\ (forall a b, get c a = None \/ get c b = None ->
                      Nx.edge_weight G a b = None)
      /\ (forall a b, Nx.edge_weight G a b = Nx.edge_weight G b a)
      /\ NoDup (keys G)
      /\ (forall a, NoDup (keys (Nx.neighbors G a)))
      /\ (forall order' G',
            Permutation order' (PeakPredictor.combinations (keys c)) ->
            PeakPredictor._jaccard_motif_graph c order' = Ok G' ->
            forall a b, Nx.edge_weight G' a b = Nx.edge_weight G a b).
Proof.
  intros loaded ref order c Hnd Hperm.
  assert (Hc : set_valued c) by now apply set_valued_complete.
  destruct (add_pairs_ok c order) with (G := Nx.empty) as [G HG].
  { intros [x y] Hp. apply (Permutation_in _ Hperm), in_combinations in Hp.
    simpl. tauto. }
  exists G. split; [exact HG|].
  pose proof (fun a b => jaccard_graph_edge_weight c order G a b Hc Hperm HG)
    as Hew.
  split; [|split; [|split; [|split; [|split; [|split]]]]].
  - intros a b s1 s2 Hne Ha Hb i u. rewrite Hew.
    apply String.eqb_neq in Hne. unfold mem, pair_weight.
    rewrite Hne, Ha, Hb. cbn [negb andb]. split.
    + apply jaccard_weight_shared.
    + apply jaccard_weight_disjoint.
  - intros a. rewrite Hew, String.eqb_refl. reflexivity.
  - intros a b H. rewrite Hew. unfold mem.
    destruct H as [-> | ->]; destruct (String.eqb a b); cbn; auto.
    now destruct (get c a).
  - intros a b. rewrite !Hew, (String.eqb_sym b a), (pair_weight_sym c a b Hc).
    now destruct (mem c a), (mem c b).
  - eapply add_pairs_well_keyed; [apply well_keyed_empty | exact HG].
  - eapply add_pairs_well_keyed; [apply well_keyed_empty | exact HG].
  - intros order' G' Hperm' HG' a b. rewrite Hew.
    apply (jaccard_graph_edge_weight c order' G' a b Hc Hperm' HG').
Qed.

(** The example of the specification: motif sets {m1, m2} and {m2, m3}
    are joined with weight 1 - 1/3, and a factor without shared motif is
    not a node. *)
Example jaccard_graph_of_motif_sets :
  exists G w,
    PeakPredictor._jaccard_motif_graph
      (PeakPredictor.complete_f2m Examples.motif_sets None)
      (PeakPredictor.combinations (keys Examples.motif_sets)) = Ok G
    /\ Nx.edge_weight G "A" "B" = Some w
    /\ (w == 1 - 1 / 3)%Q
    /\ Nx.edge_weight G "A" "C" = None
    /\ Nx.has_node G "C" = false.
Proof.
  eexists. eexists. split; [reflexivity|]. split; [reflexivity|].
  split; [reflexivity|]. split; reflexivity.
Qed.

Lemma jaccard_graph_edges_witness :
  exists G,
    PeakPredictor._jaccard_motif_graph
      (PeakPredictor.complete_f2m Examples.motif_sets None)
      (PeakPredictor.combinations
         (keys (PeakPredictor.complete_f2m Examples.motif_sets None))) = Ok G
    /\ Nx.edge_weight G "A" "B"
       = Some (1 - inject_Z (Z.of_nat 1) / inject_Z (Z.of_nat 3))%Q
    /\ Nx.edge_weight G "A" "C" = None.
Proof.
  destruct (jaccard_graph_edges Examples.motif_sets None
              (PeakPredictor.combinations
                 (keys (PeakPredictor.complete_f2m Examples.motif_sets None))))
    as [G [HG [Hw _]]].
  - repeat constructor; simpl; intuition discriminate.
  - apply Permutation_refl.
  - exists G. split; [exact HG|]. split.
    + apply (Hw "A" "B" ["m1"; "m2"] ["m2"; "m3"])%string;
        [discriminate | reflexivity | reflexivity | simpl; lia].
    + apply (Hw "A" "C" ["m1"; "m2"] ["m4"])%string;
        [discriminate | reflexivity | reflexivity | reflexivity].
Defined.

(** ** The table returned by [predict_proba] *)

Section PredictProba.

Import PeakPredictor.

Lemma get_some_value {V : Type} (d : dict V) k v :
  get d k = Some v -> In v (map snd d).
Proof. intros H. apply get_some_in in H. now apply (in_map snd) in H. Qed.

Lemma load_data_inv self f x :
  _load_data self f = Ok x ->
  exists tmp,
    x = map (fun row => (fst row, map (cell (snd row)) (_X_columns self)))
            (dropna (materialize (regions self) tmp))
    /\ forallb (contains (keys tmp)) (_X_columns self) = true.
Proof.
  unfold _load_data. destruct (get (_motifs self) f); [|discriminate].
  match goal with |- bind ?e _ = _ -> _ => destruct e as [tmp|]; cbn [bind] end;
    [|discriminate].
  unfold select.
  destruct (forallb (contains (keys tmp)) (_X_columns self)) eqn:E;
    [|discriminate].
  intros [= <-]. exists tmp. auto.
Qed.

Lemma materialize_keys index tmp row :
  In row (materialize index tmp) -> keys (snd row) = keys tmp.
Proof.
  unfold materialize. rewrite in_map_iff. intros [r [<- _]]. simpl.
  unfold keys. rewrite map_map. reflexivity.
Qed.

(** The rows that reach the classifier have a value in every cell. *)
Lemma load_data_complete self f x row :
  _load_data self f = Ok x -> In row x -> forallb is_some (snd row) = true.
Proof.
  intros Hx Hrow. apply load_data_inv in Hx. destruct Hx as [tmp [-> Hcols]].
  apply in_map_iff in Hrow. destruct Hrow as [r [<- Hr]]. simpl.
  apply filter_In in Hr. destruct Hr as [Hr Hall].
  rewrite forallb_forall in *. intros v Hv.
  apply in_map_iff in Hv. destruct Hv as [c [<- Hc]].
  specialize (Hcols c Hc). apply contains_iff in Hcols.
  rewrite <- (materialize_keys _ _ _ Hr) in Hcols.
  unfold cell. destruct (get (snd r) c) as [v|] eqn:E.
  - apply Hall. eapply get_some_value; eauto.
  - apply get_none_not_in in E. contradiction.
Qed.

Lemma load_data_length self f x :
  _load_data self f = Ok x ->
  (List.length x <= List.length (regions self))%nat.
Proof.
  intros Hx. apply load_data_inv in Hx. destruct Hx as [tmp [-> _]].
  rewrite length_map. unfold dropna.
  etransitivity; [apply filter_length_le|].
  unfold materialize. now rewrite length_map.
Qed.

Lemma index_of_combine {A B : Type} (l : list A) (l' : list B) :
  List.length l = List.length l' -> map fst (combine l l') = l.
Proof.
  revert l'. induction l as [|a l IH]; intros [|b l']; simpl; auto;
    try discriminate.
  intros [= H]. now rewrite IH.
Qed.

End PredictProba.

(** C4, as the code has it: for a factor of the factor-to-motif mapping
    whose model and feature columns are found, the rows with a missing
    value are removed before scoring, and a table is returned exactly when
    as many rows remain as there are regions; the table then has one
    probability per region, in the region order.  When fewer rows remain
    no table is returned: the call raises [ValueError]. *)
Theorem predict_proba_one_row_per_region :
  forall (proba : PeakPredictor.Model -> list PeakPredictor.value -> Q)
         (self : PeakPredictor.t) (fm : PeakPredictor.registry)
         (f : string) (jc : Q) (m : PeakPredictor.Model)
         (x : list (string * list PeakPredictor.value)),
    mem (PeakPredictor.f2m self) f = true ->
    PeakPredictor._load_model self fm f jc = Ok (m, f) ->
    PeakPredictor._load_data self f = Ok x ->
    let result := PeakPredictor.predict_proba proba self fm (Some f) None jc in
    let n := List.length (PeakPredictor.regions self) in
    (forall row, In row x ->
       forallb PeakPredictor.is_some (snd row) = true)
    /\ (List.length x <= n)%nat
    /\ (List.length x = n ->
        result = Ok (combine (PeakPredictor.regions self)
                       (map (proba m) (map snd x)))
        /\ map fst (combine (PeakPredictor.regions self)
                      (map (proba m) (map snd x)))
           = PeakPredictor.regions self)
    /\ ((List.length x < n)%nat -> result = Raise ValueError).
Proof.
  intros proba self fm f jc m x Hf Hm Hx result n.
  split; [intros row; now apply (load_data_complete self f)|].
  split; [now apply (load_data_length self f)|].
  assert (Hres : result
                 = PeakPredictor.new_frame (map (proba m) (map snd x))
                     (PeakPredictor.regions self)).
  { unfold result, PeakPredictor.predict_proba. rewrite Hf. cbn [negb].
    rewrite Hm. cbn [bind snd fst]. now rewrite Hx. }
  rewrite Hres. unfold PeakPredictor.new_frame. rewrite !length_map.
  fold n. split.
  - intros Hn. rewrite Hn, Nat.eqb_refl. split; [reflexivity|].
    apply index_of_combine. rewrite !length_map. lia.
  - intros Hn. replace (Nat.eqb (List.length x) n) with false; auto.
    symmetry. apply Nat.eqb_neq. lia.
Qed.

(** C4 read literally fails: factor [B] is known, its motif score is
    missing in the second region, one row of two remains, and the call
    raises [ValueError] where a one-row table is claimed. *)
Lemma predict_proba_fails_on_missing_row :
  mem (PeakPredictor.f2m (fst Examples.after_init)) "B" = true
  /\ (exists m row,
        PeakPredictor._load_model (fst Examples.after_init)
          (snd Examples.after_init) "B" 0 = Ok (m, "B"%string)
        /\ PeakPredictor._load_data (fst Examples.after_init) "B" = Ok [row])
  /\ PeakPredictor.predict_proba Examples.coin (fst Examples.after_init)
       (snd Examples.after_init) (Some "B"%string) None 0
     = Raise ValueError.
Proof.
  split; [reflexivity|]. split; [|reflexivity].
  eexists. eexists. split; reflexivity.
Qed.

(** ** Outer joins on [source_target] *)

Section OuterJoin.

Import Interaction.

Lemma filter_none {X : Type} (p : X -> bool) l :
  (forall x, In x l -> p x = false) -> filter p l = [].
Proof.
  induction l as [|y l IH]; simpl; intros H; auto.
  rewrite (H y (or_introl eq_refl)). apply IH. intros x Hx. apply H. now right.
Qed.

Lemma filter_all {X : Type} (p : X -> bool) l :
  (forall x, In x l -> p x = true) -> filter p l = l.
Proof.
  induction l as [|y l IH]; simpl; intros H; auto.
  rewrite (H y (or_introl eq_refl)). f_equal. apply IH. intros x Hx.
  apply H. now right.
Qed.

Lemma filter_single {X : Type} (p : X -> bool) l k :
  NoDup l -> In k l -> (forall x, In x l -> p x = true <-> x = k) ->
  filter p l = [k].
Proof.
  induction l as [|y l IH]; simpl; intros Hnd Hin Hp; [contradiction|].
  inversion Hnd as [|? ? Hni Hnd']; subst.
  destruct Hin as [->|Hin].
  - rewrite (proj2 (Hp k (or_introl eq_refl)) eq_refl). f_equal.
    apply filter_none. intros x Hx. destruct (p x) eqn:E; auto.
    apply (Hp x (or_intror Hx)) in E. subst. contradiction.
  - destruct (p y) eqn:E.
    + apply (Hp y (or_introl eq_refl)) in E. subst. contradiction.
    + apply IH; auto; intros x Hx; apply Hp; now right.
Qed.

Lemma filter_same_key {A B : Type} k (x : string * A) (r : list (string * B)) :
  fst x = k ->
  filter (fun y => String.eqb (fst x) (fst y)) r = filter (key_is k) r.
Proof.
  intros <-. apply filter_ext. intros y. unfold key_is. apply String.eqb_sym.
Qed.

(** The rows of an outer join under one key. *)
Lemma merge_outer_rows {A B : Type} k (l : list (string * A))
    (r : list (string * B)) :
  filter (key_is k) (merge_outer l r)
  = flat_map
      (fun x =>
         match filter (key_is k) r with
         | [] => [(k, (Some (snd x), None))]
         | ys => map (fun y => (k, (Some (snd x), Some (snd y)))) ys
         end)
      (filter (key_is k) l)
    ++ (if existsb (key_is k) l then []
        else map (fun y => (k, (None, Some (snd y)))) (filter (key_is k) r)).
Proof.
  unfold merge_outer. rewrite filter_app. f_equal.
  - induction l as [|x l IH]; [reflexivity|].
    cbn [flat_map filter]. rewrite filter_app, IH.
    destruct (key_is k x) eqn:Ek; unfold key_is in Ek.
    + apply String.eqb_eq in Ek. cbn [flat_map]. f_equal.
      rewrite (filter_same_key k x r Ek), Ek.
      apply filter_all. intros z Hz.
      assert (Hk : fst z = k).
      { destruct (filter (key_is k) r).
        - destruct Hz as [<-|[]]. reflexivity.
        - apply in_map_iff in Hz. destruct Hz as [y [<- _]]. reflexivity. }
      unfold key_is. rewrite Hk. apply String.eqb_refl.
    + apply String.eqb_neq in Ek. rewrite filter_none; auto. intros z Hz.
      assert (Hk : fst z = fst x).
      { destruct (filter (fun y => String.eqb (fst x) (fst y)) r).
        - destruct Hz as [<-|[]]. reflexivity.
        - apply in_map_iff in Hz. destruct Hz as [y [<- _]]. reflexivity. }
      unfold key_is. rewrite Hk. now apply String.eqb_neq.
  - induction r as [|y r IH]; [now destruct (existsb (key_is k) l)|].
    cbn [filter].
    destruct (key_is k y) eqn:Ek; unfold key_is in Ek.
    + apply String.eqb_eq in Ek.
      assert (Hex : existsb (fun x : string * A => String.eqb (fst x) (fst y)) l
                    = existsb (key_is k) l) by (rewrite Ek; reflexivity).
      rewrite Hex.
      destruct (existsb (key_is k) l) eqn:El; cbn [negb map filter].
      * exact IH.
      * unfold key_is at 1. cbn [fst]. rewrite (proj2 (String.eqb_eq _ _) Ek).
        rewrite IH, Ek. reflexivity.
    + destruct (negb (existsb (fun x : string * A => String.eqb (fst x) (fst y)) l));
        cbn [map filter]; auto.
      unfold key_is at 1. cbn [fst]. now rewrite Ek.
Qed.

End OuterJoin.

(** ** Groups and the tables keyed by [source_target] *)

Section GroupTables.

Import Interaction.

Lemma key_eqb_iff a b : key_eqb a b = true <-> a = b.
Proof.
  unfold key_eqb. destruct a, b. simpl.
  rewrite andb_true_iff, !String.eqb_eq. split.
  - intros [-> ->]. reflexivity.
  - intros [= -> ->]. auto.
Qed.

Lemma in_group_keys ks k : In k (group_keys ks) <-> In k ks.
Proof.
  induction ks as [|x ks IH]; simpl; [tauto|].
  destruct (existsb (key_eqb x) ks) eqn:E.
  - rewrite IH. split; auto. intros [<-|H]; auto.
    apply existsb_exists in E. destruct E as [y [Hy Exy]].
    apply key_eqb_iff in Exy. now subst.
  - simpl. rewrite IH. tauto.
Qed.

Lemma nodup_group_keys ks : NoDup (group_keys ks).
Proof.
  induction ks as [|x ks IH]; simpl; [constructor|].
  destruct (existsb (key_eqb x) ks) eqn:E; auto.
  constructor; auto. rewrite in_group_keys. intros Hin.
  assert (existsb (key_eqb x) ks = true).
  { apply existsb_exists. exists x. split; auto. now apply key_eqb_iff. }
  congruence.
Qed.

Lemma filter_map_swap {X Y : Type} (p : Y -> bool) (f : X -> Y) l :
  filter p (map f l) = map f (filter (fun x => p (f x)) l).
Proof.
  induction l as [|x l IH]; simpl; auto.
  destruct (p (f x)); simpl; now rewrite IH.
Qed.

Lemma keyed_rows_single {V : Type} (val : key -> V) ks k :
  In k ks ->
  (forall k', In k' ks -> source_target_of k' = source_target_of k -> k' = k) ->
  filter (key_is (source_target_of k)) (keyed val ks)
  = [(source_target_of k, val k)].
Proof.
  intros Hin Hinj. unfold keyed. rewrite filter_map_swap.
  rewrite (filter_single _ (group_keys ks) k); auto.
  - apply nodup_group_keys.
  - now apply in_group_keys.
  - intros x Hx. apply (proj1 (in_group_keys _ _)) in Hx.
    unfold key_is. cbn [fst].
    rewrite String.eqb_eq. split; [exact (Hinj x Hx) | now intros ->].
Qed.

Lemma keyed_rows_none {V : Type} (val : key -> V) ks st :
  (forall k', In k' ks -> source_target_of k' <> st) ->
  filter (key_is st) (keyed val ks) = [].
Proof.
  intros H. apply filter_none. intros x Hx. unfold keyed in Hx.
  apply in_map_iff in Hx. destruct Hx as [k' [<- Hk']].
  apply (proj1 (in_group_keys _ _)) in Hk'. unfold key_is. simpl.
  apply String.eqb_neq. auto.
Qed.

Lemma keyed_has_key {V : Type} (val : key -> V) ks k :
  In k ks -> In (source_target_of k) (map fst (keyed val ks)).
Proof.
  intros H. unfold keyed. rewrite map_map. simpl.
  apply in_map_iff. exists k. split; auto. now apply in_group_keys.
Qed.

Lemma merge_outer_has_key {A B : Type} (l : list (string * A))
    (r : list (string * B)) k :
  In k (map fst l) \/ In k (map fst r) -> In k (map fst (merge_outer l r)).
Proof.
  intros H.
  assert (Hne : filter (key_is k) (merge_outer l r) <> []).
  { rewrite merge_outer_rows. destruct H as [H|H].
    - apply in_map_iff in H. destruct H as [x [Hk Hx]].
      assert (Hin : In x (filter (key_is k) l)).
      { apply filter_In. split; auto. unfold key_is. now apply String.eqb_eq. }
      destruct (filter (key_is k) l) as [|x0 l0]; [contradiction|].
      cbn [flat_map]. destruct (filter (key_is k) r); discriminate.
    - apply in_map_iff in H. destruct H as [y [Hk Hy]].
      assert (Hin : In y (filter (key_is k) r)).
      { apply filter_In. split; auto. unfold key_is. now apply String.eqb_eq. }
      destruct (filter (key_is k) l) as [|x0 l0] eqn:El.
      + cbn [flat_map app].
        assert (El' : existsb (key_is k) l = false).
        { destruct (existsb (key_is k) l) eqn:Ex; auto.
          apply existsb_exists in Ex. destruct Ex as [x [Hx Hkx]].
          assert (In x (filter (key_is k) l)) by (apply filter_In; auto).
          rewrite El in H. contradiction. }
        rewrite El'. destruct (filter (key_is k) r); [contradiction|discriminate].
      + cbn [flat_map]. destruct (filter (key_is k) r); discriminate. }
  destruct (filter (key_is k) (merge_outer l r)) as [|z zs] eqn:E;
    [congruence|].
  assert (Hz : In z (filter (key_is k) (merge_outer l r)))
    by (rewrite E; now left).
  apply filter_In in Hz. destruct Hz as [Hz Hk].
  unfold key_is in Hk. apply String.eqb_eq in Hk. subst k.
  now apply in_map.
Qed.

Lemma merge_weight_keys rows tb k :
  In k (map weighted_key (merge_weight rows tb)) <-> In k (map pair_key rows).
Proof.
  unfold merge_weight. rewrite !in_map_iff. split.
  - intros [x [<- Hx]]. apply in_flat_map in Hx. destruct Hx as [r [Hr Hx]].
    exists r. split; auto.
    destruct (weights_at tb (p_dist r)).
    + destruct Hx as [<-|[]]. reflexivity.
    + apply in_map_iff in Hx. destruct Hx as [w [<- _]]. reflexivity.
  - intros [r [<- Hr]].
    destruct (weights_at tb (p_dist r)) as [|w ws] eqn:E.
    + exists (r, None). split; auto. apply in_flat_map. exists r.
      split; auto. rewrite E. now left.
    + exists (r, Some w). split; auto. apply in_flat_map. exists r.
      split; auto. rewrite E. now left.
Qed.

End GroupTables.

(** ** The feature table *)

Section FeatureTable.

Import Interaction.

Lemma exists_key_filter {V : Type} k (l : list (string * V)) x xs :
  filter (key_is k) l = x :: xs -> existsb (key_is k) l = true.
Proof.
  intros H. apply existsb_exists. exists x.
  assert (Hx : In x (filter (key_is k) l)) by (rewrite H; now left).
  apply filter_In in Hx. exact Hx.
Qed.


Lemma merge_outer_both {A B : Type} k (l : list (string * A))
    (r : list (string * B)) x y :
  filter (key_is k) l = [x] -> filter (key_is k) r = [y] ->
  filter (key_is k) (merge_outer l r) = [(k, (Some (snd x), Some (snd y)))].
Proof.
  intros Hl Hr. rewrite merge_outer_rows, Hl, Hr.
  now rewrite (exists_key_filter k l x [] Hl).
Qed.

Lemma merge_outer_left {A B : Type} k (l : list (string * A))
    (r : list (string * B)) x :
  filter (key_is k) l = [x] -> filter (key_is k) r = [] ->
  filter (key_is k) (merge_outer l r) = [(k, (Some (snd x), None))].
Proof.
  intros Hl Hr. rewrite merge_outer_rows, Hl, Hr.
  now rewrite (exists_key_filter k l x [] Hl).
Qed.


Lemma rows_of_source_target st (js : list joined) :
  filter (fun r => String.eqb (source_target r) st) (map feature_of js)
  = map feature_of (filter (key_is st) js).
Proof. rewrite filter_map_swap. reflexivity. Qed.

(** The group tables as keyed tables. *)
Lemma sum_enh_keyed rows :
  sum_enh rows
  = keyed (fun k => Z.of_nat (List.length (group pair_key k rows)))
          (map pair_key rows).
Proof. reflexivity. Qed.


Lemma in_keys_app_l {X : Type} (a b : list X) (P : X -> Prop) :
  (forall k, In k (a ++ b) -> P k) -> forall k, In k a -> P k.
Proof. intros H k Hk. apply H, in_or_app. now left. Qed.

Lemma in_keys_app_r {X : Type} (a b : list X) (P : X -> Prop) :
  (forall k, In k (a ++ b) -> P k) -> forall k, In k b -> P k.
Proof. intros H k Hk. apply H, in_or_app. now right. Qed.


(** A pair with a contributing enhancer, and a pair with an enhancer in
    the promoter window, has a row under its key. *)
Lemma pair_has_row ddf po go wu wd alpha padding keep1 remove k :
  In k (map pair_key (contributing ddf go wu wd))
  \/ In k (map prom_key (merge_promoters ddf (promoter_pairs po))) ->
  exists row,
    In row (feature_table ddf po go wu wd alpha padding keep1 remove)
    /\ source_target row = source_target_of k.
Proof.
  intros H. unfold feature_table.
  match goal with
  | |- exists row, In row (map feature_of ?J) /\ _ =>
      assert (Hk : In (source_target_of k) (map fst J))
  end.
  { apply merge_outer_has_key. destruct H as [H|H].
    - left. apply merge_outer_has_key. right.
      rewrite sum_enh_keyed. now apply keyed_has_key.
    - right. now apply keyed_has_key. }
  apply in_map_iff in Hk. destruct Hk as [j [Hj Hjin]].
  exists (feature_of j). split; [now apply in_map | exact Hj].
Qed.






Lemma factor_and_gene_cut_from_source_target_witness :
  exists table row,
    aggregate_binding Examples.binding Examples.promoters
      Examples.overlaps 50000 50000 10000 100000 5000 2000
    = Returns table
    /\ In row table
    /\ factor row = "GATA1"%string /\ target row = "TAL1"%string.
Proof.
  assert (Htable : aggregate_binding Examples.binding Examples.promoters
                     Examples.overlaps 50000 50000 10000 100000 5000 2000
                   = Returns (feature_table Examples.binding Examples.promoters
                                Examples.overlaps 50000 50000 10000 100000
                                5000 2000)).
  { apply aggregate_binding_returns; [lra | lazy; discriminate]. }
  destruct (pair_has_row Examples.binding Examples.promoters Examples.overlaps
              50000 50000 10000 100000 5000 2000
              ("GATA1"%string, "TAL1"%string)) as [row [Hin Hst]].
  { left. lazy. now left. }
  eexists. exists row. split; [exact Htable|]. split; [exact Hin|].
  destruct (factor_and_gene_cut_from_source_target _ _ _ _ _ _ _ _ _ _ row
              Htable Hin) as [_ [H _]].
  apply (H "GATA1"%string "TAL1"%string); [exact Hst | reflexivity ..].
Defined.

End FeatureTable.

(** ** Instances on the sample inputs *)

Lemma predict_proba_validation_witness :
  PeakPredictor.predict_proba Examples.coin (fst Examples.after_init)
    (snd Examples.after_init) (Some "ZNF1"%string) None 0
  = Raise ValueError.
Proof.
  apply (proj2 (proj2 (predict_proba_validation Examples.coin
                         (fst Examples.after_init) (snd Examples.after_init) 0))).
  reflexivity.
Defined.

Lemma predict_proba_one_row_per_region_witness :
  PeakPredictor.predict_proba Examples.coin (fst Examples.after_init)
    (snd Examples.after_init) (Some "A"%string) None 0
  = Ok [("chr1:100-300"%string, 1 # 2); ("chr1:500-700"%string, 1 # 2)].
Proof.
  eapply (proj1 (proj2 (proj2 (predict_proba_one_row_per_region Examples.coin
            (fst Examples.after_init) (snd Examples.after_init) "A" 0
            _ _ eq_refl eq_refl eq_refl)))).
  reflexivity.
Defined.

Lemma gene_dataframe_keeps_nearest_witness :
  Interaction.get_gene_dataframe Examples.two_starts 50000 50000
  = [Interaction.mkGeneRow "tal1" "chr1:70000-70200" 8100;
     Interaction.mkGeneRow "lyl1" "chr1:70000-70200" 9100]
  /\ exists r,
       In r (Interaction.get_gene_dataframe Examples.two_starts 50000 50000)
       /\ Interaction.gene r = "tal1"%string
       /\ Interaction.loc r = "chr1:70000-70200"%string
       /\ (Interaction.dist r <= 10100)%Z.
Proof.
  split; [reflexivity|].
  destruct (proj2 (proj2 (gene_dataframe_keeps_nearest Examples.two_starts
                            50000 50000))
              (Interaction.mkOverlap "chr1" 10000 "tal1" "+" 70000 70200)
              (or_introl eq_refl))
    as [r [Hr [Hg [Hl [Hd _]]]]].
  exists r. split; [exact Hr|]. split; [exact Hg|]. split; [exact Hl|].
  exact Hd.
Defined.

(** ** Shortest paths and the choice of a model *)

Section ShortestPaths.

Import Nx Spec.
Local Open Scope Q_scope.

Lemma Qlt_bool_true a b : Qlt_bool a b = true <-> a < b.
Proof.
  unfold Qlt_bool. rewrite negb_true_iff. split.
  - intros H. apply Qnot_le_lt. intros Hle. apply Qle_bool_iff in Hle. congruence.
  - intros H. destruct (Qle_bool b a) eqn:E; auto.
    apply Qle_bool_iff in E. exfalso. qlra.
Qed.

Lemma Qlt_bool_false a b : Qlt_bool a b = false <-> b <= a.
Proof.
  unfold Qlt_bool. rewrite negb_false_iff. apply Qle_bool_iff.
Qed.

Lemma entry_lt_le a b : entry_lt a b = true -> entry_dist a <= entry_dist b.
Proof.
  destruct a as [[d1 c1] n1], b as [[d2 c2] n2]. unfold entry_lt, entry_dist.
  simpl. destruct (Qeq_bool d1 d2) eqn:E.
  - apply Qeq_bool_iff in E. intros _. qlra.
  - intros H. apply Qlt_bool_true in H. qlra.
Qed.

Lemma entry_lt_ge a b : entry_lt a b = false -> entry_dist b <= entry_dist a.
Proof.
  destruct a as [[d1 c1] n1], b as [[d2 c2] n2]. unfold entry_lt, entry_dist.
  simpl. destruct (Qeq_bool d1 d2) eqn:E.
  - apply Qeq_bool_iff in E. intros _. qlra.
  - intros H. apply Qlt_bool_false in H. exact H.
Qed.

Lemma heappop_none h : heappop h = None -> h = [].
Proof.
  destruct h as [|x h]; auto. simpl.
  destruct (heappop h) as [[m r]|]; [destruct (entry_lt x m)|]; discriminate.
Qed.

(** [heappop] takes out one entry, and no entry is below it. *)
Lemma heappop_some h e rest :
  heappop h = Some (e, rest) ->
  Permutation h (e :: rest)
  /\ forall x, In x h -> entry_dist e <= entry_dist x.
Proof.
  revert e rest. induction h as [|x h IH]; simpl; intros e rest; [discriminate|].
  destruct (heappop h) as [[m r]|] eqn:E.
  - destruct (IH m r eq_refl) as [Hp Hmin].
    destruct (entry_lt x m) eqn:Elt; intros [= <- <-].
    + split; [reflexivity|]. intros y [<-|Hy]; [qlra|].
      apply entry_lt_le in Elt. specialize (Hmin y Hy). qlra.
    + split.
      * rewrite Hp. apply perm_swap.
      * intros y [<-|Hy]; [now apply entry_lt_ge | auto].
  - apply heappop_none in E. subst h. intros [= <- <-].
    split; [reflexivity|]. intros y [<-|[]]. qlra.
Qed.

Lemma walk_eq G s v w w' : walk G s v w -> w' == w -> walk G s v w'.
Proof.
  intros H Heq. destruct H.
  - apply walk_here. qlra.
  - eapply walk_edge; eauto. qlra.
Qed.

Lemma walk_nonneg G s v w : nonnegative G -> walk G s v w -> 0 <= w.
Proof.
  intros Hn H. induction H.
  - qlra.
  - specialize (Hn _ _ _ H0). qlra.
Qed.

Lemma in_keys_value {V : Type} (d : dict V) k :
  In k (keys d) -> exists v, In (k, v) d.
Proof.
  unfold keys. rewrite in_map_iff. intros [[k' v] [<- H]]. eauto.
Qed.

Lemma in_value_keys {V : Type} (d : dict V) k v : In (k, v) d -> In k (keys d).
Proof. intros H. apply (in_map fst) in H. exact H. Qed.

Lemma nodup_keys_same {V : Type} (d : dict V) k v v' :
  NoDup (keys d) -> In (k, v) d -> In (k, v') d -> v = v'.
Proof.
  intros Hnd H H'. apply (in_get_nodup d k v Hnd) in H.
  apply (in_get_nodup d k v' Hnd) in H'. congruence.
Qed.

Lemma sorted_snoc {A : Type} (R : A -> A -> Prop) l x :
  StronglySorted R l -> (forall y, In y l -> R y x) ->
  StronglySorted R (l ++ [x]).
Proof.
  induction 1 as [|a l Hs IH Hall]; intros Hx; simpl.
  - repeat constructor.
  - constructor.
    + apply IH. intros y Hy. apply Hx. now right.
    + rewrite Forall_forall in *. intros y Hy. apply in_app_or in Hy.
      destruct Hy as [Hy|[<-|[]]]; [auto|]. apply Hx. now left.
Qed.

Section Dijkstra.

Variable G : Graph.
Variable s : string.
Variable cutoff : Q.
Hypothesis Hnn : nonnegative G.

Local Abbreviation invariant := (Facts.invariant G s cutoff).
Local Abbreviation potential := (Facts.potential G).
Local Abbreviation final := (Facts.final G s cutoff).

(** Every walk from the source crosses the fixed nodes, the queue, or the
    cutoff. *)
Lemma frontier st cur dcur x w :
  invariant st [] cur dcur -> walk G s x w ->
  (exists d, In (x, d) (dist st) /\ d <= w)
  \/ (exists e, In e (fringe st) /\ entry_dist e <= w)
  \/ cutoff < w.
Proof.
  intros Hinv Hw. induction Hw as [w Hw0 | v u c w w' Hw IH Hedge Hw'].
  - destruct (inv_source Hinv) as [Hs|[e [He [_ Hd]]]].
    + left. apply mem_true_iff, in_keys_value in Hs. destruct Hs as [d Hd].
      exists d. split; auto.
      destruct (inv_dist Hinv _ _ Hd) as [[_ Hmin] _].
      apply Hmin. now apply walk_here.
    + right. left. exists e. split; auto. qlra.
  - pose proof (Hnn _ _ _ Hedge) as Hc.
    destruct IH as [[d [Hd Hle]]|[[e [He Hle]]|Hcut]].
    + destruct (Qlt_le_dec cutoff (d + c)) as [Hgt|Hok].
      * right. right. qlra.
      * destruct (inv_edges Hinv _ _ _ _ Hd Hedge Hok)
          as [[_ []]|[Hu|[e [He [_ Hle']]]]].
        -- left. apply mem_true_iff, in_keys_value in Hu.
           destruct Hu as [du Hdu]. exists du. split; auto.
           destruct (inv_dist Hinv _ _ Hdu) as [[_ Hmin] _].
           apply Hmin. eapply walk_edge; eauto.
        -- right. left. exists e. split; auto. qlra.
    + right. left. exists e. split; auto. qlra.
    + right. right. qlra.
Qed.

Lemma mem_snoc (D : dict Q) v d u :
  mem (D ++ [(v, d)]) u = true <-> mem D u = true \/ u = v.
Proof.
  rewrite !mem_true_iff. unfold keys. rewrite map_app, in_app_iff. simpl.
  intuition.
Qed.

(** Dropping a queue entry whose node is fixed keeps what the queue
    promises for the other nodes. *)
Lemma still_waiting (D : dict Q) (h rest : list entry) e u (P : entry -> Prop) :
  Permutation h (e :: rest) -> mem D (snd e) = true ->
  (mem D u = true \/ exists e', In e' h /\ snd e' = u /\ P e') ->
  mem D u = true \/ exists e', In e' rest /\ snd e' = u /\ P e'.
Proof.
  intros Hp He [H|[e' [Hin [Hu HP]]]]; [now left|].
  apply (Permutation_in _ Hp) in Hin. destruct Hin as [<-|Hin].
  - left. now rewrite <- Hu.
  - right. eauto.
Qed.

Lemma pop_stale st cur dcur e rest :
  invariant st [] cur dcur -> heappop (fringe st) = Some (e, rest) ->
  mem (dist st) (snd e) = true ->
  invariant (mkState (dist st) (seen st) rest (count st)) [] cur dcur.
Proof.
  intros Hinv Hpop Hmem. apply heappop_some in Hpop.
  destruct Hpop as [Hp _].
  assert (Hsub : forall x, In x rest -> In x (fringe st)).
  { intros x Hx. apply (Permutation_in _ (Permutation_sym Hp)). now right. }
  constructor; cbn [dist seen fringe count].
  - apply (inv_dist Hinv).
  - apply (inv_nodup Hinv).
  - apply (inv_sorted Hinv).
  - apply (inv_below Hinv).
  - intros x Hx. apply (inv_fringe Hinv), Hsub, Hx.
  - intros u su Hu.
    apply (still_waiting (dist st) (fringe st) rest e u
             (fun e' => entry_dist e' <= su) Hp Hmem).
    apply (inv_seen Hinv _ _ Hu).
  - intros v d u c Hd Hedge Hok. right.
    destruct (inv_edges Hinv _ _ _ _ Hd Hedge Hok) as [[_ []]|H].
    apply (still_waiting (dist st) (fringe st) rest e u
             (fun e' => entry_dist e' <= d + c) Hp Hmem H).
  - apply (still_waiting (dist st) (fringe st) rest e s
             (fun e' => entry_dist e' == 0) Hp Hmem).
    apply (inv_source Hinv).
Qed.

Lemma pop_fresh st cur dcur d k v rest :
  invariant st [] cur dcur ->
  heappop (fringe st) = Some ((d, k, v), rest) ->
  mem (dist st) v = false ->
  invariant (mkState (set (dist st) v d) (seen st) rest (count st))
            (neighbors G v) v d.
Proof.
  intros Hinv Hpop Hmem.
  pose proof (heappop_some _ _ _ Hpop) as [Hp Hmin].
  assert (Hin : In (d, k, v) (fringe st)).
  { apply (Permutation_in _ (Permutation_sym Hp)). now left. }
  assert (Hsub : forall x, In x rest -> In x (fringe st)).
  { intros x Hx. apply (Permutation_in _ (Permutation_sym Hp)). now right. }
  destruct (inv_fringe Hinv _ Hin) as [Hwalk [Hcut Hcur]].
  cbn [snd entry_dist fst] in Hwalk, Hcut, Hcur.
  unfold entry_dist in Hwalk, Hcut, Hcur. cbn [fst snd] in Hwalk, Hcut, Hcur.
  rewrite (set_not_mem (dist st) v d) by now apply mem_false_iff.
  assert (Hnew : forall u, mem (dist st) u = true \/ u = v ->
                           mem (dist st ++ [(v, d)]) u = true)
    by (intros u; apply mem_snoc).
  assert (Hkeep : forall u (P : entry -> Prop),
            (mem (dist st) u = true
             \/ exists e', In e' (fringe st) /\ snd e' = u /\ P e') ->
            mem (dist st ++ [(v, d)]) u = true
            \/ exists e', In e' rest /\ snd e' = u /\ P e').
  { intros u P [H|[e' [He' [Hu HP]]]].
    - left. apply Hnew. now left.
    - apply (Permutation_in _ Hp) in He'. destruct He' as [<-|He'].
      + left. apply Hnew. right. now rewrite <- Hu.
      + right. eauto. }
  assert (Hshort : shortest G s v d).
  { split; [exact Hwalk|]. intros w Hw.
    destruct (frontier st cur dcur v w Hinv Hw)
      as [[d0 [Hd0 _]]|[[e [He Hle]]|Hgt]].
    - apply in_value_keys, mem_true_iff in Hd0. congruence.
    - specialize (Hmin e He). unfold entry_dist in Hmin at 1.
      cbn [fst] in Hmin. qlra.
    - destruct Hcut as [Hc|[_ Hz]]; [qlra|].
      pose proof (walk_nonneg G s v w Hnn Hw). qlra. }
  constructor; cbn [dist seen fringe count].
  - intros x dx Hx. apply in_app_or in Hx. destruct Hx as [Hx|[[= <- <-]|[]]].
    + apply (inv_dist Hinv _ _ Hx).
    + split; [exact Hshort|]. tauto.
  - unfold keys. rewrite map_app. apply NoDup_app.
    + apply (inv_nodup Hinv).
    + repeat constructor. simpl. tauto.
    + intros x Hx [<-|[]]. apply mem_true_iff in Hx. simpl in Hx. congruence.
  - apply sorted_snoc; [apply (inv_sorted Hinv)|].
    intros [x dx] Hx. unfold by_distance. cbn [snd].
    pose proof (inv_below Hinv _ _ Hx). qlra.
  - intros x dx Hx. apply in_app_or in Hx. destruct Hx as [Hx|[[= <- <-]|[]]].
    + pose proof (inv_below Hinv _ _ Hx). qlra.
    + qlra.
  - intros e He. destruct (inv_fringe Hinv _ (Hsub e He)) as [H1 [H2 _]].
    split; [exact H1|]. split; [exact H2|].
    apply (Hmin e (Hsub e He)).
  - intros u su Hu. apply (Hkeep u (fun e' => entry_dist e' <= su)).
    apply (inv_seen Hinv _ _ Hu).
  - intros x dx u c Hx Hedge Hok. apply in_app_or in Hx.
    destruct Hx as [Hx|[[= <- <-]|[]]].
    + right. apply (Hkeep u (fun e' => entry_dist e' <= dx + c)).
      destruct (inv_edges Hinv _ _ _ _ Hx Hedge Hok) as [[_ []]|H]. exact H.
    + left. auto.
  - apply (Hkeep s (fun e' => entry_dist e' == 0)). apply (inv_source Hinv).
Qed.

(** The edge just looked at is settled without a change of state. *)
Lemma relax_skip st pending v d u c :
  invariant st ((u, c) :: pending) v d -> In (v, d) (dist st) ->
  (d + c <= cutoff ->
   mem (dist st) u = true
   \/ exists e, In e (fringe st) /\ snd e = u /\ entry_dist e <= d + c) ->
  invariant st pending v d.
Proof.
  intros Hinv Hvd Hdone. constructor.
  - apply (inv_dist Hinv).
  - apply (inv_nodup Hinv).
  - apply (inv_sorted Hinv).
  - apply (inv_below Hinv).
  - apply (inv_fringe Hinv).
  - apply (inv_seen Hinv).
  - intros x dx u' c' Hx Hedge Hok.
    destruct (inv_edges Hinv _ _ _ _ Hx Hedge Hok) as [[-> [[= <- <-]|Hp]]|H].
    + right. rewrite (nodup_keys_same _ _ _ _ (inv_nodup Hinv) Hx Hvd) in Hok.
      rewrite (nodup_keys_same _ _ _ _ (inv_nodup Hinv) Hx Hvd).
      now apply Hdone.
    + left. auto.
    + right. exact H.
  - apply (inv_source Hinv).
Qed.

(** The edge just looked at puts its end into the queue. *)
Lemma relax_push st pending v d u c :
  invariant st ((u, c) :: pending) v d -> In (v, d) (dist st) ->
  In (u, c) (neighbors G v) -> d + c <= cutoff ->
  invariant (push st u (d + c)) pending v d.
Proof.
  intros Hinv Hvd Hedge Hok.
  pose proof (Hnn _ _ _ Hedge) as Hc.
  assert (Hold : forall u' (P : entry -> Prop),
            (mem (dist st) u' = true
             \/ exists e, In e (fringe st) /\ snd e = u' /\ P e) ->
            mem (dist st) u' = true
            \/ exists e, In e (fringe (push st u (d + c)))
                         /\ snd e = u' /\ P e).
  { intros u' P [H|[e [He HP]]]; [now left|]. right. exists e.
    split; [now right | exact HP]. }
  constructor; cbn [push dist seen fringe count].
  - apply (inv_dist Hinv).
  - apply (inv_nodup Hinv).
  - apply (inv_sorted Hinv).
  - apply (inv_below Hinv).
  - intros e [<-|He]; [|apply (inv_fringe Hinv _ He)].
    unfold entry_dist. cbn [fst snd]. split; [|split; [now left | qlra]].
    destruct (inv_dist Hinv _ _ Hvd) as [[Hw _] _].
    eapply walk_edge; eauto. qlra.
  - intros u' su. rewrite get_set.
    destruct (String.eqb_spec u u') as [<-|Hne].
    + intros [= <-]. right. exists (d + c, count st, u).
      split; [now left|]. split; [reflexivity|].
      unfold entry_dist. cbn [fst]. qlra.
    + intros Hu. apply (Hold u' (fun e => entry_dist e <= su)).
      apply (inv_seen Hinv _ _ Hu).
  - intros x dx u' c' Hx Hedge' Hok'.
    destruct (inv_edges Hinv _ _ _ _ Hx Hedge' Hok')
      as [[-> [[= <- <-]|Hp]]|H].
    + right. right. exists (d + c, count st, u).
      split; [now left|]. split; [reflexivity|].
      rewrite (nodup_keys_same _ _ _ _ (inv_nodup Hinv) Hx Hvd).
      unfold entry_dist. cbn [fst]. qlra.
    + left. auto.
    + right. apply (Hold u' (fun e => entry_dist e <= dx + c')). exact H.
  - apply (Hold s (fun e => entry_dist e == 0)). apply (inv_source Hinv).
Qed.

(** One neighbour: never [ValueError], and the invariant goes on. *)
Lemma relax_step st pending v d u c :
  invariant st ((u, c) :: pending) v d -> In (v, d) (dist st) ->
  In (u, c) (neighbors G v) ->
  exists st',
    relax cutoff d st (u, c) = Ok st'
    /\ invariant st' pending v d
    /\ dist st' = dist st
    /\ (List.length (fringe st') <= S (List.length (fringe st)))%nat.
Proof.
  intros Hinv Hvd Hedge. unfold relax.
  pose proof (Hnn _ _ _ Hedge) as Hc.
  assert (Hskip : (d + c <= cutoff ->
                   mem (dist st) u = true
                   \/ exists e, In e (fringe st) /\ snd e = u
                                /\ entry_dist e <= d + c) ->
                  exists st', Ok st = Ok st'
                    /\ invariant st' pending v d /\ dist st' = dist st
                    /\ (List.length (fringe st')
                        <= S (List.length (fringe st)))%nat).
  { intros H. exists st. split; [reflexivity|].
    split; [now apply (relax_skip st pending v d u c)|].
    split; [reflexivity | lia]. }
  assert (Hpush : d + c <= cutoff ->
                  exists st', Ok (push st u (d + c)) = Ok st'
                    /\ invariant st' pending v d /\ dist st' = dist st
                    /\ (List.length (fringe st')
                        <= S (List.length (fringe st)))%nat).
  { intros H. exists (push st u (d + c)). split; [reflexivity|].
    split; [now apply relax_push|]. split; [reflexivity | simpl; lia]. }
  destruct (Qlt_bool cutoff (d + c)) eqn:Ecut.
  - apply Qlt_bool_true in Ecut. apply Hskip. intros Hok. exfalso. qlra.
  - apply Qlt_bool_false in Ecut.
    destruct (get (dist st) u) as [ud|] eqn:Eu.
    + pose proof (inv_below Hinv _ _ (get_some_in _ _ _ Eu)) as Hud.
      replace (Qlt_bool (d + c) ud) with false
        by (symmetry; apply Qlt_bool_false; qlra).
      apply Hskip. intros _. left. unfold mem. now rewrite Eu.
    + destruct (get (seen st) u) as [su|] eqn:Es.
      * destruct (Qlt_bool (d + c) su) eqn:Elt; [now apply Hpush|].
        apply Qlt_bool_false in Elt. apply Hskip. intros _.
        destruct (inv_seen Hinv _ _ Es) as [H|[e [He [Hu Hle]]]].
        -- unfold mem in H. rewrite Eu in H. discriminate.
        -- right. exists e. split; [exact He|]. split; [exact Hu | qlra].
      * now apply Hpush.
Qed.

Lemma relax_all_ok pending : forall st v d,
  invariant st pending v d -> In (v, d) (dist st) ->
  incl pending (neighbors G v) ->
  exists st',
    relax_all cutoff d st pending = Ok st'
    /\ invariant st' [] v d
    /\ dist st' = dist st
    /\ (List.length (fringe st')
        <= List.length (fringe st) + List.length pending)%nat.
Proof.
  induction pending as [|[u c] pending IH]; intros st v d Hinv Hvd Hincl.
  - exists st. simpl. split; [reflexivity|]. split; [exact Hinv|].
    split; [reflexivity | lia].
  - destruct (relax_step st pending v d u c Hinv Hvd)
      as [st1 [Hr [Hinv1 [Hd1 Hl1]]]].
    { apply Hincl. now left. }
    destruct (IH st1 v d Hinv1) as [st2 [Hr2 [Hinv2 [Hd2 Hl2]]]].
    { now rewrite Hd1. }
    { intros x Hx. apply Hincl. now right. }
    exists st2. cbn [relax_all]. rewrite Hr.
    split; [exact Hr2|]. split; [exact Hinv2|].
    split; [congruence | simpl; lia].
Qed.

Lemma mem_snoc_bool (D : dict Q) v d k :
  mem (D ++ [(v, d)]) k = orb (mem D k) (String.eqb k v).
Proof.
  destruct (mem (D ++ [(v, d)]) k) eqn:E.
  - apply mem_snoc in E. symmetry. apply orb_true_iff.
    destruct E as [E| ->]; [now left | right; apply String.eqb_refl].
  - symmetry. apply orb_false_iff.
    destruct (mem D k) eqn:E1.
    + assert (mem (D ++ [(v, d)]) k = true) by (apply mem_snoc; now left).
      congruence.
    + split; auto. destruct (String.eqb_spec k v) as [->|]; auto.
      assert (mem (D ++ [(v, d)]) v = true) by (apply mem_snoc; now right).
      congruence.
Qed.

Lemma undone_mono L D v d : (undone L (D ++ [(v, d)]) <= undone L D)%nat.
Proof.
  induction L as [|[k nb] L IH]; simpl; [lia|].
  rewrite mem_snoc_bool. destruct (mem D k); simpl; [exact IH|].
  destruct (String.eqb k v); lia.
Qed.

Lemma undone_fix L D v d :
  mem D v = false ->
  (undone L (D ++ [(v, d)]) + List.length (neighbors L v) <= undone L D)%nat.
Proof.
  intros Hv. unfold neighbors. induction L as [|[k nb] L IH]; simpl; [lia|].
  rewrite mem_snoc_bool. destruct (String.eqb_spec k v) as [->|Hne].
  - rewrite Hv. simpl. pose proof (undone_mono L D v d). lia.
  - rewrite orb_false_r. destruct (mem D k); lia.
Qed.

Lemma undone_nil L : undone L [] = degree_sum L.
Proof. induction L as [|[k nb] L IH]; simpl; auto. Qed.

Lemma loop_ok fuel : forall st cur dcur,
  invariant st [] cur dcur -> (potential st < fuel)%nat ->
  exists res, dijkstra_loop G cutoff fuel st = Ok res /\ final res.
Proof.
  induction fuel as [|fuel IH]; intros st cur dcur Hinv Hpot; [lia|].
  cbn [dijkstra_loop].
  destruct (heappop (fringe st)) as [[[[d k] v] rest]|] eqn:Epop.
  - pose proof (heappop_some _ _ _ Epop) as [Hp _].
    apply Permutation_length in Hp. cbn [List.length] in Hp.
    destruct (mem (dist st) v) eqn:Ev.
    + apply (IH _ cur dcur).
      * now apply (pop_stale st cur dcur (d, k, v) rest).
      * unfold potential in *. cbn [fringe dist]. lia.
    + pose proof (pop_fresh st cur dcur d k v rest Hinv Epop Ev) as Hinv1.
      destruct (relax_all_ok (neighbors G v) _ v d Hinv1)
        as [st2 [Hr [Hinv2 [Hd2 Hl2]]]].
      * cbn [dist]. apply get_some_in, get_set_same.
      * apply incl_refl.
      * rewrite Hr. apply (IH _ v d Hinv2).
        unfold potential in *. rewrite Hd2. cbn [dist fringe] in *.
        rewrite (set_not_mem (dist st) v d) by now apply mem_false_iff.
        pose proof (undone_fix G (dist st) v d Ev). lia.
  - apply heappop_none in Epop. exists (dist st). split; [reflexivity|].
    split; [apply (inv_dist Hinv)|]. split; [apply (inv_nodup Hinv)|].
    split; [apply (inv_sorted Hinv)|]. split.
    + intros v w Hw Hle.
      destruct (frontier st cur dcur v w Hinv Hw)
        as [[d [Hd _]]|[[e [He _]]|Hgt]].
      * apply mem_true_iff. eapply in_value_keys; eauto.
      * rewrite Epop in He. contradiction.
      * exfalso. qlra.
    + destruct (inv_source Hinv) as [H|[e [He _]]]; auto.
      rewrite Epop in He. contradiction.
Qed.

Lemma initial_invariant : invariant (initial s) [] s 0.
Proof.
  constructor; cbn [initial dist seen fringe count].
  - intros v d [].
  - constructor.
  - constructor.
  - intros v d [].
  - intros e [<-|[]]. unfold entry_dist. cbn [fst snd].
    split; [apply walk_here; qlra|]. split; [right; split; [reflexivity|qlra] | qlra].
  - intros u su. simpl. destruct (String.eqb_spec s u) as [<-|]; [|discriminate].
    intros [= <-]. right. exists (0, 0%nat, s). split; [now left|].
    split; [reflexivity|]. unfold entry_dist. cbn [fst]. qlra.
  - intros v d u c [].
  - right. exists (0, 0%nat, s). split; [now left|]. split; [reflexivity|].
    unfold entry_dist. cbn [fst]. qlra.
Qed.

(** The search from a node of the graph ends, without error, with the
    nodes within the cutoff, their shortest distances, nearest first. *)
Lemma dijkstra_ok :
  has_node G s = true ->
  exists res,
    single_source_dijkstra_path_length G s cutoff = Ok res /\ final res.
Proof.
  intros Hs. unfold single_source_dijkstra_path_length. rewrite Hs.
  apply (loop_ok _ _ s 0 initial_invariant).
  unfold potential. cbn [initial fringe dist List.length].
  rewrite undone_nil. lia.
Qed.

End Dijkstra.

Import PeakPredictor.

Lemma first_with_model_some fm tfs tf d m :
  first_with_model fm tfs = Some (tf, d, m) ->
  In (tf, d) tfs /\ get fm tf = Some m
  /\ (StronglySorted by_distance tfs ->
      forall tf' d', In (tf', d') tfs -> get fm tf' <> None -> d <= d').
Proof.
  induction tfs as [|[x dx] tfs IH]; simpl; [discriminate|].
  destruct (get fm x) as [mx|] eqn:E.
  - intros [= <- <- <-]. split; [now left|]. split; [exact E|].
    intros Hs tf' d' [[= <- <-]|Hin] _; [qlra|].
    inversion Hs as [|? ? _ Hall]; subst. rewrite Forall_forall in Hall.
    apply (Hall _ Hin).
  - intros H. destruct (IH H) as [Hin [Hm Hmin]].
    split; [now right|]. split; [exact Hm|].
    intros Hs tf' d' [[= <- <-]|Hin'] Hne; [congruence|].
    inversion Hs; subst. now apply (Hmin H2 tf').
Qed.

Lemma first_with_model_none fm tfs :
  first_with_model fm tfs = None ->
  forall tf d, In (tf, d) tfs -> get fm tf = None.
Proof.
  induction tfs as [|[x dx] tfs IH]; simpl; [intros _ ? ? []|].
  destruct (get fm x) eqn:E; [discriminate|].
  intros H tf d [[= <- <-]|Hin]; [exact E | eauto].
Qed.

Lemma walk_from_node G s v w :
  walk G s v w -> v = s \/ has_node G s = true.
Proof.
  induction 1 as [|v u c w w' Hw IH Hedge _]; [now left|]. right.
  destruct IH as [->|H]; [|exact H].
  unfold has_node, mem. unfold neighbors in Hedge.
  destruct (get G s); [reflexivity | contradiction].
Qed.

(** The last step: the model under the key [general], and a [KeyError]
    when the registry has no such key. *)
Lemma general_model_outcomes fm factor :
  (forall g, get fm "general"%string = Some g ->
             general_model fm factor = Ok (g, factor))
  /\ (get fm "general"%string = None ->
      general_model fm factor = Raise KeyError).
Proof.
  unfold general_model. split.
  - intros g Hg. now rewrite Hg.
  - intros Hg. now rewrite Hg.
Qed.

(** C1: the model for a factor is chosen in three steps.  A model under
    the factor's own name is used when there is one.  Otherwise, for a
    factor that is a node of the motif graph (with non-negative weights),
    the search visits the nodes within distance [1 - jaccard_cutoff] by
    increasing shortest-path distance and the first one with a model is
    used: it has a model, its distance is at most the cutoff, and no
    factor with a model is nearer; when no factor with a model is within
    the cutoff, or the factor is no node of the graph, the model that the
    registry holds under the key [general] is used, and the call raises
    [KeyError] when there is no such key.  In particular a factor [Y]
    with a model within the cutoff, nearer than every other factor with a
    model, gives its model. *)
Theorem model_selection_priority :
  forall (self : PeakPredictor.t) (fm : PeakPredictor.registry)
         (factor : string) (jaccard_cutoff : Q),
    Spec.nonnegative (PeakPredictor.motif_graph self) ->
    let G := PeakPredictor.motif_graph self in
    let cutoff := 1 - jaccard_cutoff in
    let result := PeakPredictor._load_model self fm factor jaccard_cutoff in
    (forall m, get fm factor = Some m -> result = Ok (m, factor))
    /\ (get fm factor = None -> Nx.has_node G factor = true ->
        exists tfs,
          Nx.single_source_dijkstra_path_length G factor cutoff = Ok tfs
          /\ StronglySorted Spec.by_distance tfs
          /\ ((exists tf d m,
                 PeakPredictor.first_with_model fm tfs = Some (tf, d, m)
                 /\ result = Ok (m, factor)
                 /\ get fm tf = Some m
                 /\ Spec.shortest G factor tf d /\ d <= cutoff
                 /\ forall tf' d' m',
                      get fm tf' = Some m' -> Spec.shortest G factor tf' d' ->
                      d' <= cutoff -> d <= d')
              \/ (PeakPredictor.first_with_model fm tfs = None
                  /\ ((forall g, get fm "general"%string = Some g ->
                                 result = Ok (g, factor))
                      /\ (get fm "general"%string = None ->
                          result = Raise KeyError))
                  /\ forall tf' d' m',
                       get fm tf' = Some m' ->
                       Spec.shortest G factor tf' d' -> cutoff < d')))
    /\ (get fm factor = None -> Nx.has_node G factor = false ->
        (forall g, get fm "general"%string = Some g ->
                   result = Ok (g, factor))
        /\ (get fm "general"%string = None -> result = Raise KeyError))
    /\ (forall Y d m,
          get fm factor = None -> get fm Y = Some m ->
          Spec.shortest G factor Y d -> d <= cutoff ->
          (forall Z dz mz, Z <> Y -> get fm Z = Some mz ->
                           Spec.shortest G factor Z dz -> d < dz) ->
          result = Ok (m, factor)).
Proof.
  intros self fm factor jc Hnn G cutoff result.
  assert (Hown : forall m, get fm factor = Some m -> result = Ok (m, factor)).
  { intros m Hm. unfold result, _load_model. now rewrite Hm. }
  assert (Hgraph : get fm factor = None -> Nx.has_node G factor = true ->
    exists tfs,
      Nx.single_source_dijkstra_path_length G factor cutoff = Ok tfs
      /\ StronglySorted Spec.by_distance tfs
      /\ ((exists tf d m,
             first_with_model fm tfs = Some (tf, d, m)
             /\ result = Ok (m, factor)
             /\ get fm tf = Some m
             /\ Spec.shortest G factor tf d /\ d <= cutoff
             /\ forall tf' d' m',
                  get fm tf' = Some m' -> Spec.shortest G factor tf' d' ->
                  d' <= cutoff -> d <= d')
          \/ (first_with_model fm tfs = None
              /\ ((forall g, get fm "general"%string = Some g ->
                             result = Ok (g, factor))
                  /\ (get fm "general"%string = None ->
                      result = Raise KeyError))
              /\ forall tf' d' m',
                   get fm tf' = Some m' ->
                   Spec.shortest G factor tf' d' -> cutoff < d'))).
  { intros Hnone Hnode.
    destruct (dijkstra_ok G factor cutoff Hnn Hnode)
      as [tfs [Hrun [Hdist [Hnd [Hsorted [Hall Hsrc]]]]]].
    exists tfs. split; [exact Hrun|]. split; [exact Hsorted|].
    assert (Hres : result = match first_with_model fm tfs with
                            | Some (_, _, m) => Ok (m, factor)
                            | None => general_model fm factor
                            end).
    { unfold result, _load_model. rewrite Hnone. fold G. rewrite Hnode.
      fold cutoff. now rewrite Hrun. }
    assert (Hcand : forall tf' d' m',
              get fm tf' = Some m' -> Spec.shortest G factor tf' d' ->
              d' <= cutoff ->
              exists d'', In (tf', d'') tfs /\ d'' <= d').
    { intros tf' d' m' Hm' [Hw' Hmin'] Hle.
      specialize (Hall tf' d' Hw' Hle).
      apply mem_true_iff, in_keys_value in Hall. destruct Hall as [d'' Hin].
      exists d''. split; [exact Hin|].
      destruct (Hdist _ _ Hin) as [[_ Hmin''] _]. now apply Hmin''. }
    destruct (first_with_model fm tfs) as [[[tf d] m]|] eqn:Efirst.
    - left. exists tf, d, m.
      destruct (first_with_model_some fm tfs tf d m Efirst)
        as [Hin [Hm Hleast]].
      destruct (Hdist _ _ Hin) as [Hshort Hcut].
      split; [reflexivity|]. split; [exact Hres|]. split; [exact Hm|].
      split; [exact Hshort|]. split.
      + destruct Hcut as [Hcut| ->]; [exact Hcut | congruence].
      + intros tf' d' m' Hm' Hs' Hle'.
        destruct (Hcand tf' d' m' Hm' Hs' Hle') as [d'' [Hin'' Hle'']].
        assert (d <= d'') by (apply (Hleast Hsorted tf'); [exact Hin''|congruence]).
        qlra.
    - right. split; [reflexivity|].
      split; [rewrite Hres; apply general_model_outcomes|].
      intros tf' d' m' Hm' Hs'.
      destruct (Qlt_le_dec cutoff d') as [Hgt|Hle]; [exact Hgt|].
      destruct (Hcand tf' d' m' Hm' Hs' Hle) as [d'' [Hin'' _]].
      rewrite (first_with_model_none fm tfs Efirst tf' d'' Hin'') in Hm'.
      discriminate. }
  split; [exact Hown|]. split; [exact Hgraph|]. split.
  - intros Hnone Hnode. unfold result, _load_model. rewrite Hnone. fold G.
    rewrite Hnode. apply general_model_outcomes.
  - intros Y d m Hnone HY Hshort Hle Hnear.
    assert (Hnode : Nx.has_node G factor = true).
    { destruct Hshort as [Hw _].
      destruct (walk_from_node G factor Y d Hw) as [->|H]; [congruence|exact H]. }
    destruct (Hgraph Hnone Hnode)
      as [tfs [_ [_ [[tf [dtf [mtf [_ [Hres [Hm [Hs [Hc Hmin]]]]]]]]
                    |[_ [_ Hfar]]]]]].
    + destruct (String.eqb_spec tf Y) as [->|Hne].
      * rewrite Hres. congruence.
      * specialize (Hmin Y d m HY Hshort Hle).
        specialize (Hnear tf dtf mtf Hne Hm Hs). exfalso. qlra.
    + specialize (Hfar Y d m HY Hshort). exfalso. qlra.
Qed.

Lemma in_set_inv {V : Type} (d : dict V) k v x :
  In x (set d k v) -> x = (k, v) \/ In x d.
Proof.
  induction d as [|[k' v'] d IH]; simpl.
  - intros [<-|[]]. now left.
  - destruct (String.eqb k' k) eqn:E.
    + apply String.eqb_eq in E. subst. intros [<-|H]; auto.
    + intros [<-|H]; auto. destruct (IH H); auto.
Qed.

Lemma in_neighbors_add_edge G a b w v u c :
  In (u, c) (neighbors (add_edge G a b w) v) ->
  c = w \/ In (u, c) (neighbors G v).
Proof.
  unfold add_edge. rewrite !neighbors_set, !neighbors_ensure.
  destruct (String.eqb_spec b v), (String.eqb_spec a b), (String.eqb_spec a v);
    subst; intros H;
    repeat (apply in_set_inv in H; destruct H as [[= _ ->]|H]);
    auto; congruence.
Qed.

Lemma length_intersection_le a b :
  (List.length (intersection a b) <= List.length (union a b))%nat.
Proof.
  unfold intersection, union. rewrite length_app.
  pose proof (filter_length_le (contains b) a). lia.
Qed.

Lemma jaccard_weight_nonneg a b w : jaccard_weight a b = Some w -> 0 <= w.
Proof.
  unfold jaccard_weight.
  destruct (0 <? List.length (intersection a b))%nat eqn:Ei; [|discriminate].
  destruct (0 <? List.length (union a b))%nat eqn:Eu; [|discriminate].
  intros [= <-]. apply Nat.ltb_lt in Eu.
  pose proof (length_intersection_le a b) as Hle.
  assert (H : inject_Z (Z.of_nat (List.length (intersection a b)))
              / inject_Z (Z.of_nat (List.length (union a b))) <= 1).
  { apply Qle_shift_div_r.
    - replace 0 with (inject_Z 0) by reflexivity. rewrite <- Zlt_Qlt. lia.
    - rewrite Qmult_1_l. rewrite <- Zle_Qle. lia. }
  qlra.
Qed.

(** The weights of the motif similarity graph are not negative. *)
Lemma jaccard_graph_nonnegative c order G :
  _jaccard_motif_graph c order = Ok G -> nonnegative G.
Proof.
  unfold _jaccard_motif_graph.
  assert (H : forall G0 G', nonnegative G0 -> add_pairs c G0 order = Ok G' ->
                            nonnegative G').
  { induction order as [|p ps IH]; intros G0 G' H0; simpl.
    - now intros [= <-].
    - unfold add_pair.
      destruct (get c (fst p)) as [s1|]; [|discriminate].
      destruct (get c (snd p)) as [s2|]; [|discriminate].
      destruct (jaccard_weight s1 s2) as [w|] eqn:Ew; apply IH; auto.
      intros v u x Hin. apply in_neighbors_add_edge in Hin.
      destruct Hin as [->|Hin]; [|eapply H0; eauto].
      eapply jaccard_weight_nonneg; eauto. }
  apply H. intros v u x Hin. unfold neighbors in Hin. simpl in Hin. contradiction.
Qed.

(** The example of the specification, run: the search from [X] reaches
    [Y] at distance 1/5, and the model of [Y] is returned. *)
Example load_model_of_related_factor :
  exists G,
    Examples.related_graph = Ok G
    /\ single_source_dijkstra_path_length G "X" (1 - (1 # 10))
       = Ok [("X"%string, 0); ("Y"%string, 1 # 5)]
    /\ _load_model (Examples.related G) Examples.related_models "X" (1 # 10)
       = Ok (mkModel "ATAC_motif" "Y.pkl", "X"%string)
    /\ _load_model (Examples.related G) Examples.related_models "W" (1 # 10)
       = Ok (mkModel "ATAC_motif" "general.pkl", "W"%string).
Proof.
  eexists. split; [vm_compute; reflexivity|].
  split; [|split]; vm_compute; reflexivity.
Qed.

Lemma model_selection_priority_witness :
  exists G,
    Examples.related_graph = Ok G
    /\ edge_weight G "X" "Y" = Some (1 - inject_Z 4 / inject_Z 5)
    /\ _load_model (Examples.related G) Examples.related_models "X" (1 # 10)
       = Ok (mkModel "ATAC_motif" "Y.pkl", "X"%string).
Proof.
  destruct Examples.related_graph as [G|] eqn:EG; [|discriminate EG].
  exists G. split; [reflexivity|].
  assert (HG : G = [("X"%string, [("Y"%string, 1 - inject_Z 4 / inject_Z 5)]);
                    ("Y"%string, [("X"%string, 1 - inject_Z 4 / inject_Z 5)])]).
  { vm_compute in EG. injection EG as <-. reflexivity. }
  split; [rewrite HG; reflexivity|].
  assert (Hnb : forall v u c, In (u, c) (neighbors G v) ->
            (v = "X"%string /\ u = "Y"%string \/ v = "Y"%string /\ u = "X"%string)
            /\ c = 1 - inject_Z 4 / inject_Z 5).
  { intros v u c. rewrite HG. unfold neighbors. cbn [get].
    destruct (String.eqb_spec "X" v) as [<-|_].
    - intros [[= <- <-]|[]]. auto.
    - destruct (String.eqb_spec "Y" v) as [<-|_]; [|intros []].
      intros [[= <- <-]|[]]. auto. }
  assert (Hxy : In ("Y"%string, 1 - inject_Z 4 / inject_Z 5)
                   (neighbors G "X")) by (rewrite HG; now left).
  clear HG.
  assert (Hnn : nonnegative (motif_graph (Examples.related G))).
  { apply (jaccard_graph_nonnegative _ _ G EG). }
  refine (proj2 (proj2 (proj2 (model_selection_priority (Examples.related G)
            Examples.related_models "X" (1 # 10) Hnn)))
            "Y"%string (1 # 5) _ eq_refl eq_refl _ _ _).
  - split.
    + apply (walk_edge G "X" "X" "Y" (1 - inject_Z 4 / inject_Z 5) 0 (1 # 5)).
      * apply walk_here. reflexivity.
      * exact Hxy.
      * reflexivity.
    + intros w Hw. inversion Hw as [|v u c w0 w' Hw0 Hedge Heq]; subst.
      destruct (Hnb _ _ _ Hedge) as [_ ->].
      pose proof (walk_nonneg G "X" v w0 Hnn Hw0) as H0.
      assert (E : 1 - inject_Z 4 / inject_Z 5 == 1 # 5) by reflexivity.
      rewrite Heq, E. qlra.
  - vm_compute. discriminate.
  - intros Z dz mz Hne Hm [Hw _]. exfalso.
    unfold Examples.related_models in Hm. cbn [get] in Hm.
    destruct (String.eqb_spec "general" Z) as [<-|_].
    + inversion Hw as [|v u c w0 w' Hw0 Hedge Heq].
      destruct (Hnb _ _ _ Hedge) as [[[_ HZ]|[_ HZ]] _]; discriminate HZ.
    + destruct (String.eqb_spec "Y" Z) as [<-|_]; [congruence | discriminate].
Defined.

End ShortestPaths.

(* ================================================================== *)
(** * Further properties of the peak predictor *)
(* ================================================================== *)

(** ** The model type *)

Section ModelColumns.

Import PeakPredictor.
Local Open Scope string_scope.

(** X1: which columns [_set_model_type] selects.  [motif] is always a
    column; [ATAC] is one exactly when ATAC data is loaded, [ATAC.relative]
    when moreover the regions are the reference regions, [H3K27ac] exactly
    when histone data is loaded, [average] and [dist] exactly for reference
    regions.  No other name is ever selected (so no [H3K27ac.relative]),
    the columns are in strictly increasing order of their code points, and
    the model type is their names joined by underscores. *)
Theorem model_columns_by_data :
  forall (self : PeakPredictor.t) (fm : PeakPredictor.registry),
    let r := fst (PeakPredictor._set_model_type self fm) in
    let cols := PeakPredictor._X_columns r in
    In "motif" cols
    /\ (In "ATAC" cols <-> atac_data self <> None)
    /\ (In "ATAC.relative" cols
        <-> atac_data self <> None /\ region_type self = reference)
    /\ (In "H3K27ac" cols <-> histone_data self <> None)
    /\ (In "average" cols <-> region_type self = reference)
    /\ (In "dist" cols <-> region_type self = reference)
    /\ (forall c, In c cols ->
          In c ["ATAC"; "ATAC.relative"; "H3K27ac"; "average"; "dist"; "motif"])
    /\ StronglySorted (fun a b => String.ltb a b = true) cols
    /\ _model_type r = join "_" cols.
Proof.
  intros self fm r cols. subst r cols.
  unfold _set_model_type. cbn [fst with_model_type _X_columns _model_type].
  unfold model_columns.
  destruct (atac_data self) as [a|], (histone_data self) as [h|],
    (region_type self); cbn.
  all: repeat split.
  all: try solve [repeat constructor].
  all: try solve [intuition (try discriminate; try congruence)].
Qed.

End ModelColumns.

(** ** The registry of models *)

Section Registry.

Import PeakPredictor.
Local Open Scope string_scope.

(** The entry of a key after loading: the model of the last listed file
    of the key, or else the entry it had. *)
Lemma load_models_get dir files fm k :
  get (load_models dir files fm) k
  = match find (names_factor k) (rev files) with
    | Some file => Some (mkModel dir file)
    | None => get fm k
    end.
Proof.
  induction files as [|x files IH] using rev_ind; [reflexivity|].
  rewrite load_models_snoc, get_set, rev_app_distr. cbn [rev app find].
  unfold names_factor at 1.
  destruct (String.eqb (replace_pkl 0 x) k); [reflexivity | exact IH].
Qed.

Lemma load_models_mem dir files fm k :
  mem fm k = true -> mem (load_models dir files fm) k = true.
Proof.
  unfold mem. rewrite load_models_get.
  destruct (find (names_factor k) (rev files)); auto.
Qed.

Lemma load_models_has dir files fm file :
  In file files -> mem (load_models dir files fm) (replace_pkl 0 file) = true.
Proof.
  intros Hin. unfold mem. rewrite load_models_get.
  destruct (find (names_factor (replace_pkl 0 file)) (rev files)) eqn:E; auto.
  apply in_rev in Hin. pose proof (find_none _ _ E file Hin) as H.
  unfold names_factor in H. rewrite String.eqb_refl in H. discriminate.
Qed.

Lemma load_models_keys dir files fm :
  (forall file, In file files -> mem fm (replace_pkl 0 file) = true) ->
  keys (load_models dir files fm) = keys fm.
Proof.
  induction files as [|x files IH] using rev_ind; intros H; [reflexivity|].
  rewrite load_models_snoc, keys_set.
  rewrite load_models_mem by (apply H, in_or_app; right; now left).
  apply IH. intros file Hin. apply H, in_or_app. now left.
Qed.

(** X2: [_set_model_type] called again without new data changes nothing:
    the instance is the same, and the registry has the same keys in the
    same order and the same model under every key. *)
Theorem set_model_type_again :
  forall (self : PeakPredictor.t) (fm : PeakPredictor.registry),
    let r1 := PeakPredictor._set_model_type self fm in
    let r2 := PeakPredictor._set_model_type (fst r1) (snd r1) in
    fst r2 = fst r1
    /\ keys (snd r2) = keys (snd r1)
    /\ (forall f, get (snd r2) f = get (snd r1) f).
Proof.
  intros self fm r1 r2. subst r1 r2. unfold _set_model_type.
  cbn [fst snd].
  assert (Hc : model_columns
                 (with_model_type self (model_columns self)
                    (join "_" (model_columns self)))
               = model_columns self) by reflexivity.
  rewrite Hc. cbn [with_model_type data_dir].
  split; [reflexivity|]. split.
  - apply load_models_keys. intros file Hin. now apply load_models_has.
  - intros f. rewrite !load_models_get.
    destruct (find (names_factor f)
                (rev (data_dir self (join "_" (model_columns self)))));
      reflexivity.
Qed.

Lemma occurs_dot_prefix c s :
  Spec.occurs "."%char (String c s) = false ->
  forall t, String.prefix ".pkl" (String c t) = false.
Proof.
  cbn [Spec.occurs]. intros H t. apply orb_false_iff in H. destruct H as [H _].
  apply Ascii.eqb_neq in H. cbn [String.prefix].
  destruct (ascii_dec "."%char c) as [E|E]; [congruence | reflexivity].
Qed.

(** [<name>.pkl] gives back [name] when the name holds no dot. *)
Lemma replace_pkl_suffix name :
  Spec.occurs "."%char name = false ->
  replace_pkl 0 (name ++ ".pkl")%string = name.
Proof.
  induction name as [|c name IH]; intros H; [reflexivity|].
  cbn [append replace_pkl].
  rewrite (occurs_dot_prefix c name H).
  f_equal. apply IH. simpl in H. apply orb_false_iff in H. tauto.
Qed.

(** X3: from file name to factor and back.  When the model directory
    holds the files [<name>.pkl] for names without a dot, every such name
    is afterwards a key of the registry, and its model is the one loaded
    from its own file, whatever the registry held before. *)
Theorem model_file_round_trip :
  forall (dir : string) (names : list string) (fm : PeakPredictor.registry)
         (f : string),
    (forall n, In n names -> Spec.occurs "."%char n = false) ->
    In f names ->
    get (PeakPredictor.load_models dir
           (map (fun n => (n ++ ".pkl")%string) names) fm) f
    = Some (PeakPredictor.mkModel dir (f ++ ".pkl")%string).
Proof.
  intros dir names fm f Hdot Hin. rewrite load_models_get.
  destruct (find (names_factor f)
              (rev (map (fun n => (n ++ ".pkl")%string) names)))
    as [file|] eqn:E.
  - apply find_some in E. destruct E as [Hfile Hk].
    apply in_rev, in_map_iff in Hfile. destruct Hfile as [n [<- Hn]].
    unfold names_factor in Hk. apply String.eqb_eq in Hk.
    rewrite replace_pkl_suffix in Hk by auto. now subst n.
  - assert (Hf : In (f ++ ".pkl")%string
                   (rev (map (fun n => (n ++ ".pkl")%string) names))).
    { apply in_rev. rewrite rev_involutive. apply in_map_iff. eauto. }
    pose proof (find_none _ _ E _ Hf) as H. unfold names_factor in H.
    rewrite replace_pkl_suffix, String.eqb_refl in H by auto. discriminate.
Qed.

Lemma model_file_round_trip_witness :
  get (load_models "ATAC_motif"
         (map (fun n => (n ++ ".pkl")%string) ["general"; "GATA1"])
         Examples.related_models) "general"
  = Some (mkModel "ATAC_motif" "general.pkl").
Proof.
  apply (model_file_round_trip "ATAC_motif" ["general"; "GATA1"]
           Examples.related_models "general").
  - intros n [<-|[<-|[]]]; reflexivity.
  - now left.
Defined.

End Registry.

(** ** The choice of a model *)

Section ModelChoice.

Import Nx Spec PeakPredictor.
Local Open Scope string_scope.
Local Open Scope Q_scope.

Lemma general_model_inv fm factor r :
  general_model fm factor = r ->
  match r with
  | Ok (m, f') => f' = factor /\ get fm "general" = Some m
  | Raise e => e = KeyError /\ get fm "general" = None
  end.
Proof.
  unfold general_model. destruct (get fm "general"); intros <-; auto.
Qed.

(** What [_load_model] can give on a graph without negative weights. *)
Lemma load_model_cases self fm factor jc :
  nonnegative (motif_graph self) ->
  (exists m k, _load_model self fm factor jc = Ok (m, factor)
               /\ get fm k = Some m)
  \/ (_load_model self fm factor jc = Raise KeyError
      /\ get fm "general" = None /\ get fm factor = None).
Proof.
  intros Hnn. unfold _load_model.
  destruct (get fm factor) as [m0|] eqn:Eown; [left; eauto|].
  assert (Hgen : (exists m k, general_model fm factor = Ok (m, factor)
                              /\ get fm k = Some m)
                 \/ (general_model fm factor = Raise KeyError
                     /\ get fm "general" = None /\ None = @None Model)).
  { unfold general_model. destruct (get fm "general") as [g|] eqn:Eg.
    - left. exists g, "general"%string. auto.
    - right. auto. }
  destruct (has_node (motif_graph self) factor) eqn:Enode; [|exact Hgen].
  destruct (dijkstra_ok (motif_graph self) factor (1 - jc) Hnn Enode)
    as [tfs [-> _]].
  destruct (first_with_model fm tfs) as [[[tf d] m]|] eqn:Efirst;
    [|exact Hgen].
  apply first_with_model_some in Efirst. destruct Efirst as [_ [Hm _]].
  left. eauto.
Qed.

(** X4: the outcomes of [_load_model] on a motif graph without negative
    weights (as [_jaccard_motif_graph] builds it).  A result is always the
    requested factor name with a model of the registry; a registry with a
    [general] model always gives a result; and the only failure is a
    [KeyError], which needs a registry with neither a [general] model nor
    a model of the factor. *)
Theorem load_model_outcomes :
  forall (self : PeakPredictor.t) (fm : PeakPredictor.registry)
         (factor : string) (jaccard_cutoff : Q),
    Spec.nonnegative (PeakPredictor.motif_graph self) ->
    let result := PeakPredictor._load_model self fm factor jaccard_cutoff in
    (forall m f', result = Ok (m, f') ->
       f' = factor /\ exists k, get fm k = Some m)
    /\ (forall g, get fm "general" = Some g ->
          exists m, result = Ok (m, factor))
    /\ (forall e, result = Raise e ->
          e = KeyError /\ get fm "general" = None /\ get fm factor = None).
Proof.
  intros self fm factor jc Hnn result. subst result.
  destruct (load_model_cases self fm factor jc Hnn)
    as [[m [k [-> Hk]]]|[-> [Hg Hf]]].
  - split; [|split].
    + intros m1 f' [= <- <-]. eauto.
    + eauto.
    + discriminate.
  - split; [|split].
    + discriminate.
    + congruence.
    + intros e [= <-]. auto.
Qed.

Lemma load_model_outcomes_witness :
  exists G,
    Examples.related_graph = Ok G
    /\ exists m,
         _load_model (Examples.related G) Examples.related_models "X" (1 # 10)
         = Ok (m, "X"%string).
Proof.
  destruct Examples.related_graph as [G|] eqn:EG; [|discriminate EG].
  exists G. split; [reflexivity|].
  exact (proj1 (proj2 (load_model_outcomes (Examples.related G)
                         Examples.related_models "X" (1 # 10)
                         (jaccard_graph_nonnegative _ _ G EG)))
           _ eq_refl).
Defined.

(** X5: with a [jaccard_cutoff] above one, a factor without a model of
    its own gets the general model, however similar the factors with
    models are: the search is cut off below zero and no distance is. *)
Theorem cutoff_above_one_gives_general :
  forall (self : PeakPredictor.t) (fm : PeakPredictor.registry)
         (factor : string) (jaccard_cutoff : Q),
    Spec.nonnegative (PeakPredictor.motif_graph self) ->
    get fm factor = None ->
    1 < jaccard_cutoff ->
    PeakPredictor._load_model self fm factor jaccard_cutoff
    = PeakPredictor.general_model fm factor.
Proof.
  intros self fm factor jc Hnn Hown Hjc. unfold _load_model. rewrite Hown.
  destruct (has_node (motif_graph self) factor) eqn:Enode; [|reflexivity].
  destruct (dijkstra_ok (motif_graph self) factor (1 - jc) Hnn Enode)
    as [tfs [-> Hfinal]].
  destruct (first_with_model fm tfs) as [[[tf d] m]|] eqn:Efirst;
    [|reflexivity].
  exfalso. apply first_with_model_some in Efirst.
  destruct Efirst as [Hin [Hm _]].
  destruct Hfinal as [Hdist _]. destruct (Hdist _ _ Hin) as [[Hw _] [Hd | ->]].
  - pose proof (walk_nonneg _ _ _ _ Hnn Hw). qlra.
  - congruence.
Qed.

Lemma cutoff_above_one_gives_general_witness :
  exists G,
    Examples.related_graph = Ok G
    /\ _load_model (Examples.related G) Examples.related_models "X" 2
       = Ok (mkModel "ATAC_motif" "general.pkl", "X"%string).
Proof.
  destruct Examples.related_graph as [G|] eqn:EG; [|discriminate EG].
  exists G. split; [reflexivity|].
  apply (cutoff_above_one_gives_general (Examples.related G)
           Examples.related_models "X" 2
           (jaccard_graph_nonnegative _ _ G EG)); reflexivity.
Defined.

End ModelChoice.

(** ** The feature rows *)

Section LoadData.

Import PeakPredictor.
Local Open Scope string_scope.

Lemma join_frames_raise frames e :
  fold_left (fun acc other => bind acc (fun tmp => join_frame tmp other))
            frames (Raise e) = Raise e.
Proof. induction frames as [|fr frames IH]; simpl; auto. Qed.

Lemma join_frames_ok frames : forall t0 tmp,
  fold_left (fun acc other => bind acc (fun tmp => join_frame tmp other))
            frames (Ok t0) = Ok tmp ->
  tmp = (t0 ++ List.concat frames)%list.
Proof.
  induction frames as [|fr frames IH]; intros t0 tmp; simpl.
  - intros [= <-]. now rewrite app_nil_r.
  - unfold join_frame at 2.
    destruct (existsb (contains (keys t0)) (keys fr)).
    + rewrite join_frames_raise. discriminate.
    + intros H. apply IH in H. now rewrite <- app_assoc in H.
Qed.

Lemma dropna_materialize index tmp :
  map fst (dropna (materialize index tmp)) = filter (complete tmp) index.
Proof.
  unfold dropna, materialize. induction index as [|r index IH]; simpl; auto.
  rewrite !map_map. cbn [snd].
  assert (E : forallb is_some (map (fun x => cell (snd x) r) tmp)
              = complete tmp r).
  { unfold complete. clear IH. induction tmp as [|c tmp IHt]; simpl; auto.
    now rewrite IHt. }
  rewrite E. destruct (complete tmp r); simpl; now rewrite IH.
Qed.

(** X6: the rows [_load_data] returns.  They are the regions, in the
    order of [regions], that have a value in the motif column of the
    factor and in every column of every frame joined to it - also in the
    columns that the model does not use, since [dropna] comes before the
    selection of the model columns; each row has one cell for each model
    column, and every model column is a column of the joined frame. *)
Theorem load_data_keeps_complete_regions :
  forall (self : PeakPredictor.t) (f : string)
         (x : list (string * list PeakPredictor.value)),
    PeakPredictor._load_data self f = Ok x ->
    exists motif,
      get (PeakPredictor._motifs self) f = Some motif
      /\ let tmp := ("motif", motif) :: List.concat (joined_frames self) in
         map fst x = filter (complete tmp) (PeakPredictor.regions self)
         /\ (forall row, In row x ->
               List.length (snd row)
               = List.length (PeakPredictor._X_columns self))
         /\ (forall c, In c (PeakPredictor._X_columns self) ->
               In c (keys tmp)).
Proof.
  intros self f x. unfold _load_data.
  destruct (get (_motifs self) f) as [motif|]; [|discriminate].
  intros H. exists motif. split; [reflexivity|].
  match type of H with
  | bind ?e _ = _ => destruct e as [tmp|] eqn:E; cbn [bind] in H
  end; [|discriminate].
  apply join_frames_ok in E. fold (joined_frames self) in E.
  cbn [app] in E. subst tmp. unfold select in H.
  match type of H with
  | (if ?c then _ else _) = _ => destruct c eqn:Ec
  end; [|discriminate].
  injection H as <-. cbn zeta. split; [|split].
  - rewrite map_map. cbn [fst]. apply dropna_materialize.
  - intros row Hrow. apply in_map_iff in Hrow. destruct Hrow as [r [<- _]].
    cbn [snd]. apply length_map.
  - intros c Hc. rewrite forallb_forall in Ec. apply contains_iff. auto.
Qed.

Lemma load_data_keeps_complete_regions_witness :
  exists motif,
    get (_motifs (fst Examples.after_init)) "B" = Some motif
    /\ ["chr1:100-300"]
       = filter (complete (("motif", motif)
                           :: List.concat
                                (joined_frames (fst Examples.after_init))))
                (regions (fst Examples.after_init)).
Proof.
  destruct (load_data_keeps_complete_regions (fst Examples.after_init) "B"
              [("chr1:100-300", [Some 1%Q; Some 1%Q])] eq_refl)
    as [motif [Hm [Hrows _]]].
  exists motif. split; [exact Hm | exact Hrows].
Defined.

End LoadData.

(** ** The loop of [predict_peaks] *)

Section PredictLoop.

Import Spec PeakPredictor.
Local Open Scope string_scope.

Variable proba : Model -> list value -> Q.

Lemma predict_proba_index self fm f jc tb :
  predict_proba proba self fm (Some f) None jc = Ok tb ->
  map fst tb = regions self
  /\ List.length (map snd tb) = List.length (regions self).
Proof.
  unfold predict_proba. destruct (negb (mem (f2m self) f)); [discriminate|].
  destruct (_load_model self fm f jc) as [mf|]; [|discriminate]. cbn [bind].
  destruct (_load_data self (snd mf)) as [x|]; [|discriminate]. cbn [bind].
  unfold new_frame.
  match goal with |- (if ?c then _ else _) = _ -> _ => destruct c eqn:E end;
    [|discriminate].
  apply Nat.eqb_eq in E. intros [= <-]. split.
  - now apply index_of_combine.
  - rewrite length_map, length_combine, E. apply Nat.min_id.
Qed.

Lemma mem_set {V : Type} (d : dict V) k v k' :
  mem (set d k v) k' = orb (String.eqb k k') (mem d k').
Proof. unfold mem. rewrite get_set. now destruct (String.eqb k k'). Qed.

(** What holds of the loop from any point on. *)
Lemma predict_factors_inv self fm jc fs : forall stored last,
  match predict_factors proba self fm jc fs stored last with
  | Stored series index =>
      (exists tb, index = map fst tb
                  /\ (last = Some tb
                      \/ exists f, In f fs
                           /\ predict_proba proba self fm (Some f) None jc
                              = Ok tb))
      /\ (forall k v, In (k, v) series ->
            In (k, v) stored
            \/ (In k fs
                /\ exists tb,
                     predict_proba proba self fm (Some k) None jc = Ok tb
                     /\ v = map snd tb))
      /\ (NoDup (keys stored) -> NoDup (keys series))
      /\ (forall k, mem stored k = true
                    \/ (In k fs
                        /\ exists tb,
                             predict_proba proba self fm (Some k) None jc
                             = Ok tb) ->
                    mem series k = true)
  | SystemExit1 =>
      last = None
      /\ forall f, In f fs ->
           predict_proba proba self fm (Some f) None jc = Raise ValueError
  | Uncaught e =>
      e <> ValueError
      /\ exists f, In f fs
           /\ predict_proba proba self fm (Some f) None jc = Raise e
  end.
Proof.
  induction fs as [|f fs IH]; intros stored last; cbn [predict_factors].
  - destruct last as [tb|].
    + split; [|split; [|split]]; eauto.
      intros k [H|[[] _]]. exact H.
    + split; [reflexivity | intros f []].
  - destruct (predict_proba proba self fm (Some f) None jc) as [tb|e] eqn:E.
    + specialize (IH (set stored f (map snd tb)) (Some tb)).
      destruct (predict_factors proba self fm jc fs
                  (set stored f (map snd tb)) (Some tb))
        as [| |series index].
      * destruct IH as [H _]. discriminate.
      * destruct IH as [Hne [f' [Hin Hf']]]. split; auto.
        exists f'. split; [now right | exact Hf'].
      * destruct IH as [[tb' [Hi Hlast]] [Hs [Hnd Hc]]].
        split; [|split; [|split]].
        -- exists tb'. split; auto. right.
           destruct Hlast as [[= <-]|[f' [Hin Hf']]].
           ++ exists f. split; [now left | exact E].
           ++ exists f'. split; [now right | exact Hf'].
        -- intros k v Hkv. destruct (Hs k v Hkv) as [H|[Hin Hk]].
           ++ apply in_set_inv in H. destruct H as [[= -> ->]|H]; auto.
              right. split; [now left | eauto].
           ++ right. split; [now right | exact Hk].
        -- intros H. apply Hnd. now apply nodup_keys_set.
        -- intros k Hk. apply Hc. rewrite mem_set.
           destruct Hk as [Hk|[[<-|Hin] Hk]].
           ++ left. rewrite Hk. apply orb_true_r.
           ++ left. now rewrite String.eqb_refl.
           ++ right. auto.
    + destruct e;
        try (split; [discriminate | exists f; split; [now left | exact E]]).
      specialize (IH stored last).
      destruct (predict_factors proba self fm jc fs stored last)
        as [| |series index].
      * destruct IH as [Hl Hall]. split; auto.
        intros f' [<-|Hin]; auto.
      * destruct IH as [Hne [f' [Hin Hf']]]. split; auto.
        exists f'. split; [now right | exact Hf'].
      * destruct IH as [[tb' [Hi Hlast]] [Hs [Hnd Hc]]].
        split; [|split; [|split]]; auto.
        -- exists tb'. split; auto. destruct Hlast as [H|[f' [Hin Hf']]]; auto.
           right. exists f'. split; [now right | exact Hf'].
        -- intros k v Hkv. destruct (Hs k v Hkv) as [H|[Hin Hk]]; auto.
           right. split; [now right | exact Hk].
        -- intros k [Hk|[[<-|Hin] [tb Hk]]]; auto.
           ++ congruence.
           ++ apply Hc. right. eauto.
Qed.

Lemma predict_factors_all_fail self fm jc fs : forall stored,
  (forall f, In f fs ->
     predict_proba proba self fm (Some f) None jc = Raise ValueError) ->
  predict_factors proba self fm jc fs stored None = SystemExit1.
Proof.
  induction fs as [|f fs IH]; intros stored H; cbn [predict_factors]; auto.
  rewrite (H f) by now left. apply IH. intros f' Hf'. apply H. now right.
Qed.

(** The first exception other than [ValueError] ends the loop. *)
Lemma predict_factors_abort self fm jc fs1 f fs2 e : forall stored last,
  (forall f', In f' fs1 ->
     predict_proba proba self fm (Some f') None jc = Raise ValueError
     \/ exists tb, predict_proba proba self fm (Some f') None jc = Ok tb) ->
  predict_proba proba self fm (Some f) None jc = Raise e ->
  e <> ValueError ->
  predict_factors proba self fm jc (fs1 ++ f :: fs2)%list stored last
  = Uncaught e.
Proof.
  induction fs1 as [|x fs1 IH]; intros stored last Hfs Hf He;
    cbn [app predict_factors].
  - rewrite Hf. destruct e; congruence.
  - destruct (Hfs x (or_introl eq_refl)) as [Hx|[tb Hx]]; rewrite Hx;
      apply IH; auto; intros f' Hf'; apply Hfs; now right.
Qed.

(** X7: how the loop of [predict_peaks] over the factors ends.  When it
    stores the predictions, the index written last is [regions], the keys
    of the store are distinct factors of the list, each series holds one
    probability for every region, and every factor whose prediction
    succeeded has its series in the store.  The run exits with status 1
    exactly when every factor raised [ValueError] (so also for an empty
    list of factors).  A [ValueError] is the only exception the loop
    survives: the first factor that raises another one ends the run with
    it, whatever the factors before it stored. *)
Theorem predict_peaks_loop_outcomes :
  forall (self : PeakPredictor.t) (fm : PeakPredictor.registry)
         (jaccard_cutoff : Q) (fs : list string),
    let run := PeakPredictor.predict_factors proba self fm jaccard_cutoff
                 fs [] None in
    let predict f :=
      PeakPredictor.predict_proba proba self fm (Some f) None jaccard_cutoff in
    (forall series index, run = PeakPredictor.Stored series index ->
       index = PeakPredictor.regions self
       /\ NoDup (keys series)
       /\ (forall f v, In (f, v) series ->
             In f fs
             /\ List.length v = List.length (PeakPredictor.regions self)
             /\ exists tb, predict f = Ok tb /\ v = map snd tb)
       /\ (forall f tb, In f fs -> predict f = Ok tb ->
             get series f = Some (map snd tb)))
    /\ (run = PeakPredictor.SystemExit1
        <-> forall f, In f fs -> predict f = Raise ValueError)
    /\ (forall e, run = PeakPredictor.Uncaught e ->
          e <> ValueError /\ exists f, In f fs /\ predict f = Raise e)
    /\ (forall fs1 f fs2 e,
          fs = (fs1 ++ f :: fs2)%list ->
          (forall f', In f' fs1 ->
             predict f' = Raise ValueError \/ exists tb, predict f' = Ok tb) ->
          predict f = Raise e -> e <> ValueError ->
          run = PeakPredictor.Uncaught e).
Proof.
  intros self fm jc fs run predict.
  pose proof (predict_factors_inv self fm jc fs [] None) as H. fold run in H.
  split; [|split; [|split]].
  - intros series index E. rewrite E in H.
    destruct H as [[tb [-> Hlast]] [Hs [Hnd Hc]]].
    destruct Hlast as [H|[f [Hin Hf]]]; [discriminate|].
    assert (Hall : forall f v, In (f, v) series ->
              In f fs
              /\ List.length v = List.length (regions self)
              /\ exists tb, predict f = Ok tb /\ v = map snd tb).
    { intros k v Hkv. destruct (Hs k v Hkv) as [[]|[Hk [tb' [Htb ->]]]].
      split; auto. split; [|eauto].
      apply (predict_proba_index _ _ _ _ _ Htb). }
    split; [apply (predict_proba_index _ _ _ _ _ Hf)|].
    split; [apply Hnd; constructor|]. split; [exact Hall|].
    intros k tbk Hk Hpk.
    assert (Hm : mem series k = true) by (apply Hc; right; eauto).
    unfold mem in Hm. destruct (get series k) as [v|] eqn:Eg; [|discriminate].
    apply get_some_in in Eg. destruct (Hall _ _ Eg) as [_ [_ [tb' [E1 ->]]]].
    unfold predict in E1, Hpk. congruence.
  - split.
    + intros E. rewrite E in H. apply H.
    + apply predict_factors_all_fail.
  - intros e E. rewrite E in H. exact H.
  - intros fs1 f fs2 e -> Hfs Hf He. now apply predict_factors_abort.
Qed.

(** X8: a factor of [f2m] without a column in the motif scores (as
    [_load_prescanned_motifs] leaves one whose motifs the score file
    lacks) cannot be predicted: [predict_proba] raises [KeyError] for it,
    which is the exception the loop of [predict_peaks] does not catch. *)
Theorem missing_motif_scores_raise_key_error :
  forall (self : PeakPredictor.t) (fm : PeakPredictor.registry)
         (f : string) (jaccard_cutoff : Q),
    Spec.nonnegative (PeakPredictor.motif_graph self) ->
    mem (PeakPredictor.f2m self) f = true ->
    get (PeakPredictor._motifs self) f = None ->
    PeakPredictor.predict_proba proba self fm (Some f) None jaccard_cutoff
    = Raise KeyError
    /\ forall fs,
         PeakPredictor.predict_factors proba self fm jaccard_cutoff
           (f :: fs) [] None
         = PeakPredictor.Uncaught KeyError.
Proof.
  intros self fm f jc Hnn Hmem Hmot.
  assert (H : predict_proba proba self fm (Some f) None jc = Raise KeyError).
  { unfold predict_proba. rewrite Hmem. cbn [negb].
    destruct (load_model_cases self fm f jc Hnn)
      as [[m [k [-> _]]]|[-> _]]; [|reflexivity].
    cbn [bind snd]. unfold _load_data. now rewrite Hmot. }
  split; [exact H|]. intros fs. cbn [predict_factors]. now rewrite H.
Qed.

End PredictLoop.

Lemma nonnegative_empty : Spec.nonnegative Nx.empty.
Proof. intros v u c []. Qed.

Lemma missing_motif_scores_raise_key_error_witness :
  PeakPredictor.predict_proba Examples.coin
    (PeakPredictor.mkPredictor Examples.model_store
       [("A"%string, ["m1"%string])] Nx.empty ["chr1:100-300"%string]
       PeakPredictor.custom [] [] [] None None [] ""%string)
    Examples.related_models (Some "A"%string) None 0
  = Raise KeyError.
Proof.
  apply (missing_motif_scores_raise_key_error Examples.coin
           (PeakPredictor.mkPredictor Examples.model_store
              [("A"%string, ["m1"%string])] Nx.empty ["chr1:100-300"%string]
              PeakPredictor.custom [] [] [] None None [] ""%string)
           Examples.related_models "A" 0 nonnegative_empty); reflexivity.
Defined.

(** ** The factors and their motifs *)

Section FactorToMotifs.

Import PeakPredictor.
Local Open Scope string_scope.

Variable species : option Species.
Variable valid_factors : list string.
Variable allowed : option (list string).

Lemma add_factor_eq name f2m factor :
  add_factor species valid_factors allowed name f2m factor
  = if admitted species valid_factors allowed factor
    then append_motif f2m (factor_key species factor) name
    else f2m.
Proof.
  unfold add_factor, admitted, factor_key.
  destruct allowed as [fs|].
  - destruct (contains fs factor); cbn [negb andb]; [|reflexivity].
    destruct (is_human species); cbn [negb andb orb]; [|reflexivity].
    now destruct (contains valid_factors (upper factor)).
  - cbn [andb]. destruct (is_human species); cbn [negb andb orb]; [|reflexivity].
    now destruct (contains valid_factors (upper factor)).
Qed.

Lemma linked_append f2m f n k name :
  linked (append_motif f2m f n) k name
  <-> linked f2m k name \/ (k = f /\ name = n).
Proof.
  unfold linked, append_motif. split.
  - intros [names [Hg Hin]]. rewrite get_set in Hg.
    destruct (String.eqb_spec f k) as [<-|Hne].
    + injection Hg as <-. destruct (get f2m f) as [old|] eqn:E.
      * apply in_app_or in Hin. destruct Hin as [Hin|[<-|[]]]; eauto.
      * destruct Hin as [<-|[]]. auto.
    + eauto.
  - intros [[names [Hg Hin]]|[-> ->]].
    + rewrite get_set. destruct (String.eqb_spec f k) as [<-|Hne]; [|eauto].
      rewrite Hg. eexists. split; [reflexivity|]. apply in_or_app. now left.
    + rewrite get_set_same. eexists. split; [reflexivity|].
      destruct (get f2m f); [apply in_or_app; right|]; now left.
Qed.

Lemma filled_append f2m f n : filled f2m -> filled (append_motif f2m f n).
Proof.
  intros H k names. unfold append_motif. rewrite get_set.
  destruct (String.eqb f k); [|apply H].
  intros [= <-]. destruct (get f2m f) as [old|]; [|discriminate].
  destruct old; discriminate.
Qed.

Lemma nodup_append f2m f n :
  NoDup (keys f2m) -> NoDup (keys (append_motif f2m f n)).
Proof. apply nodup_keys_set. Qed.

(** One motif: its name is filed under the key of every admitted factor. *)
Lemma add_factors_linked name fs : forall f2m k n,
  linked (fold_left (add_factor species valid_factors allowed name) fs f2m) k n
  <-> linked f2m k n
      \/ (n = name
          /\ exists factor, In factor fs
               /\ admitted species valid_factors allowed factor = true
               /\ factor_key species factor = k).
Proof.
  induction fs as [|f fs IH]; intros f2m k n; cbn [fold_left].
  - split; [auto | intros [H|[_ [x [[] _]]]]; exact H].
  - rewrite IH, add_factor_eq.
    destruct (admitted species valid_factors allowed f) eqn:E.
    + rewrite linked_append. split.
      * intros [[H|[Hk Hn]]|[Hn [x [Hx Hk]]]].
        -- now left.
        -- right. split; [exact Hn|]. exists f. split; [now left|].
           split; [exact E | now symmetry].
        -- right. split; [exact Hn|]. exists x. split; [now right | exact Hk].
      * intros [H|[Hn [x [[Hx|Hx] [Ha Hk]]]]].
        -- left. now left.
        -- subst x. left. right. split; [now symmetry | exact Hn].
        -- right. split; [exact Hn|]. exists x. auto.
    + split.
      * intros [H|[Hn [x [Hx Hk]]]].
        -- now left.
        -- right. split; [exact Hn|]. exists x. split; [now right | exact Hk].
      * intros [H|[Hn [x [[Hx|Hx] [Ha Hk]]]]].
        -- now left.
        -- subst x. congruence.
        -- right. split; [exact Hn|]. exists x. auto.
Qed.

Lemma add_factors_kept name fs : forall f2m,
  NoDup (keys f2m) /\ filled f2m ->
  NoDup (keys (fold_left (add_factor species valid_factors allowed name) fs f2m))
  /\ filled (fold_left (add_factor species valid_factors allowed name) fs f2m).
Proof.
  induction fs as [|f fs IH]; intros f2m [Hn Hf]; cbn [fold_left]; auto.
  apply IH. rewrite add_factor_eq.
  destruct (admitted species valid_factors allowed f); auto.
  split; [now apply nodup_append | now apply filled_append].
Qed.

Lemma add_motifs_linked motifs : forall f2m k n,
  linked
    (fold_left
       (fun acc nm =>
          fold_left (add_factor species valid_factors allowed (fst nm))
                    (snd nm) acc)
       motifs f2m) k n
  <-> linked f2m k n
      \/ exists fs factor, In (n, fs) motifs /\ In factor fs
           /\ admitted species valid_factors allowed factor = true
           /\ factor_key species factor = k.
Proof.
  induction motifs as [|[name fs] motifs IH]; intros f2m k n; cbn [fold_left].
  - split; [auto | intros [H|[fs [x [[] _]]]]; exact H].
  - rewrite IH. cbn [fst snd]. rewrite add_factors_linked. split.
    + intros [[H|[Hn [x [Hx Hk]]]]|[fs' [x [Hin Hk]]]].
      * now left.
      * subst n. right. exists fs, x. split; [now left | auto].
      * right. exists fs', x. split; [now right | exact Hk].
    + intros [H|[fs' [x [[Hin|Hin] Hk]]]].
      * left. now left.
      * injection Hin as <- <-. left. right. split; [reflexivity|].
        exists x. exact Hk.
      * right. exists fs', x. auto.
Qed.

Lemma add_motifs_kept motifs : forall f2m,
  NoDup (keys f2m) /\ filled f2m ->
  let r := fold_left
             (fun acc nm =>
                fold_left (add_factor species valid_factors allowed (fst nm))
                          (snd nm) acc)
             motifs f2m in
  NoDup (keys r) /\ filled r.
Proof.
  induction motifs as [|[name fs] motifs IH]; intros f2m H; cbn [fold_left]; auto.
  apply IH. cbn [fst snd]. now apply add_factors_kept.
Qed.

End FactorToMotifs.

Section DelFacts.

Context {V : Type}.
Implicit Types d : dict V.

Lemma keys_del_in d k x : In x (keys (del d k)) -> In x (keys d).
Proof.
  induction d as [|[k' v] d IH]; simpl; auto.
  destruct (String.eqb k' k); simpl; auto. intros [H|H]; auto.
Qed.

Lemma nodup_keys_del d k : NoDup (keys d) -> NoDup (keys (del d k)).
Proof.
  induction d as [|[k' v] d IH]; simpl; auto.
  intros H. inversion H as [|? ? Hni Hnd]; subst.
  destruct (String.eqb k' k); simpl; auto.
  constructor; auto. intros Hin. apply Hni. eapply keys_del_in; eauto.
Qed.

Lemma get_del d k k' :
  NoDup (keys d) ->
  get (del d k) k' = if String.eqb k k' then None else get d k'.
Proof.
  induction d as [|[k0 v] d IH]; simpl; intros H.
  - now destruct (String.eqb k k').
  - inversion H as [|? ? Hni Hnd]; subst.
    destruct (String.eqb_spec k0 k) as [->|Hne].
    + destruct (String.eqb_spec k k') as [E|Hne'].
      * rewrite <- E. now apply get_none_not_in.
      * reflexivity.
    + simpl. destruct (String.eqb_spec k0 k') as [E|Hne'].
      * destruct (String.eqb_spec k k'); [congruence | reflexivity].
      * now apply IH.
Qed.

End DelFacts.

Section LoadedFactors.

Import PeakPredictor.
Local Open Scope string_scope.

Lemma upper_ascii_idem c : upper_ascii (upper_ascii c) = upper_ascii c.
Proof.
  destruct c as [[] [] [] [] [] [] [] []]; reflexivity.
Qed.

Lemma upper_idem s : upper (upper s) = upper s.
Proof.
  induction s as [|c s IH]; simpl; auto. now rewrite upper_ascii_idem, IH.
Qed.

Lemma linked_key f2m k : filled f2m ->
  (In k (keys f2m) <-> exists name, linked f2m k name).
Proof.
  intros Hf. split.
  - intros H. apply mem_true_iff in H. unfold mem in H.
    destruct (get f2m k) as [names|] eqn:E; [|discriminate].
    destruct names as [|n names]; [now apply Hf in E|].
    exists n, (n :: names). split; auto. now left.
  - intros [name [names [Hg _]]]. apply mem_true_iff. unfold mem.
    now rewrite Hg.
Qed.

(** The dictionary that [_load_factor2motifs] returns. *)
Lemma loaded_dictionary :
  forall (species : option PeakPredictor.Species)
         (valid_factors : list string) (motifs : dict (list string))
         (allowed : option (list string)) (f2m : dict (list string)),
    PeakPredictor._load_factor2motifs species valid_factors motifs allowed
    = Ok f2m ->
    f2m <> []
    /\ NoDup (keys f2m)
    /\ (forall k name,
          linked f2m k name
          <-> ~ In k PeakPredictor.BLACKLIST_TFS
              /\ exists fs factor,
                   In (name, fs) motifs /\ In factor fs
                   /\ admitted species valid_factors allowed factor = true
                   /\ factor_key species factor = k)
    /\ (forall k, In k (keys f2m) -> exists name, linked f2m k name)
    /\ (PeakPredictor.is_human species = true ->
        forall k, In k (keys f2m) -> In k valid_factors /\ upper k = k).
Proof.
  intros species valid motifs allowed f2m. unfold _load_factor2motifs.
  cbv zeta.
  match goal with
  | |- context [fold_left ?f motifs []] => set (d := fold_left f motifs [])
  end.
  assert (Hd : NoDup (keys d) /\ filled d).
  { apply (add_motifs_kept species valid allowed motifs []). split.
    - constructor.
    - intros k names. discriminate. }
  assert (Hl : forall k n, linked d k n
             <-> exists fs factor, In (n, fs) motifs /\ In factor fs
                   /\ admitted species valid allowed factor = true
                   /\ factor_key species factor = k).
  { intros k n. unfold d. rewrite add_motifs_linked. split; auto.
    intros [[names [H _]]|H]; [discriminate | exact H]. }
  clearbody d. destruct Hd as [Hnd Hfill]. cbn [BLACKLIST_TFS fold_left].
  set (d' := if mem d "NO ORTHOLOGS FOUND" then del d "NO ORTHOLOGS FOUND" else d).
  assert (Hget : forall k, get d' k
                 = if String.eqb "NO ORTHOLOGS FOUND" k then None else get d k).
  { intros k. unfold d'. destruct (mem d "NO ORTHOLOGS FOUND") eqn:Em.
    - now apply get_del.
    - destruct (String.eqb_spec "NO ORTHOLOGS FOUND" k) as [<-|]; auto.
      now apply mem_false_iff. }
  assert (Hnd' : NoDup (keys d')).
  { unfold d'. destruct (mem d "NO ORTHOLOGS FOUND"); auto.
    now apply nodup_keys_del. }
  assert (Hfill' : filled d').
  { intros k names. rewrite Hget.
    destruct (String.eqb "NO ORTHOLOGS FOUND" k); [discriminate | apply Hfill]. }
  assert (Hl' : forall k n, linked d' k n
             <-> ~ In k ["NO ORTHOLOGS FOUND"] /\ linked d k n).
  { intros k n. unfold linked. rewrite Hget.
    destruct (String.eqb_spec "NO ORTHOLOGS FOUND" k) as [<-|Hne].
    - split.
      + intros [names [H _]]. discriminate.
      + intros [H _]. exfalso. apply H. now left.
    - split; [|tauto]. intros H. split; auto. intros [E|[]]. contradiction. }
  clearbody d'.
  destruct (Nat.eqb (List.length d') 0) eqn:Elen; [discriminate|].
  intros [= <-]. split; [|split; [|split; [|split]]].
  - intros ->. discriminate.
  - exact Hnd'.
  - intros k n. rewrite Hl', Hl. reflexivity.
  - intros k. now apply linked_key.
  - intros Hh k Hk. apply linked_key in Hk; auto. destruct Hk as [n Hk].
    apply Hl', proj2, Hl in Hk. destruct Hk as [fs [x [_ [_ [Ha <-]]]]].
    unfold admitted in Ha. apply andb_true_iff in Ha. destruct Ha as [_ Ha].
    rewrite Hh in Ha. cbn [negb orb] in Ha. apply contains_iff in Ha.
    split; auto. unfold factor_key. rewrite Hh. apply upper_idem.
Qed.

(** X9: what [_load_factor2motifs] returns.  The dictionary is not empty
    and has distinct keys, none of them with an empty list.  It lists a
    motif under a key exactly when the key is not blacklisted and the
    motif file names, for that motif, a factor that passes the filters
    and is filed under the key: for human the key is the name in capitals
    and must be a valid factor, while the requested [factors] are compared
    with the name as the motif file writes it, before it is put in
    capitals.  For human every key is a valid factor in capitals. *)
Theorem load_factor2motifs_links :
  forall (species : option PeakPredictor.Species)
         (valid_factors : list string) (motifs : dict (list string))
         (allowed : option (list string)) (f2m : dict (list string)),
    PeakPredictor._load_factor2motifs species valid_factors motifs allowed
    = Ok f2m ->
    f2m <> []
    /\ NoDup (keys f2m)
    /\ (forall k name,
          linked f2m k name
          <-> ~ In k PeakPredictor.BLACKLIST_TFS
              /\ exists fs factor,
                   In (name, fs) motifs /\ In factor fs
                   /\ admitted species valid_factors allowed factor = true
                   /\ factor_key species factor = k)
    /\ (forall k, In k (keys f2m) -> exists name, linked f2m k name)
    /\ (PeakPredictor.is_human species = true ->
        forall k, In k (keys f2m) -> In k valid_factors /\ upper k = k).
Proof. exact loaded_dictionary. Qed.

Lemma load_factor2motifs_links_witness :
  exists f2m,
    _load_factor2motifs (Some human) Examples.human_factors
      Examples.motif_factors None = Ok f2m
    /\ keys f2m = ["GATA1"; "GATA2"; "SOX2"]
    /\ NoDup (keys f2m).
Proof.
  eexists. split; [vm_compute; reflexivity|]. split; [reflexivity|].
  exact (proj1 (proj2 (load_factor2motifs_links (Some human)
                         Examples.human_factors Examples.motif_factors None
                         _ eq_refl))).
Defined.

(** X10: [factors()] on the dictionary that [_load_factor2motifs] built,
    for a genome that is not mouse: every key of the dictionary is
    returned, in its order and once (for human the second look at the
    valid factors drops nothing), the list is not empty, and every factor
    returned is a key of [f2m], so [predict_proba] knows its motifs. *)
Theorem factors_of_loaded_dictionary :
  forall (species : option PeakPredictor.Species)
         (valid_factors : list string) (motifs : dict (list string))
         (allowed : option (list string)) (f2m : dict (list string)),
    species <> Some PeakPredictor.mouse ->
    PeakPredictor._load_factor2motifs species valid_factors motifs allowed
    = Ok f2m ->
    PeakPredictor.factors species valid_factors f2m = keys f2m
    /\ PeakPredictor.factors species valid_factors f2m <> []
    /\ NoDup (PeakPredictor.factors species valid_factors f2m)
    /\ forall f, In f (PeakPredictor.factors species valid_factors f2m) ->
         mem f2m f = true.
Proof.
  intros species valid motifs allowed f2m Hsp Hload.
  destruct (loaded_dictionary species valid motifs allowed f2m Hload)
    as [Hne [Hnd [_ [_ Hh]]]].
  assert (E : factors species valid f2m = keys f2m).
  { destruct species as [[|]|]; [|congruence|reflexivity].
    cbn [factors]. apply filter_all. intros k Hk.
    apply contains_iff. now apply (Hh eq_refl). }
  rewrite E. split; [reflexivity|]. split; [|split; [exact Hnd|]].
  - destruct f2m; [congruence | discriminate].
  - intros f. apply mem_true_iff.
Qed.

Lemma factors_of_loaded_dictionary_witness :
  exists f2m,
    _load_factor2motifs (Some human) Examples.human_factors
      Examples.motif_factors None = Ok f2m
    /\ factors (Some human) Examples.human_factors f2m
       = ["GATA1"; "GATA2"; "SOX2"].
Proof.
  eexists. split; [vm_compute; reflexivity|].
  refine (proj1 (factors_of_loaded_dictionary (Some human)
                   Examples.human_factors Examples.motif_factors None _ _
                   eq_refl)).
  discriminate.
Defined.

Lemma lower_ascii_moves c : is_lower_ascii c = true -> upper_ascii c <> c.
Proof.
  destruct c as [[] [] [] [] [] [] [] []]; cbv; intros H;
    solve [discriminate H | discriminate].
Qed.

Lemma lower_moves s : any_char is_lower_ascii s = true -> upper s <> s.
Proof.
  induction s as [|c s IH]; simpl; [discriminate|].
  intros H [= Hc Hs]. apply orb_true_iff in H. destruct H as [H|H].
  - now apply lower_ascii_moves in H.
  - now apply IH in H.
Qed.

(** X11: [factors()] for mouse.  A factor is returned only if it is a key
    of [f2m] with at least two characters whose name is not all capitals;
    so a dictionary whose keys are all in capitals gives no factor at
    all. *)
Theorem mouse_factors_are_not_capitals :
  forall (valid_factors : list string) (f2m : dict (list string)),
    (forall f,
       In f (PeakPredictor.factors (Some PeakPredictor.mouse) valid_factors f2m) ->
       In f (keys f2m) /\ upper f <> f /\ (2 <= String.length f)%nat)
    /\ ((forall k, In k (keys f2m) -> upper k = k) ->
        PeakPredictor.factors (Some PeakPredictor.mouse) valid_factors f2m = []).
Proof.
  intros valid f2m.
  assert (H : forall f,
            In f (factors (Some mouse) valid f2m) ->
            In f (keys f2m) /\ upper f <> f /\ (2 <= String.length f)%nat).
  { intros f Hf. cbn [factors] in Hf. apply filter_In in Hf.
    destruct Hf as [Hk Hl]. split; [exact Hk|].
    unfold islower in Hl. apply andb_true_iff in Hl. destruct Hl as [Hl _].
    destruct f as [|c t]; [discriminate|]. cbn [tail] in Hl. split.
    - intros [= _ Ht]. now apply lower_moves in Hl.
    - destruct t; [discriminate | simpl; lia]. }
  split; [exact H|]. intros Hup.
  destruct (factors (Some mouse) valid f2m) as [|f l] eqn:E; [reflexivity|].
  exfalso. destruct (H f (or_introl eq_refl)) as [Hk [Hne _]].
  apply Hne. now apply Hup.
Qed.

End LoadedFactors.

(** ** The motif graph *)

Section JaccardRange.

Import PeakPredictor.
Local Open Scope string_scope.
Local Open Scope Q_scope.

Lemma filter_length_all {X : Type} (p : X -> bool) l :
  List.length (filter p l) = List.length l -> forall x, In x l -> p x = true.
Proof.
  induction l as [|y l IH]; simpl; [tauto|].
  pose proof (filter_length_le p l) as Hle.
  destruct (p y) eqn:E; simpl; intros H x [<-|Hx]; auto; try lia.
Qed.

Lemma filter_length_none {X : Type} (p : X -> bool) l :
  List.length (filter p l) = 0%nat -> forall x, In x l -> p x = false.
Proof.
  induction l as [|y l IH]; simpl; [tauto|].
  destruct (p y) eqn:E; simpl; [discriminate|].
  intros H x [<-|Hx]; auto.
Qed.

Lemma same_size_same_sets a b :
  List.length (intersection a b) = List.length (union a b)
  <-> forall m, In m a <-> In m b.
Proof.
  unfold intersection, union. rewrite length_app.
  pose proof (filter_length_le (contains b) a) as Hle. split.
  - intros H.
    assert (H1 : List.length (filter (contains b) a) = List.length a) by lia.
    assert (H2 : List.length (filter (fun x => negb (contains a x)) b) = 0%nat)
      by lia.
    intros m. split; intros Hm.
    + apply contains_iff. apply (filter_length_all _ _ H1 m Hm).
    + pose proof (filter_length_none _ _ H2 m Hm) as Hn.
      apply negb_false_iff, contains_iff in Hn. exact Hn.
  - intros H.
    rewrite (filter_all (contains b) a)
      by (intros x Hx; apply contains_iff, H, Hx).
    rewrite (filter_none (fun x => negb (contains a x)) b).
    + simpl. lia.
    + intros x Hx. apply negb_false_iff, contains_iff, H, Hx.
Qed.

Lemma one_minus_ratio (i u : nat) :
  (0 < i <= u)%nat ->
  let w := 1 - inject_Z (Z.of_nat i) / inject_Z (Z.of_nat u) in
  0 <= w /\ w < 1 /\ (w == 0 <-> i = u).
Proof.
  intros Hiu w. subst w.
  assert (Hu : 0 < inject_Z (Z.of_nat u)).
  { change 0 with (inject_Z 0). rewrite <- Zlt_Qlt. lia. }
  assert (Hi : 0 < inject_Z (Z.of_nat i)).
  { change 0 with (inject_Z 0). rewrite <- Zlt_Qlt. lia. }
  assert (Hle : inject_Z (Z.of_nat i) <= inject_Z (Z.of_nat u)).
  { rewrite <- Zle_Qle. lia. }
  set (qi := inject_Z (Z.of_nat i)) in *.
  set (qu := inject_Z (Z.of_nat u)) in *.
  assert (Hne : ~ qu == 0).
  { intros E. apply (Qlt_irrefl 0). now rewrite <- E at 2. }
  assert (Hq : qi / qu * qu == qi) by (field; exact Hne).
  assert (Hpos : 0 < qi / qu).
  { apply Qlt_shift_div_l; [exact Hu|]. qlra. }
  assert (Hle1 : qi / qu <= 1).
  { apply Qle_shift_div_r; [exact Hu|]. qlra. }
  split; [qlra|]. split; [qlra|]. split.
  - intros E. assert (E1 : qi / qu == 1) by qlra.
    rewrite E1, Qmult_1_l in Hq.
    unfold qi, qu in Hq. apply (proj1 (inject_Z_injective _ _)) in Hq. lia.
  - intros ->. unfold qi, qu. field. exact Hne.
Qed.

Lemma jaccard_weight_range s1 s2 w :
  jaccard_weight s1 s2 = Some w ->
  0 <= w /\ w < 1
  /\ (exists m, In m s1 /\ In m s2)
  /\ (w == 0 <-> forall m, In m s1 <-> In m s2).
Proof.
  unfold jaccard_weight.
  destruct (0 <? List.length (intersection s1 s2))%nat eqn:Ei; [|discriminate].
  destruct (0 <? List.length (union s1 s2))%nat eqn:Eu; [|discriminate].
  cbn [andb]. intros [= <-]. apply Nat.ltb_lt in Ei.
  pose proof (length_intersection_le s1 s2) as Hle.
  destruct (one_minus_ratio (List.length (intersection s1 s2))
              (List.length (union s1 s2))) as [H0 [H1 Hz]]; [lia|].
  split; [exact H0|]. split; [exact H1|]. split.
  - destruct (intersection s1 s2) as [|m l] eqn:E; [simpl in Ei; lia|].
    exists m. apply in_intersection. rewrite E. now left.
  - rewrite Hz. apply same_size_same_sets.
Qed.

(** X12: the edges of the motif graph.  An edge joins two different
    factors of the dictionary that share a motif; its weight is at least
    0 and below 1, and it is 0 exactly when the two factors have the same
    motifs. *)
Theorem jaccard_edge_weight_range :
  forall (loaded : dict (list string))
         (reference_orthologs : option (dict (list string)))
         (order : list (string * string)) (G : Nx.Graph)
         (a b : string) (w : Q),
    let c := PeakPredictor.complete_f2m loaded reference_orthologs in
    NoDup (keys loaded) ->
    Permutation order (PeakPredictor.combinations (keys c)) ->
    PeakPredictor._jaccard_motif_graph c order = Ok G ->
    Nx.edge_weight G a b = Some w ->
    0 <= w /\ w < 1 /\ a <> b
    /\ exists s1 s2,
         get c a = Some s1 /\ get c b = Some s2
         /\ (exists m, In m s1 /\ In m s2)
         /\ (w == 0 <-> forall m, In m s1 <-> In m s2).
Proof.
  intros loaded ro order G a b w c Hnd Hperm HG Hw.
  rewrite (jaccard_graph_edge_weight c order G a b
             (set_valued_complete loaded ro Hnd) Hperm HG) in Hw.
  destruct (String.eqb_spec a b) as [E|Hab]; [discriminate|]. cbn [negb andb] in Hw.
  unfold mem, pair_weight in Hw.
  destruct (get c a) as [s1|]; [|discriminate].
  destruct (get c b) as [s2|]; [|discriminate]. cbn [andb] in Hw.
  destruct (jaccard_weight_range s1 s2 w Hw) as [H0 [H1 [Hm Hz]]].
  split; [exact H0|]. split; [exact H1|]. split; [exact Hab|].
  exists s1, s2. auto.
Qed.

Lemma jaccard_edge_weight_range_witness :
  exists G w,
    _jaccard_motif_graph (complete_f2m Examples.motif_sets None)
      (combinations (keys (complete_f2m Examples.motif_sets None))) = Ok G
    /\ Nx.edge_weight G "A" "B" = Some w
    /\ 0 <= w /\ w < 1.
Proof.
  eexists. eexists. split; [vm_compute; reflexivity|].
  split; [vm_compute; reflexivity|].
  assert (Hnd : NoDup (keys Examples.motif_sets)).
  { repeat constructor; simpl; intuition discriminate. }
  destruct (jaccard_edge_weight_range Examples.motif_sets None
              (combinations (keys (complete_f2m Examples.motif_sets None)))
              _ "A" "B" _ Hnd (Permutation_refl _) eq_refl eq_refl)
    as [H0 [H1 _]].
  split; [exact H0 | exact H1].
Defined.

End JaccardRange.

(* ================================================================== *)
(** * Further properties of the aggregation *)
(* ================================================================== *)

(** ** The order of the enhancer-gene table *)

Section SortedPairs.

Import Interaction.
Local Open Scope Z_scope.

Lemma drop_duplicates_from_sorted seen l :
  StronglySorted by_dist l ->
  StronglySorted by_dist (drop_duplicates_from seen l).
Proof.
  intros Hs. revert seen. induction Hs as [|x l Hs IH Hall]; intros seen;
    simpl; [constructor|].
  destruct (existsb (same_pair x) seen); [apply IH|].
  constructor; [apply IH|]. rewrite Forall_forall in *. intros y Hy.
  apply drop_duplicates_from_in in Hy. apply Hall, Hy.
Qed.

Lemma drop_duplicates_from_length seen l :
  (List.length (drop_duplicates_from seen l) <= List.length l)%nat.
Proof.
  revert seen. induction l as [|x l IH]; intros seen; simpl; auto.
  destruct (existsb (same_pair x) seen); simpl.
  - etransitivity; [apply IH | lia].
  - apply le_n_S, IH.
Qed.

Lemma sorted_filter_map (p : GeneRow -> bool) (f : GeneRow -> GeneRow) l :
  (forall r, dist (f r) = dist r) ->
  StronglySorted by_dist l -> StronglySorted by_dist (map f (filter p l)).
Proof.
  intros Hf. induction 1 as [|x l Hs IH Hall]; simpl; [constructor|].
  destruct (p x); [|exact IH]. simpl. constructor; [exact IH|].
  rewrite Forall_forall in *. intros y Hy. apply in_map_iff in Hy.
  destruct Hy as [z [<- Hz]]. apply filter_In in Hz.
  unfold by_dist. rewrite !Hf. apply Hall, Hz.
Qed.

(** X13: the table of [get_gene_dataframe] is in the order of the
    distance, nearest first, no distance is negative, and it has at most
    one row for each overlap; the pairs kept for the long-range
    aggregation are in that order as well. *)
Theorem gene_dataframe_sorted_by_distance :
  forall (overlaps : list Interaction.Overlap) (up down : Z),
    let p := Interaction.get_gene_dataframe overlaps up down in
    StronglySorted by_dist p
    /\ (forall r, In r p -> 0 <= Interaction.dist r)
    /\ StronglySorted by_dist (Interaction.long_range_pairs overlaps up down)
    /\ (List.length p <= List.length overlaps)%nat.
Proof.
  intros overlaps up down p. split; [|split; [|split]].
  - apply drop_duplicates_from_sorted, sort_by_dist_sorted.
  - intros r Hr. apply gene_rows_from_overlaps in Hr.
    destruct Hr as [f [_ ->]]. cbn [gene_row dist]. apply Z.abs_nonneg.
  - unfold long_range_pairs. apply sorted_filter_map; [reflexivity|].
    apply drop_duplicates_from_sorted, sort_by_dist_sorted.
  - unfold p, get_gene_dataframe, drop_duplicates.
    etransitivity; [apply drop_duplicates_from_length|].
    rewrite <- (Permutation_length (sort_by_dist_perm _)).
    now rewrite length_map.
Qed.

End SortedPairs.

(** ** The join with the distance weights *)

Section WeightJoin.

Import Interaction.
Local Open Scope Z_scope.

(** No weight outside of [1, padding]. *)
Lemma weights_at_outside alpha padding keep1 remove d :
  0 <= remove <= keep1 -> keep1 <= padding -> d < 1 \/ padding < d ->
  weights_at (weight_table alpha padding keep1 remove) d = [].
Proof.
  intros Hr Hk Hd. unfold weight_table.
  rewrite !weight_frame_const, weight_frame_decay, !weights_at_app.
  unfold range. rewrite !weights_at_shifted.
  rewrite !Z2Nat.id by lia.
  zcases; reflexivity.
Qed.

Lemma merge_weight_cons r rows tb :
  merge_weight (r :: rows) tb
  = match weights_at tb (p_dist r) with
    | [] => [(r, None)]
    | ws => map (fun w => (r, Some w)) ws
    end ++ merge_weight rows tb.
Proof. reflexivity. Qed.

Lemma merge_weight_rows alpha padding keep1 remove rows :
  0 <= remove <= keep1 -> keep1 <= padding ->
  map fst (merge_weight rows (weight_table alpha padding keep1 remove)) = rows.
Proof.
  intros Hr Hk. induction rows as [|x rows IH]; [reflexivity|].
  rewrite merge_weight_cons, map_app, IH.
  destruct (Z_lt_dec (p_dist x) 1) as [Hlo|Hlo];
    [|destruct (Z_lt_dec padding (p_dist x)) as [Hhi|Hhi]].
  - now rewrite weights_at_outside by auto.
  - now rewrite weights_at_outside by auto.
  - now rewrite weights_at_weight_table by lia.
Qed.

(** X14: for [0 <= remove <= keep1 <= padding] the left join with the
    weight table neither drops nor repeats a row of the long-range table;
    a row is left without weight, and so without weighted binding,
    exactly when its distance is below 1 or above [padding] - so a peak
    whose middle is the start of the gene has none. *)
Theorem merge_weight_keeps_rows :
  forall (alpha : R) (padding keep1 remove : Z)
         (rows : list Interaction.Pair),
    0 <= remove <= keep1 -> keep1 <= padding ->
    let weighted :=
      Interaction.merge_weight rows
        (Interaction.weight_table alpha padding keep1 remove) in
    map fst weighted = rows
    /\ (forall r w, In (r, w) weighted ->
          (w = None
           <-> Interaction.p_dist r < 1 \/ padding < Interaction.p_dist r)
          /\ (Interaction.dist_weight (r, w) = None <-> w = None)).
Proof.
  intros alpha padding keep1 remove rows Hr Hk weighted. subst weighted.
  induction rows as [|x rows [IH1 IH2]]; [split; [reflexivity | intros r w []]|].
  rewrite merge_weight_cons.
  destruct (Z_lt_dec (p_dist x) 1) as [Hlo|Hlo];
    [|destruct (Z_lt_dec padding (p_dist x)) as [Hhi|Hhi]].
  - rewrite weights_at_outside by auto. cbn [app map fst]. split.
    + now rewrite IH1.
    + intros r w [[= <- <-]|Hin]; [|now apply IH2].
      split; [|reflexivity]. split; auto.
  - rewrite weights_at_outside by auto. cbn [app map fst]. split.
    + now rewrite IH1.
    + intros r w [[= <- <-]|Hin]; [|now apply IH2].
      split; [|reflexivity]. split; auto.
  - rewrite weights_at_weight_table by lia. cbn [app map fst]. split.
    + now rewrite IH1.
    + intros r w [[= <- <-]|Hin]; [|now apply IH2].
      split; (split; [discriminate|]).
      * intros [H|H]; lia.
      * discriminate.
Qed.

Lemma merge_weight_keeps_rows_witness :
  map fst (merge_weight
             (contributing Examples.binding Examples.overlaps 50000 50000)
             (weight_table 10000 100000 5000 2000))
  = contributing Examples.binding Examples.overlaps 50000 50000.
Proof.
  apply (merge_weight_keeps_rows 10000 100000 5000 2000); lia.
Defined.

Local Open Scope R_scope.

Lemma decay_at_alpha (a : Z) :
  (0 < a)%Z -> decay (decay_rate (IZR a)) a = 1 / 2.
Proof.
  intros Ha. unfold decay, decay_rate.
  assert (Hpos : 0 < IZR a) by (apply IZR_lt; lia).
  rewrite Rabs_pos_eq by lra.
  replace (- (- ln (1 / 3) * 100000 / IZR a) * IZR a / 100000)
    with (ln (1 / 3)) by (field; lra).
  rewrite exp_ln by lra. lra.
Qed.

(** The curve stays between 0 and 1. *)
Lemma decay_range u z : 0 <= u -> 0 < decay u z <= 1.
Proof.
  intros Hu. unfold decay.
  set (x := exp (- u * Rabs (IZR z) / 100000)).
  assert (Hx : 0 < x) by apply exp_pos.
  assert (Hx1 : x <= 1).
  { unfold x. rewrite <- exp_0.
    destruct (Req_dec (- u * Rabs (IZR z) / 100000) 0) as [->|Hne];
      [lra|].
    left. apply exp_increasing.
    pose proof (Rabs_pos (IZR z)).
    assert (0 <= u * Rabs (IZR z)) by nra. lra. }
  split.
  - apply Rdiv_lt_0_compat; lra.
  - apply Rmult_le_reg_r with (1 + x); [lra|].
    replace (2 * x / (1 + x) * (1 + x)) with (2 * x) by (field; lra). lra.
Qed.

(** X15: [alpha] is the distance beyond [keep1] at which the weight is
    one half: for a whole [alpha] the distance [keep1 + alpha], when the
    table reaches it, is joined to the weight 1/2. *)
Theorem half_weight_at_alpha :
  forall (a padding keep1 remove : Z),
    (0 < a)%Z -> (0 <= remove <= keep1)%Z -> (keep1 + a <= padding)%Z ->
    Interaction.weights_at
      (Interaction.weight_table (IZR a) padding keep1 remove) (keep1 + a)
    = [1 / 2].
Proof.
  intros a padding keep1 remove Ha Hr Hp.
  rewrite weights_at_weight_table by lia.
  destruct (Z.leb_spec (keep1 + a) remove); [lia|].
  destruct (Z.leb_spec (keep1 + a) keep1); [lia|].
  replace (keep1 + a - keep1)%Z with a by lia.
  now rewrite decay_at_alpha.
Qed.

Lemma half_weight_at_alpha_witness :
  weights_at (weight_table (IZR 10000) 100000 5000 2000) (5000 + 10000)
  = [1 / 2].
Proof. apply half_weight_at_alpha; lia. Defined.

Lemma weight_table_range alpha padding keep1 remove w d :
  0 < alpha -> In (w, d) (weight_table alpha padding keep1 remove) ->
  0 <= w <= 1.
Proof.
  intros Ha. unfold weight_table.
  rewrite !weight_frame_const, weight_frame_decay.
  pose proof (decay_rate_pos alpha Ha) as Hu.
  intros H. apply in_app_or in H. destruct H as [H|H];
    [|apply in_app_or in H; destruct H as [H|H]];
    apply in_map_iff in H; destruct H as [z [[= <- <-] Hz]].
  - lra.
  - lra.
  - pose proof (decay_range (decay_rate alpha) z). lra.
Qed.

(** X16: the weights are between 0 and 1: for a positive [alpha] the
    weighted binding of a row with a binding that is not negative lies
    between 0 and that binding, whatever the other parameters are. *)
Theorem weighted_binding_is_bounded :
  forall (alpha : R) (padding keep1 remove : Z)
         (rows : list Interaction.Pair) (r : Interaction.Pair)
         (w : option R) (v : R),
    0 < alpha ->
    In (r, w) (Interaction.merge_weight rows
                 (Interaction.weight_table alpha padding keep1 remove)) ->
    Interaction.dist_weight (r, w) = Some v ->
    0 <= Interaction.p_binding r ->
    0 <= v <= Interaction.p_binding r.
Proof.
  intros alpha padding keep1 remove rows r w v Ha Hin Hv Hb.
  unfold merge_weight in Hin. apply in_flat_map in Hin.
  destruct Hin as [x [_ Hx]].
  destruct w as [w|]; [|discriminate]. cbn in Hv. injection Hv as <-.
  assert (Hw : In w (weights_at (weight_table alpha padding keep1 remove)
                       (p_dist x)) /\ r = x).
  { destruct (weights_at (weight_table alpha padding keep1 remove) (p_dist x))
      as [|w0 ws].
    - destruct Hx as [[=]|[]].
    - apply in_map_iff in Hx. destruct Hx as [w' [[= <- <-] Hw']]. auto. }
  destruct Hw as [Hw _]. unfold weights_at in Hw. apply in_map_iff in Hw.
  destruct Hw as [[w' d] [Hfst Hwd]]. cbn in Hfst. subst w'.
  apply filter_In in Hwd. destruct Hwd as [Hwd _].
  pose proof (weight_table_range _ _ _ _ _ _ Ha Hwd). nra.
Qed.

Lemma weighted_binding_is_bounded_witness :
  0 <= 1 / 2 * 0 <= 1 / 2.
Proof.
  apply (weighted_binding_is_bounded 10000 100000 5000 2000
           [mkPair "GATA1"%string "TAL1"%string (1 / 2) 1000]
           (mkPair "GATA1"%string "TAL1"%string (1 / 2) 1000)
           (Some 0) (1 / 2 * 0)).
  - lra.
  - unfold merge_weight. cbn [flat_map p_dist].
    rewrite weights_at_weight_table by lia. now left.
  - reflexivity.
  - cbn. lra.
Defined.

End WeightJoin.

Section DistanceWeight.

Import Interaction.
Local Open Scope Z_scope.

Lemma nth_error_range_from a n i :
  (i < n)%nat -> nth_error (range_from a n) i = Some (a + Z.of_nat i).
Proof.
  revert a i. induction n as [|n IH]; intros a i Hi; [lia|].
  destruct i as [|i]; simpl.
  - f_equal. lia.
  - rewrite IH by lia. f_equal. lia.
Qed.

Lemma length_range_from a n : List.length (range_from a n) = n.
Proof. revert a. induction n as [|n IH]; intros a; simpl; auto. Qed.

(** X17: [distance_weight] for one distance and a positive [alpha].  The
    weights are computed for the distances 1 to [padding] and then read
    by position, so the distance [d] with [0 <= d < padding] gets the
    weight of [d + 1]; a negative distance down to [-padding] is counted
    from the far end of the table, and any other distance, [padding]
    itself included, fails with [IndexError]. *)
Theorem distance_weight_is_one_off :
  forall (binding : R) (distance : Z) (alpha : R) (padding : Z),
    (0 < alpha)%R -> 0 <= padding ->
    let u := Interaction.decay_rate alpha in
    let r := Interaction.distance_weight binding distance alpha padding in
    (0 <= distance < padding ->
       r = Interaction.Returns
             (binding * Interaction.decay u (distance + 1))%R)
    /\ (- padding <= distance < 0 ->
        r = Interaction.Returns
              (binding * Interaction.decay u (padding + distance + 1))%R)
    /\ (padding <= distance \/ distance < - padding ->
        r = Interaction.Fails Interaction.IndexError).
Proof.
  intros binding distance alpha padding Ha Hp u r. subst r.
  unfold distance_weight. rewrite weights_fail_positive by exact Ha.
  cbv zeta. fold u. unfold np_index.
  rewrite length_map. unfold range. rewrite length_range_from.
  replace (padding + 1 - 1) with padding by lia.
  rewrite Z2Nat.id by lia.
  split; [|split]; intros Hd.
  - destruct (Z.leb_spec 0 distance); [|lia].
    destruct (Z.ltb_spec distance padding); [|lia]. cbn [andb].
    rewrite nth_error_map, nth_error_range_from by lia.
    cbn [option_map]. do 3 f_equal. lia.
  - destruct (Z.leb_spec 0 distance); [lia|]. cbn [andb].
    destruct (Z.leb_spec (- padding) distance); [|lia].
    destruct (Z.ltb_spec distance 0); [|lia]. cbn [andb].
    rewrite nth_error_map, nth_error_range_from by lia.
    cbn [option_map]. do 3 f_equal. lia.
  - destruct (Z.leb_spec 0 distance); cbn [andb].
    + destruct (Z.ltb_spec distance padding); [lia|].
      destruct (Z.leb_spec (- padding) distance); cbn [andb]; [|reflexivity].
      destruct (Z.ltb_spec distance 0); [lia | reflexivity].
    + destruct (Z.leb_spec (- padding) distance); [lia|]. reflexivity.
Qed.

Lemma distance_weight_is_one_off_witness :
  distance_weight 1 0 10000 100
  = Returns (1 * decay (decay_rate 10000) (0 + 1))%R.
Proof.
  apply (proj1 (distance_weight_is_one_off 1 0 10000 100
                  ltac:(lra) ltac:(lia))).
  lia.
Defined.

End DistanceWeight.

(** ** Groups *)

Section Partition.

Import Interaction.

Context {X : Type}.
Variable kf : X -> key.

Lemma group_cons k r rows :
  group kf k (r :: rows)
  = if key_eqb (kf r) k then r :: group kf k rows else group kf k rows.
Proof. reflexivity. Qed.

Lemma group_absent k rows :
  ~ In k (map kf rows) -> group kf k rows = [].
Proof.
  intros H. apply filter_none. intros x Hx.
  destruct (key_eqb (kf x) k) eqn:E; auto.
  apply key_eqb_iff in E. exfalso. apply H. apply in_map_iff. eauto.
Qed.

(** Adding a row changes the group of its key only. *)
Lemma groups_cons r rows ks :
  NoDup ks ->
  Permutation
    (flat_map (fun k => group kf k (r :: rows)) ks)
    (if existsb (key_eqb (kf r)) ks
     then r :: flat_map (fun k => group kf k rows) ks
     else flat_map (fun k => group kf k rows) ks).
Proof.
  induction 1 as [|k ks Hni Hnd IH]; cbn [flat_map existsb]; [constructor|].
  rewrite group_cons.
  destruct (key_eqb (kf r) k) eqn:E; cbn [orb].
  - apply key_eqb_iff in E.
    assert (Hno : existsb (key_eqb (kf r)) ks = false).
    { destruct (existsb (key_eqb (kf r)) ks) eqn:Ex; auto.
      apply existsb_exists in Ex. destruct Ex as [y [Hy Ey]].
      apply key_eqb_iff in Ey. congruence. }
    rewrite Hno in IH. cbn [app]. constructor.
    now apply Permutation_app_head.
  - destruct (existsb (key_eqb (kf r)) ks).
    + rewrite IH. symmetry. apply Permutation_middle.
    + now apply Permutation_app_head.
Qed.

(** The groups of a [groupby] hold every row once. *)
Lemma groups_partition rows :
  Permutation (flat_map (fun k => group kf k rows) (group_keys (map kf rows)))
              rows.
Proof.
  induction rows as [|r rows IH]; [constructor|].
  cbn [map group_keys].
  destruct (existsb (key_eqb (kf r)) (map kf rows)) eqn:E.
  - rewrite groups_cons by apply nodup_group_keys.
    assert (Ex : existsb (key_eqb (kf r)) (group_keys (map kf rows)) = true).
    { apply existsb_exists in E. destruct E as [y [Hy Ey]].
      apply existsb_exists. exists y. split; auto. now apply in_group_keys. }
    rewrite Ex. now constructor.
  - cbn [flat_map]. rewrite group_cons.
    assert (Hrr : key_eqb (kf r) (kf r) = true) by now apply key_eqb_iff.
    rewrite Hrr.
    assert (Hni : ~ In (kf r) (map kf rows)).
    { intros Hin.
      assert (existsb (key_eqb (kf r)) (map kf rows) = true).
      { apply existsb_exists. exists (kf r). auto. }
      congruence. }
    rewrite group_absent by exact Hni. cbn [app]. constructor.
    rewrite groups_cons by apply nodup_group_keys.
    assert (Ex : existsb (key_eqb (kf r)) (group_keys (map kf rows)) = false).
    { destruct (existsb (key_eqb (kf r)) (group_keys (map kf rows))) eqn:Ex;
        auto.
      apply existsb_exists in Ex. destruct Ex as [y [Hy Ey]].
      apply key_eqb_iff in Ey. subst y.
      apply (proj1 (in_group_keys _ _)) in Hy. contradiction. }
    rewrite Ex. exact IH.
Qed.

End Partition.

Section GroupSums.

Import Interaction.

Lemma length_flat_map_sum {A B : Type} (f : A -> list B) l :
  Z.of_nat (List.length (flat_map f l))
  = fold_right Z.add 0%Z (map (fun a => Z.of_nat (List.length (f a))) l).
Proof.
  induction l as [|a l IH]; simpl; auto.
  rewrite length_app, Nat2Z.inj_add, IH. reflexivity.
Qed.

Lemma Rsum_app a b : Rsum (a ++ b) = (Rsum a + Rsum b)%R.
Proof.
  unfold Rsum. induction a as [|x a IH]; simpl; [lra|]. rewrite IH. lra.
Qed.

Lemma Rsum_perm a b : Permutation a b -> Rsum a = Rsum b.
Proof.
  unfold Rsum. induction 1; simpl; lra.
Qed.

Lemma Rsum_flat_map {A : Type} (f : A -> list R) l :
  Rsum (flat_map f l) = Rsum (map (fun a => Rsum (f a)) l).
Proof.
  induction l as [|a l IH]; simpl; auto.
  rewrite Rsum_app, IH. reflexivity.
Qed.

Lemma map_over_flat_map {A B C : Type} (f : B -> C) (g : A -> list B) l :
  map f (flat_map g l) = flat_map (fun a => map f (g a)) l.
Proof.
  induction l as [|a l IH]; simpl; auto. now rewrite map_app, IH.
Qed.

(** X18: grouping by factor and gene loses nothing.  The [enhancers]
    counts of all pairs add up to the number of rows of the long-range
    table, the [sum_binding] of all pairs to the sum of the binding of
    its rows after the join with the weights, and there is one row of
    counts for each pair, so at most as many as rows. *)
Theorem group_counts_add_up :
  forall (m : R) (rows : list Interaction.Pair)
         (weighted : list (Interaction.Pair * option R)),
    fold_right Z.add 0%Z (map snd (Interaction.sum_enh rows))
    = Z.of_nat (List.length rows)
    /\ Rsum (map (fun r => Interaction.s_binding (snd r))
               (Interaction.f_table_sum m weighted))
       = Rsum (map (fun r => Interaction.p_binding (fst r)) weighted)
    /\ List.length (Interaction.sum_enh rows)
       = List.length (Interaction.group_keys (map Interaction.pair_key rows))
    /\ (List.length (Interaction.sum_enh rows) <= List.length rows)%nat.
Proof.
  intros m rows weighted. split; [|split; [|split]].
  - unfold sum_enh. rewrite map_map. cbn [snd].
    rewrite <- (length_flat_map_sum (fun k => group pair_key k rows)).
    f_equal. apply Permutation_length, groups_partition.
  - unfold f_table_sum. rewrite map_map. cbn [snd s_binding].
    transitivity
      (Rsum (map (fun r => p_binding (fst r))
               (flat_map (fun k => group weighted_key k weighted)
                  (group_keys (map weighted_key weighted))))).
    + now rewrite map_over_flat_map, Rsum_flat_map.
    + apply Rsum_perm, Permutation_map, groups_partition.
  - unfold sum_enh. apply length_map.
  - unfold sum_enh. rewrite length_map.
    rewrite <- (length_map pair_key rows).
    apply NoDup_incl_length; [apply nodup_group_keys|].
    intros k. apply in_group_keys.
Qed.

End GroupSums.

(** ** The values of a row *)

Section FeatureValues.

Import Interaction.
Local Open Scope string_scope.

Lemma group_weighted_rows k weighted :
  map (fun r => p_binding (fst r)) (group weighted_key k weighted)
  = map p_binding (group pair_key k (map fst weighted)).
Proof.
  unfold group. rewrite filter_map_swap, map_map. reflexivity.
Qed.

(** The row of a pair whose key no other pair has. *)
Lemma unique_pair_joined ddf po go wu wd alpha padding keep1 remove f g :
  let rows := contributing ddf go wu wd in
  let proms := merge_promoters ddf (promoter_pairs po) in
  let weighted := merge_weight rows (weight_table alpha padding keep1 remove) in
  let st := source_target_of (f, g) in
  In (f, g) (map pair_key rows) ->
  (forall k, In k (map pair_key rows ++ map prom_key proms) ->
             source_target_of k = st -> k = (f, g)) ->
  exists sv mv pv,
    filter (fun r => String.eqb (source_target r) st)
      (feature_table ddf po go wu wd alpha padding keep1 remove)
    = [feature_of
         (st, (Some (Some (Some sv, Some mv),
                     Some (Z.of_nat (List.length (group pair_key (f, g) rows)))),
               pv))]
    /\ s_binding sv
       = Rsum (map (fun r => p_binding (fst r))
                 (group weighted_key (f, g) weighted))
    /\ m_binding mv
       = Rmax_list (map (fun r => p_binding (fst r))
                      (group weighted_key (f, g) weighted))
    /\ match pv with Some v => v | None => None end
       = Rmax_list (map snd (group prom_key (f, g) proms)).
Proof.
  intros rows proms weighted st Hin Huniq.
  set (m := mean (map p_binding rows)).
  set (S := f_table_sum m weighted).
  set (M := f_table_max weighted).
  set (E := sum_enh rows).
  set (Pr := prom_table proms).
  assert (Htable : feature_table ddf po go wu wd alpha padding keep1 remove
            = map feature_of (merge_outer (merge_outer (merge_outer S M) E) Pr))
    by reflexivity.
  assert (HK : forall k, In k (map pair_key rows) ->
                 source_target_of k = st -> k = (f, g))
    by (apply (in_keys_app_l _ _ _ Huniq)).
  assert (HP : forall k, In k (map prom_key proms) ->
                 source_target_of k = st -> k = (f, g))
    by (apply (in_keys_app_r _ _ _ Huniq)).
  assert (HW : forall k, In k (map weighted_key weighted) ->
                 source_target_of k = st -> k = (f, g)).
  { intros k Hk. apply HK.
    now apply (merge_weight_keys rows
                 (weight_table alpha padding keep1 remove) k). }
  assert (HinW : In (f, g) (map weighted_key weighted))
    by now apply merge_weight_keys.
  pose proof (keyed_rows_single
                (fun k =>
                   let g := group weighted_key k weighted in
                   mkSums (Rsum (map (fun r => weighted_logodds m (fst r)) g))
                          (Rsum (map (fun r => logodds m (fst r)) g))
                          (Rsum (map (fun r => p_binding (fst r)) g))
                          (Rsum (present (map dist_weight g))))
                (map weighted_key weighted) (f, g) HinW HW) as HS.
  pose proof (keyed_rows_single
                (fun k =>
                   let g := group weighted_key k weighted in
                   mkMaxs (Rmax_list (map (fun r => p_binding (fst r)) g))
                          (Rmax_list (present (map dist_weight g))))
                (map weighted_key weighted) (f, g) HinW HW) as HM.
  pose proof (keyed_rows_single
                (fun k => Z.of_nat (List.length (group pair_key k rows)))
                (map pair_key rows) (f, g) Hin HK) as HE.
  fold st in HS, HM, HE.
  change (keyed _ (map weighted_key weighted)) with S in HS.
  change (keyed _ (map weighted_key weighted)) with M in HM.
  change (keyed _ (map pair_key rows)) with E in HE.
  pose proof (merge_outer_both st S M _ _ HS HM) as H1.
  pose proof (merge_outer_both st _ E _ _ H1 HE) as H2.
  cbn [snd] in H2.
  destruct (existsb (key_eqb (f, g)) (map prom_key proms)) eqn:Ex.
  - apply existsb_exists in Ex. destruct Ex as [k [Hk Hfg]].
    apply key_eqb_iff in Hfg. subst k.
    pose proof (keyed_rows_single
                  (fun k => Rmax_list (map snd (group prom_key k proms)))
                  _ (f, g) Hk HP) as HPr.
    fold st in HPr.
    pose proof (merge_outer_both st _ Pr _ _ H2 HPr) as H3. cbn [snd] in H3.
    do 3 eexists. split; [|split; [|split]].
    + rewrite Htable, rows_of_source_target, H3. reflexivity.
    + reflexivity.
    + reflexivity.
    + reflexivity.
  - assert (HPr : filter (key_is st) Pr = []).
    { apply keyed_rows_none. intros k Hk Hst.
      rewrite (HP k Hk Hst) in Hk.
      assert (existsb (key_eqb (f, g)) (map prom_key proms) = true).
      { apply existsb_exists. exists (f, g). split; auto.
        now apply key_eqb_iff. }
      congruence. }
    pose proof (merge_outer_left st _ Pr _ H2 HPr) as H3. cbn [snd] in H3.
    do 2 eexists. exists None. split; [|split; [|split]].
    + rewrite Htable, rows_of_source_target, H3. reflexivity.
    + reflexivity.
    + reflexivity.
    + assert (Hg : group prom_key (f, g) proms = []).
      { apply filter_none. intros x Hx.
        destruct (key_eqb (prom_key x) (f, g)) eqn:Ek; auto.
        apply key_eqb_iff in Ek.
        assert (existsb (key_eqb (f, g)) (map prom_key proms) = true).
        { apply existsb_exists. exists (f, g). split.
          - rewrite <- Ek. now apply in_map.
          - now apply key_eqb_iff. }
        congruence. }
      now rewrite Hg.
Qed.

(** X19: the values in the row of a pair.  For a positive [alpha] and
    [0 <= remove <= keep1 <= padding], a pair (factor, gene) with a
    contributing enhancer whose key no other pair has: the call returns
    a table, and the only row of the pair has as [sum_binding] the sum
    and as [max_binding] the greatest of the binding of its contributing
    rows, as [enhancers] their number, the two logarithms taken of the
    sum plus 1e-5 and of the number plus 1, and as
    [max_binding_in_promoter] the greatest binding among the promoter
    rows of the pair, or 0 when it has none. *)
Theorem pair_row_values :
  forall (ddf : list Interaction.Binding)
         (prom_overlaps gene_overlaps : list Interaction.Overlap)
         (window_up window_down : Z) (alpha : R) (padding keep1 remove : Z)
         (f g : string),
    let rows := contributing ddf gene_overlaps window_up window_down in
    let proms := merge_promoters ddf (promoter_pairs prom_overlaps) in
    let st := source_target_of (f, g) in
    let mine := group pair_key (f, g) rows in
    (0 < alpha)%R ->
    (0 <= remove <= keep1)%Z -> (keep1 <= padding)%Z ->
    In (f, g) (map pair_key rows) ->
    (forall k, In k (map pair_key rows ++ map prom_key proms) ->
               source_target_of k = st -> k = (f, g)) ->
    exists table row,
      aggregate_binding ddf prom_overlaps gene_overlaps
        window_up window_down alpha padding keep1 remove
      = Returns table
      /\ filter (fun r => String.eqb (source_target r) st) table = [row]
      /\ sum_binding row = Some (Rsum (map p_binding mine))
      /\ max_binding row = Rmax_list (map p_binding mine)
      /\ enhancers row = Some (Z.of_nat (List.length mine))
      /\ log_sum_binding row
         = Some (ln (Rsum (map p_binding mine) + / 100000))
      /\ log_enhancers row
         = Some (ln (IZR (Z.of_nat (List.length mine)) + 1))
      /\ max_binding_in_promoter row
         = match Rmax_list (map snd (group prom_key (f, g) proms)) with
           | Some v => v
           | None => 0%R
           end.
Proof.
  intros ddf po go wu wd alpha padding keep1 remove f g
         rows proms st mine Ha Hr Hk Hin Huniq.
  destruct (unique_pair_joined ddf po go wu wd alpha padding keep1 remove f g
              Hin Huniq) as [sv [mv [pv [Hrow [Hs [Hm Hp]]]]]].
  rewrite group_weighted_rows, merge_weight_rows in Hs, Hm by assumption.
  fold rows mine in Hs, Hm. fold proms in Hp. fold rows st in Hrow.
  assert (Hne : long_range_pairs go wu wd <> []).
  { intros E. unfold rows, contributing in Hin. rewrite E in Hin.
    apply in_map_iff in Hin. destruct Hin as [x [_ Hx]].
    apply in_merge_pairs in Hx. destruct Hx as [_ [r [_ [[] _]]]]. }
  eexists. eexists.
  split; [now apply aggregate_binding_returns|]. split; [exact Hrow|].
  cbn [sum_binding max_binding enhancers log_sum_binding log_enhancers
       max_binding_in_promoter feature_of sums_of maxs_of enhancers_of
       promoter_of fst snd option_map].
  fold mine. rewrite Hs, Hm, <- Hp. repeat split.
Qed.

Lemma pair_row_values_witness :
  exists table row,
    aggregate_binding Examples.binding Examples.promoters Examples.overlaps
      50000 50000 10000 100000 5000 2000
    = Returns table
    /\ filter (fun r => String.eqb (source_target r) "GATA1_TAL1") table
       = [row]
    /\ enhancers row
       = Some (Z.of_nat
                 (List.length
                    (group pair_key ("GATA1", "TAL1")
                       (contributing Examples.binding Examples.overlaps
                          50000 50000)))).
Proof.
  destruct (pair_row_values Examples.binding Examples.promoters
              Examples.overlaps 50000 50000 10000 100000 5000 2000
              "GATA1" "TAL1")
    as [table [row [Htable [Hrow [_ [_ [He _]]]]]]].
  - lra.
  - lia.
  - lia.
  - lazy. now left.
  - intros k Hk _. lazy in Hk.
    repeat (destruct Hk as [Hk|Hk]; [now rewrite <- Hk|]). contradiction.
  - exists table, row. auto.
Defined.

End FeatureValues.

(** ** Names *)

Section UpperCase.

Import Interaction.
Local Open Scope string_scope.

(** X20: where the rows of the two merged tables come from.  A row of
    the long-range table joins a row of the binding table to an overlap
    whose peak is the enhancer of the binding row; it has the factor and
    the binding of the former as they are, and the gene of the latter in
    capitals.  The genes of the promoter table are in capitals too, its
    factors and bindings again those of the binding table. *)
Theorem genes_are_upper_case :
  forall (ddf : list Interaction.Binding)
         (prom_overlaps gene_overlaps : list Interaction.Overlap)
         (window_up window_down : Z),
    (forall x,
       In x (Interaction.contributing ddf gene_overlaps window_up window_down) ->
       upper (Interaction.p_gene x) = Interaction.p_gene x
       /\ exists b o,
            In b ddf /\ In o gene_overlaps
            /\ Interaction.p_factor x = Interaction.b_factor b
            /\ Interaction.p_binding x = Interaction.b_binding b
            /\ Interaction.p_gene x = upper (Interaction.name o)
            /\ Interaction.b_enhancer b
               = Interaction.make_loc (Interaction.chrom o)
                   (Interaction.peak_start o) (Interaction.peak_end o))
    /\ (forall x,
          In x (Interaction.merge_promoters ddf
                  (Interaction.promoter_pairs prom_overlaps)) ->
          upper (snd (fst x)) = snd (fst x)
          /\ exists b, In b ddf /\ fst (fst x) = Interaction.b_factor b
                       /\ snd x = Interaction.b_binding b).
Proof.
  intros ddf po go wu wd. split.
  - intros x Hx. unfold contributing in Hx. apply in_merge_pairs in Hx.
    destruct Hx as [b [r [Hb [Hr [He ->]]]]]. cbn [p_gene p_factor p_binding].
    unfold long_range_pairs in Hr. apply in_map_iff in Hr.
    destruct Hr as [r0 [<- Hr0]]. cbn [gene loc] in *.
    apply filter_In in Hr0. destruct Hr0 as [Hr0 _].
    apply gene_rows_from_overlaps in Hr0. destruct Hr0 as [o [Ho ->]].
    cbn [gene_row gene loc] in *. split; [apply upper_idem|].
    exists b, o. auto 10.
  - intros x Hx. unfold merge_promoters in Hx. apply in_flat_map in Hx.
    destruct Hx as [b [Hb Hx]]. apply in_map_iff in Hx.
    destruct Hx as [r [<- Hr]]. cbn [fst snd]. apply filter_In in Hr.
    destruct Hr as [Hr _]. unfold promoter_pairs in Hr.
    apply in_map_iff in Hr. destruct Hr as [r0 [<- _]]. cbn [prom_gene].
    split; [apply upper_idem | eauto].
Qed.

End UpperCase.

Section DisorderedWeights.

Import Interaction.
Local Open Scope Z_scope.

(** X21: with [remove] above [keep1] the pieces of the weight table
    overlap: a distance above [keep1] and up to [remove] is in the table
    twice, with the weight 0 and with the weight of the decay curve, so
    the left join gives a row of the long-range table at such a distance
    twice, and the pair counts its binding twice. *)
Theorem overlapping_weights_repeat_rows :
  forall (alpha : R) (padding keep1 remove d : Z) (r : Interaction.Pair),
    0 <= keep1 < remove -> remove <= padding ->
    keep1 < d <= remove ->
    Interaction.p_dist r = d ->
    let tb := Interaction.weight_table alpha padding keep1 remove in
    Interaction.weights_at tb d
    = [0%R; Interaction.decay (Interaction.decay_rate alpha) (d - keep1)]
    /\ Interaction.merge_weight [r] tb
       = [(r, Some 0%R);
          (r, Some (Interaction.decay (Interaction.decay_rate alpha)
                      (d - keep1)))].
Proof.
  intros alpha padding keep1 remove d r Hk Hr Hd Hdist tb.
  assert (Hw : weights_at tb d
               = [0%R; decay (decay_rate alpha) (d - keep1)]).
  { unfold tb, weight_table.
    rewrite !weight_frame_const, weight_frame_decay, !weights_at_app.
    unfold range. rewrite !weights_at_shifted.
    replace (Z.to_nat (keep1 + 1 - (remove + 1))) with 0%nat by lia.
    rewrite !Z2Nat.id by lia. cbn [Z.of_nat].
    zcases; reflexivity. }
  split; [exact Hw|].
  unfold merge_weight. cbn [flat_map]. rewrite Hdist, Hw. reflexivity.
Qed.

Lemma overlapping_weights_repeat_rows_witness :
  weights_at (weight_table 10000 100000 2000 5000) 3000
  = [0%R; decay (decay_rate 10000) (3000 - 2000)].
Proof.
  apply (proj1 (overlapping_weights_repeat_rows 10000 100000 2000 5000 3000
                  (mkPair "GATA1"%string "TAL1"%string 1 3000)
                  ltac:(lia) ltac:(lia) ltac:(lia) eq_refl)).
Defined.

End DisorderedWeights.


Section RowsFromPairs.

Import Interaction.

Lemma merge_outer_keys {A B : Type} (l : list (string * A))
    (r : list (string * B)) x :
  In x (merge_outer l r) -> In (fst x) (map fst l) \/ In (fst x) (map fst r).
Proof.
  unfold merge_outer. intros H. apply in_app_or in H. destruct H as [H|H].
  - left. apply in_flat_map in H. destruct H as [y [Hy Hx]].
    assert (E : fst x = fst y).
    { destruct (filter (fun z => String.eqb (fst y) (fst z)) r).
      - destruct Hx as [<-|[]]. reflexivity.
      - apply in_map_iff in Hx. destruct Hx as [z [<- _]]. reflexivity. }
    rewrite E. now apply in_map.
  - right. apply in_map_iff in H. destruct H as [y [<- Hy]].
    apply filter_In in Hy. cbn [fst]. apply in_map, Hy.
Qed.

Lemma merge_outer_key_from {A B : Type} (l : list (string * A))
    (r : list (string * B)) st :
  In st (map fst (merge_outer l r)) ->
  In st (map fst l) \/ In st (map fst r).
Proof.
  intros H. apply in_map_iff in H. destruct H as [x [<- Hx]].
  now apply merge_outer_keys.
Qed.

Lemma keyed_keys {V : Type} (val : key -> V) ks st :
  In st (map fst (keyed val ks)) ->
  exists k, In k ks /\ st = source_target_of k.
Proof.
  unfold keyed. rewrite map_map. cbn [fst]. intros H.
  apply in_map_iff in H. destruct H as [k [<- Hk]].
  exists k. split; [now apply in_group_keys | reflexivity].
Qed.

(** X22: no row without a pair.  Every row of a returned feature table
    has the key of a pair (factor, gene) that has a contributing enhancer
    or a promoter row, and the factor of that pair is a factor of the
    binding table: the aggregation makes up no factor. *)
Theorem feature_rows_come_from_pairs :
  forall (ddf : list Interaction.Binding)
         (prom_overlaps gene_overlaps : list Interaction.Overlap)
         (window_up window_down : Z) (alpha : R) (padding keep1 remove : Z)
         (table : list Interaction.Feature) (row : Interaction.Feature),
    let rows := contributing ddf gene_overlaps window_up window_down in
    let proms := merge_promoters ddf (promoter_pairs prom_overlaps) in
    aggregate_binding ddf prom_overlaps gene_overlaps
      window_up window_down alpha padding keep1 remove
    = Returns table ->
    In row table ->
    exists k,
      source_target row = source_target_of k
      /\ (In k (map pair_key rows) \/ In k (map prom_key proms))
      /\ exists b, In b ddf /\ fst k = b_factor b.
Proof.
  intros ddf po go wu wd alpha padding keep1 remove table row rows proms
         Htable Hrow.
  apply aggregate_binding_inv in Htable. destruct Htable as [-> _].
  unfold feature_table in Hrow. apply in_map_iff in Hrow.
  destruct Hrow as [j [<- Hj]]. cbn [source_target feature_of].
  assert (Hk : exists k, fst j = source_target_of k
                 /\ (In k (map pair_key rows) \/ In k (map prom_key proms))).
  { apply merge_outer_keys in Hj. destruct Hj as [Hj|Hj].
    - apply merge_outer_key_from in Hj. destruct Hj as [Hj|Hj].
      + apply merge_outer_key_from in Hj. destruct Hj as [Hj|Hj];
          apply keyed_keys in Hj; destruct Hj as [k [Hk ->]];
          exists k; split; auto; left;
          now apply (merge_weight_keys rows
                       (weight_table alpha padding keep1 remove) k).
      + apply keyed_keys in Hj. destruct Hj as [k [Hk ->]]. eauto.
    - apply keyed_keys in Hj. destruct Hj as [k [Hk ->]]. eauto. }
  destruct Hk as [k [Hst Hk]]. exists k. split; [exact Hst|].
  split; [exact Hk|]. destruct Hk as [Hk|Hk].
  - apply in_map_iff in Hk. destruct Hk as [x [<- Hx]].
    apply in_merge_pairs in Hx. destruct Hx as [b [r [Hb [_ [_ ->]]]]].
    exists b. auto.
  - apply in_map_iff in Hk. destruct Hk as [x [<- Hx]].
    unfold proms, merge_promoters in Hx. apply in_flat_map in Hx.
    destruct Hx as [b [Hb Hx]]. apply in_map_iff in Hx.
    destruct Hx as [r [<- _]]. exists b. auto.
Qed.

Lemma feature_rows_come_from_pairs_witness :
  exists table row k,
    aggregate_binding Examples.binding Examples.promoters
      Examples.overlaps 50000 50000 10000 100000 5000 2000
    = Returns table
    /\ In row table
    /\ source_target row = source_target_of k.
Proof.
  assert (Htable : aggregate_binding Examples.binding Examples.promoters
                     Examples.overlaps 50000 50000 10000 100000 5000 2000
                   = Returns (feature_table Examples.binding Examples.promoters
                                Examples.overlaps 50000 50000 10000 100000
                                5000 2000)).
  { apply aggregate_binding_returns; [lra | lazy; discriminate]. }
  destruct (pair_has_row Examples.binding Examples.promoters Examples.overlaps
              50000 50000 10000 100000 5000 2000
              ("GATA1"%string, "TAL1"%string)) as [row [Hin _]].
  { left. lazy. now left. }
  destruct (feature_rows_come_from_pairs _ _ _ _ _ _ _ _ _ _ row Htable Hin)
    as [k [Hst _]].
  eexists. exists row, k. split; [exact Htable|]. split; [exact Hin|].
  exact Hst.
Defined.

(** X23: when [aggregate_binding] fails.  With [alpha = 0] the call
    returns no table, and when the distance filter left a pair it is the
    division by [alpha] that fails.  With a positive [alpha] no weight
    overflows: the call fails exactly when the distance filter leaves no
    enhancer-gene pair, and otherwise returns the feature table. *)
Theorem aggregate_binding_failures :
  forall (ddf : list Interaction.Binding)
         (prom_overlaps gene_overlaps : list Interaction.Overlap)
         (window_up window_down : Z) (alpha : R) (padding keep1 remove : Z),
    let call := aggregate_binding ddf prom_overlaps gene_overlaps
                  window_up window_down alpha padding keep1 remove in
    let pairs := long_range_pairs gene_overlaps window_up window_down in
    (alpha = 0%R -> forall table, call <> Returns table)
    /\ (alpha = 0%R -> pairs <> [] -> call = Fails ZeroDivisionError)
    /\ ((0 < alpha)%R -> pairs = [] -> call = Fails EmptyPairTable)
    /\ ((0 < alpha)%R -> pairs <> [] ->
        call = Returns (feature_table ddf prom_overlaps gene_overlaps
                          window_up window_down alpha padding keep1 remove)).
Proof.
  intros ddf po go wu wd alpha padding keep1 remove call pairs.
  split; [|split; [|split]].
  - intros Ha table Htable. apply aggregate_binding_inv in Htable.
    destruct Htable as [_ [Hne _]]. contradiction.
  - intros Ha _. unfold call, aggregate_binding, weights_fail.
    destruct (Req_dec_T alpha 0) as [_|Hne]; [reflexivity | contradiction].
  - intros Ha Hp. unfold call, aggregate_binding.
    rewrite weights_fail_positive by exact Ha. fold pairs. now rewrite Hp.
  - intros Ha Hp. now apply aggregate_binding_returns.
Qed.

End RowsFromPairs.
